(** * RLC Analyzer Pro: the frequency-response analysis core

    A shallow embedding of [core/rlc_theory.py], [core/curve_fitting.py],
    [core/analysis_reconstruction.py] and [core/units.py], and the
    properties of the natural-language specification that concern them;
    then the axis set-up of [gui/plot_utils.py] and further properties of
    the same functions, read off the code.

    Numbers.  Python's [float] and NumPy's [float64] are binary64 values.
    They are modelled by the real numbers extended with the three
    non-finite values of IEEE 754 ([float] below): arithmetic on finite
    values is exact (no rounding, no overflow, no underflow, signed zeros
    identified), and the non-finite values follow IEEE 754.  This is the
    "real arithmetic" reading of the specification; it keeps what the code
    observes of floats apart from rounding: [nan] from square roots of
    negative numbers, [inf] from NumPy divisions by zero, comparisons that
    are false on [nan], and Python's [ZeroDivisionError].

    Python scalars and NumPy scalars.  The scalar arguments of the core
    functions are Python floats (the GUI passes [float(entry) * multiplier]).
    A division whose two operands are Python floats raises
    [ZeroDivisionError] on a zero divisor ([py_div]); as soon as one operand
    is a NumPy value (the result of [np.sqrt], an array, an array element)
    the division follows IEEE 754 and returns [inf] or [nan] ([fdiv]). *)

From Stdlib Require Import Reals Lra Lia List ZArith String Ascii Bool Sorted.
From stdpp Require Import gmap strings.

Set Warnings "-register-all".

(** ** Exceptions and the result monad *)

Inductive exn : Type :=
  | ZeroDivisionError
  | ValueError (msg : string)
  | TypeError
  | AttributeError
  | IndexError.

Inductive result (A : Type) : Type :=
  | Ok (a : A)
  | Raise (e : exn).
Arguments Ok {A} a.
Arguments Raise {A} e.

#[global] Instance result_ret : MRet result := fun A a => Ok a.
#[global] Instance result_bind : MBind result := fun A B f m =>
  match m with
  | Ok a => f a
  | Raise e => Raise e
  end.

(** [mapM]: a [for] loop whose body can raise; the first exception ends it. *)
Fixpoint result_mapM {A B : Type} (f : A -> result B) (l : list A) : result (list B) :=
  match l with
  | [] => Ok []
  | a :: l' => b ← f a; bs ← result_mapM f l'; mret (b :: bs)
  end.

(** ** Binary64 values in real arithmetic *)

Inductive float : Type :=
  | Fin (x : R)
  | PInf
  | NInf
  | NaN.

Declare Scope float_scope.
Delimit Scope float_scope with fl.
Bind Scope float_scope with float.

Module Float.

Local Open Scope R_scope.

Definition Rltb (x y : R) : bool := if Rlt_dec x y then true else false.
Definition Rleb (x y : R) : bool := if Rle_dec x y then true else false.
Definition Reqb (x y : R) : bool := if Req_dec_T x y then true else false.

Inductive sign : Type := Neg | Zero | Pos.

Definition Rsign (x : R) : sign :=
  if Rlt_dec 0 x then Pos else if Rlt_dec x 0 then Neg else Zero.

Definition sign_mul (s t : sign) : sign :=
  match s, t with
  | Zero, _ | _, Zero => Zero
  | Pos, Pos | Neg, Neg => Pos
  | Pos, Neg | Neg, Pos => Neg
  end.

(** The infinity of a given sign; [inf * 0] and [0 / 0] are [nan]. *)
Definition inf_of (s : sign) : float :=
  match s with
  | Pos => PInf
  | Neg => NInf
  | Zero => NaN
  end.

Definition fsign (a : float) : option sign :=
  match a with
  | Fin x => Some (Rsign x)
  | PInf => Some Pos
  | NInf => Some Neg
  | NaN => None
  end.

Definition isfinite (a : float) : bool :=
  match a with
  | Fin _ => true
  | _ => false
  end.

Definition fopp (a : float) : float :=
  match a with
  | Fin x => Fin (- x)
  | PInf => NInf
  | NInf => PInf
  | NaN => NaN
  end.

Definition fabs (a : float) : float :=
  match a with
  | Fin x => Fin (Rabs x)
  | PInf | NInf => PInf
  | NaN => NaN
  end.

Definition fadd (a b : float) : float :=
  match a, b with
  | NaN, _ | _, NaN => NaN
  | Fin x, Fin y => Fin (x + y)
  | PInf, NInf | NInf, PInf => NaN
  | PInf, _ | _, PInf => PInf
  | NInf, _ | _, NInf => NInf
  end.

Definition fsub (a b : float) : float := fadd a (fopp b).

Definition fmul (a b : float) : float :=
  match a, b with
  | Fin x, Fin y => Fin (x * y)
  | _, _ =>
      match fsign a, fsign b with
      | Some s, Some t => inf_of (sign_mul s t)
      | _, _ => NaN
      end
  end.

(** IEEE 754 division, as NumPy performs it: a zero divisor gives an
    infinity (or [nan] for [0 / 0]) and no exception. *)
Definition fdiv (a b : float) : float :=
  match a, b with
  | NaN, _ | _, NaN => NaN
  | Fin x, Fin y => if Req_dec_T y 0 then inf_of (Rsign x) else Fin (x / y)
  | Fin _, (PInf | NInf) => Fin 0
  | (PInf | NInf), (PInf | NInf) => NaN
  | PInf, Fin y => if Rlt_dec y 0 then NInf else PInf
  | NInf, Fin y => if Rlt_dec y 0 then PInf else NInf
  end.

(** [np.sqrt]: [nan] on negative arguments, no exception. *)
Definition fsqrt (a : float) : float :=
  match a with
  | Fin x => if Rlt_dec x 0 then NaN else Fin (sqrt x)
  | PInf => PInf
  | NInf | NaN => NaN
  end.

(** Comparisons; every comparison with [nan] is false. *)
Definition flt (a b : float) : bool :=
  match a, b with
  | NaN, _ | _, NaN => false
  | Fin x, Fin y => Rltb x y
  | NInf, (Fin _ | PInf) => true
  | Fin _, PInf => true
  | _, _ => false
  end.

Definition fle (a b : float) : bool :=
  match a, b with
  | NaN, _ | _, NaN => false
  | Fin x, Fin y => Rleb x y
  | NInf, _ => true
  | _, PInf => true
  | _, _ => false
  end.

Definition feqb (a b : float) : bool :=
  match a, b with
  | Fin x, Fin y => Reqb x y
  | PInf, PInf | NInf, NInf => true
  | _, _ => false
  end.

Definition fgt (a b : float) : bool := flt b a.
Definition fge (a b : float) : bool := fle b a.

(** [np.log10] and [10.0 ** x] on NumPy values. *)
Definition log10 (a : float) : float :=
  match a with
  | Fin x =>
      if Rlt_dec 0 x then Fin (ln x / ln 10)
      else if Rlt_dec x 0 then NaN else NInf
  | PInf => PInf
  | NInf | NaN => NaN
  end.

Definition pow10 (a : float) : float :=
  match a with
  | Fin x => Fin (Rpower 10 x)
  | PInf => PInf
  | NInf => Fin 0
  | NaN => NaN
  end.

End Float.
Export Float.

Notation "a + b" := (fadd a b) : float_scope.
Notation "a - b" := (fsub a b) : float_scope.
Notation "a * b" := (fmul a b) : float_scope.
Notation "a / b" := (fdiv a b) : float_scope.
Notation "- a" := (fopp a) : float_scope.
Notation "a <? b" := (flt a b) : float_scope.
Notation "a <=? b" := (fle a b) : float_scope.
Notation "a >? b" := (fgt a b) : float_scope.
Notation "a >=? b" := (fge a b) : float_scope.
Notation "a =? b" := (feqb a b) : float_scope.

(** ** Python and NumPy primitives *)

Module Py.

Local Open Scope float_scope.

(** [a / b] on two Python floats. *)
Definition py_div (a b : float) : result float :=
  if b =? Fin 0 then Raise ZeroDivisionError else Ok (a / b).

(** [x ** 2]. *)
Definition sq (a : float) : float := a * a.

(** [math.sqrt]: a [ValueError] ("math domain error") outside the domain. *)
Definition math_sqrt (a : float) : result float :=
  match a with
  | Fin x => if Rlt_dec x 0 then Raise (ValueError "math domain error") else Ok (Fin (sqrt x))
  | PInf => Ok PInf
  | NInf => Raise (ValueError "math domain error")
  | NaN => Ok NaN
  end.

(** The builtin [max(a, b)] keeps [a] unless [b > a]. *)
Definition py_max (a b : float) : float := if b >? a then b else a.

(** [2.0 * np.pi]. *)
Definition two_pi : float := Fin 2 * Fin PI.

End Py.
Export Py.

Module Np.

Local Open Scope float_scope.

(** [np.minimum], [np.maximum] on two values: [nan] propagates. *)
Definition minimum (a b : float) : float :=
  match a, b with
  | NaN, _ | _, NaN => NaN
  | _, _ => if a <=? b then a else b
  end.

Definition maximum (a b : float) : float :=
  match a, b with
  | NaN, _ | _, NaN => NaN
  | _, _ => if a >=? b then a else b
  end.

(** Element-wise [np.minimum], [np.maximum] on arrays of one length. *)
Fixpoint minimum_arr (u v : list float) : list float :=
  match u, v with
  | a :: u', b :: v' => minimum a b :: minimum_arr u' v'
  | _, _ => []
  end.

Fixpoint maximum_arr (u v : list float) : list float :=
  match u, v with
  | a :: u', b :: v' => maximum a b :: maximum_arr u' v'
  | _, _ => []
  end.

(** [np.min], [np.max] of a non-empty sequence; a [ValueError] on an
    empty one. *)
Definition min (l : list float) : result float :=
  match l with
  | [] => Raise (ValueError "zero-size array to reduction operation minimum which has no identity")
  | a :: l' => Ok (fold_left minimum l' a)
  end.

Definition max (l : list float) : result float :=
  match l with
  | [] => Raise (ValueError "zero-size array to reduction operation maximum which has no identity")
  | a :: l' => Ok (fold_left maximum l' a)
  end.

(** [np.linspace(start, stop, num)] with [endpoint=True]: [num] samples
    [start + i * step], the last one set to [stop]. *)
Definition linspace (start stop : float) (num : Z) : result (list float) :=
  if (num <? 0)%Z then Raise (ValueError "Number of samples must be non-negative")
  else
    let n := Z.to_nat num in
    let delta := stop - start in
    let step := delta / Fin (IZR (num - 1)) in
    let y := map (fun i : nat =>
                    if (1 <? num)%Z
                    then (if (i =? n - 1)%nat then stop else Fin (INR i) * step + start)
                    else Fin (INR i) * delta + start)
                 (seq 0 n) in
    Ok y.

(** [np.logspace(start, stop, num)]: [10 ** linspace(start, stop, num)]. *)
Definition logspace (start stop : float) (num : Z) : result (list float) :=
  y ← linspace start stop num; mret (map pow10 y).

Definition count_nonzero (mask : list bool) : nat :=
  length (List.filter (fun b : bool => b) mask).

(** [a[mask]]: boolean indexing; an [IndexError] when the lengths differ. *)
Fixpoint select {A : Type} (a : list A) (mask : list bool) : list A :=
  match a, mask with
  | x :: a', b :: mask' => if b then x :: select a' mask' else select a' mask'
  | _, _ => []
  end.

Definition index_mask {A : Type} (a : list A) (mask : list bool) : result (list A) :=
  if (length a =? length mask)%nat then Ok (select a mask) else Raise IndexError.

End Np.

(** [for] loop with an accumulator and a body that can raise. *)
Fixpoint result_foldM {A S : Type} (f : S -> A -> result S) (l : list A) (s : S) : result S :=
  match l with
  | [] => Ok s
  | a :: l' => s' ← f s a; result_foldM f l' s'
  end.

(** ** core/rlc_theory.py *)

(** The dictionary [{"f0", "Q", "BW", "f1", "f2"}] of resonance metrics. *)
Record metrics : Type := Metrics {
  m_f0 : float;
  m_Q : float;
  m_BW : float;
  m_f1 : float;
  m_f2 : float
}.

(** The dictionary of [(min, max)] pairs, one per metric. *)
Record metric_ranges : Type := Ranges {
  r_f0 : float * float;
  r_Q : float * float;
  r_BW : float * float;
  r_f1 : float * float;
  r_f2 : float * float
}.

Module rlc_theory.

Local Open Scope float_scope.

(** [get_transfer_function(f, R, L, C)]: the array [f] is mapped point
    by point; every operation involves the array, so none raises. *)
Definition get_transfer_function (f : list float) (R L C : float) : list float :=
  map (fun fi : float =>
         let w := two_pi * fi in
         let Xc := Fin 1 / (w * C + Fin 1e-15) in
         let Xl := w * L in
         let Z := fsqrt (sq R + sq (Xl - Xc)) in
         R / Z) f.

Definition calculate_f1_f2 (R L C : float) : result (float * float) :=
  alpha ← py_div R (Fin 2 * L);
  omega0_sq ← py_div (Fin 1) (L * C);
  let omega1 := - alpha + fsqrt (sq alpha + omega0_sq) in
  let omega2 := alpha + fsqrt (sq alpha + omega0_sq) in
  let f1 := omega1 / two_pi in
  let f2 := omega2 / two_pi in
  mret (f1, f2).

Definition calculate_nominal_metrics (R_nom L_nom C_nom : float) : result metrics :=
  let w0 := Fin 1 / fsqrt (L_nom * C_nom) in
  let f0 := w0 / two_pi in
  inv_R ← py_div (Fin 1) R_nom;
  ratio ← py_div L_nom C_nom;
  let Q := inv_R * fsqrt ratio in
  '(f1_nom, f2_nom) ← calculate_f1_f2 R_nom L_nom C_nom;
  let BW_nom := f2_nom - f1_nom in
  mret {| m_f0 := f0; m_Q := Q; m_BW := BW_nom; m_f1 := f1_nom; m_f2 := f2_nom |}.

(** The three nested loops over [factors_r], [factors_l], [factors_c],
    in iteration order. *)
Definition tolerance_corners (R_nom L_nom C_nom tol_R tol_L tol_C : float)
  : list (float * float * float) :=
  let factors_r := [Fin 1 - tol_R; Fin 1 + tol_R] in
  let factors_l := [Fin 1 - tol_L; Fin 1 + tol_L] in
  let factors_c := [Fin 1 - tol_C; Fin 1 + tol_C] in
  flat_map (fun fr =>
    flat_map (fun fl =>
      map (fun fc => (R_nom * fr, L_nom * fl, C_nom * fc)) factors_c)
      factors_l)
    factors_r.

(** [calculate_min_max_metrics]: the five lists of the source grow in
    lockstep, one entry per corner; they are kept as one list of
    records.  There is no guard on the corner values here. *)
Definition calculate_min_max_metrics (R_nom L_nom C_nom tol_R tol_L tol_C : float)
  : result metric_ranges :=
  ms ← result_mapM (fun '(R, L, C) =>
          let w0 := Fin 1 / fsqrt (L * C) in
          let f0 := w0 / two_pi in
          inv_R ← py_div (Fin 1) R;
          ratio ← py_div L C;
          let Q := inv_R * fsqrt ratio in
          '(f1_val, f2_val) ← calculate_f1_f2 R L C;
          let BW := f2_val - f1_val in
          mret {| m_f0 := f0; m_Q := Q; m_BW := BW; m_f1 := f1_val; m_f2 := f2_val |})
        (tolerance_corners R_nom L_nom C_nom tol_R tol_L tol_C);
  f0_min ← Np.min (map m_f0 ms); f0_max ← Np.max (map m_f0 ms);
  Q_min ← Np.min (map m_Q ms); Q_max ← Np.max (map m_Q ms);
  BW_min ← Np.min (map m_BW ms); BW_max ← Np.max (map m_BW ms);
  f1_min ← Np.min (map m_f1 ms); f1_max ← Np.max (map m_f1 ms);
  f2_min ← Np.min (map m_f2 ms); f2_max ← Np.max (map m_f2 ms);
  mret {| r_f0 := (f0_min, f0_max); r_Q := (Q_min, Q_max); r_BW := (BW_min, BW_max);
          r_f1 := (f1_min, f1_max); r_f2 := (f2_min, f2_max) |}.

Definition _transfer_gain (freqs : list float) (R L C : float) : list float :=
  map (fun fi : float =>
         let w := two_pi * fi in
         let Xc := Fin 1 / (w * C + Fin 1e-30) in
         let Xl := w * L in
         let Z := fsqrt (sq R + sq (Xl - Xc)) in
         R / Z) freqs.

Definition _compute_metrics (R L C : float) : result metrics :=
  let w0 := Fin 1 / fsqrt (L * C) in
  let f0 := w0 / two_pi in
  inv_R ← py_div (Fin 1) R;
  ratio ← py_div L C;
  let Q := inv_R * fsqrt ratio in
  alpha ← py_div R (Fin 2 * L);
  omega0_sq ← py_div (Fin 1) (L * C);
  let omega1 := - alpha + fsqrt (sq alpha + omega0_sq) in
  let omega2 := alpha + fsqrt (sq alpha + omega0_sq) in
  let f1 := omega1 / two_pi in
  let f2 := omega2 / two_pi in
  let BW := f2 - f1 in
  mret {| m_f0 := f0; m_Q := Q; m_BW := BW; m_f1 := f1; m_f2 := f2 |}.

(** Lines 421-434 of [simulate_response_with_tolerances]: the effective
    frequency range [(freq_min_eff, freq_max_eff)]. *)
Definition effective_range (f0 : float) (freq_min freq_max : option float) : float * float :=
  match freq_min, freq_max with
  | Some fmin, Some fmax =>
      let freq_min_eff := fmin in
      let freq_max_eff := fmax in
      let freq_min_eff :=
        if freq_min_eff <=? Fin 0
        then (if f0 >? Fin 0 then f0 / Fin 10 else Fin 10)
        else freq_min_eff in
      let freq_max_eff :=
        if freq_max_eff <=? freq_min_eff then freq_min_eff * Fin 10 else freq_max_eff in
      (freq_min_eff, freq_max_eff)
  | _, _ =>
      (if f0 >? Fin 0 then f0 / Fin 10 else Fin 10,
       if f0 >? Fin 0 then f0 * Fin 10 else Fin 1e6)
  end.

(** The accumulators of the corner sweep. *)
Record sweep : Type := Sweep {
  metrics_lists : list metrics;
  min_curve : list float;
  max_curve : list float
}.

(** The guard [if R <= 0 or L <= 0 or C <= 0: continue]. *)
Definition degenerate (corner : float * float * float) : bool :=
  let '(R, L, C) := corner in
  (R <=? Fin 0) || (L <=? Fin 0) || (C <=? Fin 0).

(** [vout_ext]: the output-voltage curve of one corner. *)
Definition corner_vout (freqs : list float) (V_in_plot : float)
    (corner : float * float * float) : list float :=
  let '(R, L, C) := corner in
  let gain_ext := _transfer_gain freqs R L C in
  map (fun g => g * V_in_plot) gain_ext.

(** The body of the innermost loop of the sweep, for one corner. *)
Definition corner_step (freqs : list float) (V_in_plot : float)
    (st : sweep) (corner : float * float * float) : result sweep :=
  if degenerate corner then Ok st
  else
    m ← (let '(R, L, C) := corner in _compute_metrics R L C);
    let vout_ext := corner_vout freqs V_in_plot corner in
    mret {| metrics_lists := metrics_lists st ++ [m];
            min_curve := Np.minimum_arr (min_curve st) vout_ext;
            max_curve := Np.maximum_arr (max_curve st) vout_ext |}.

(** The corners for which the body of the sweep runs, in loop order. *)
Definition surviving (corners : list (float * float * float))
  : list (float * float * float) :=
  List.filter (fun corner => negb (degenerate corner)) corners.

(** [ranges[k]] for one metric: the nominal value when no corner was
    accumulated. *)
Definition range_of (nominal : float) (arr : list float) : result (float * float) :=
  match arr with
  | [] => Ok (nominal, nominal)
  | _ => lo ← Np.min arr; hi ← Np.max arr; mret (lo, hi)
  end.

(** The ranges [(nominal, nominal)] around the metrics [m]. *)
Definition collapsed_ranges (m : metrics) : metric_ranges :=
  {| r_f0 := (m_f0 m, m_f0 m); r_Q := (m_Q m, m_Q m); r_BW := (m_BW m, m_BW m);
     r_f1 := (m_f1 m, m_f1 m); r_f2 := (m_f2 m, m_f2 m) |}.

(** The 7-tuple returned by [simulate_response_with_tolerances]. *)
Record simulation : Type := Simulation {
  sim_freqs : list float;
  nom_curve_Vout : list float;
  min_curve_Vout : list float;
  max_curve_Vout : list float;
  metrics_nom : metrics;
  sim_ranges : metric_ranges;
  Vout_max_global : float
}.

Definition simulate_response_with_tolerances
    (R_nom L_nom C_nom tol_R tol_L tol_C V_in_plot : float)
    (freq_min freq_max : option float) (num_points : Z) : result simulation :=
  nom ← _compute_metrics R_nom L_nom C_nom;
  let f0 := m_f0 nom in
  let '(freq_min_eff, freq_max_eff) := effective_range f0 freq_min freq_max in
  freqs ← Np.logspace (log10 freq_min_eff) (log10 freq_max_eff) num_points;
  let gain_nom := _transfer_gain freqs R_nom L_nom C_nom in
  let nom_curve := map (fun g => g * V_in_plot) gain_nom in
  st ← result_foldM (corner_step freqs V_in_plot)
         (tolerance_corners R_nom L_nom C_nom tol_R tol_L tol_C)
         {| metrics_lists := []; min_curve := nom_curve; max_curve := nom_curve |};
  rg_f0 ← range_of (m_f0 nom) (map m_f0 (metrics_lists st));
  rg_Q ← range_of (m_Q nom) (map m_Q (metrics_lists st));
  rg_BW ← range_of (m_BW nom) (map m_BW (metrics_lists st));
  rg_f1 ← range_of (m_f1 nom) (map m_f1 (metrics_lists st));
  rg_f2 ← range_of (m_f2 nom) (map m_f2 (metrics_lists st));
  vmax ← (match max_curve st with
          | [] => Ok (Fin 0)
          | _ => Np.max (max_curve st)
          end);
  mret {| sim_freqs := freqs;
          nom_curve_Vout := nom_curve;
          min_curve_Vout := min_curve st;
          max_curve_Vout := max_curve st;
          metrics_nom := nom;
          sim_ranges := {| r_f0 := rg_f0; r_Q := rg_Q; r_BW := rg_BW;
                           r_f1 := rg_f1; r_f2 := rg_f2 |};
          Vout_max_global := vmax |}.

End rlc_theory.

(** ** The caller's objects

    [design_rlc_for_target_f0] receives its candidate grids by reference:
    a Python list or a NumPy array that the caller still holds.  The store
    maps object identities to objects; the function runs in a state and
    exception monad over it, so that what it does to the caller's objects
    can be stated. *)

Inductive pyobj : Type :=
  | PyList (items : list float)
  | NdArray (items : list float).

Definition items_of (o : pyobj) : list float :=
  match o with
  | PyList v | NdArray v => v
  end.

Abbreviation store := (gmap nat pyobj).

Definition M (A : Type) : Type := store -> result A * store.

Module Store.

Definition ret {A : Type} (a : A) : M A := fun h => (Ok a, h).

Definition bind {A B : Type} (m : M A) (f : A -> M B) : M B :=
  fun h =>
    match m h with
    | (Ok a, h') => f a h'
    | (Raise e, h') => (Raise e, h')
    end.

Definition raise {A : Type} (e : exn) : M A := fun h => (Raise e, h).

(** A new object, at an identity no live object has. *)
Definition alloc (o : pyobj) : M nat :=
  fun h => let l := fresh (dom h) in (Ok l, <[l := o]> h).

(** Reading an object.  Every reference a caller passes is live; the
    [TypeError] branch is there to keep the function total. *)
Definition load (l : nat) : M pyobj :=
  fun h =>
    match h !! l with
    | Some o => (Ok o, h)
    | None => (Raise TypeError, h)
    end.

(** Running [m] leaves every object of the store as it was: the store
    after the run extends the store before it. *)
Definition preserves {A : Type} (m : M A) : Prop :=
  forall h : store, h ⊆ (m h).2.

End Store.

Notation "x <- m ;; k" := (Store.bind m (fun x => k))
  (at level 100, m at next level, right associativity).

(** ** core/rlc_theory.py: the inverse design [design_rlc_for_target_f0] *)

Module design.

Local Open Scope float_scope.
Import Store.

(** One entry of the result list: the dictionary
    [{"L_H", "C_F", "f0_calc_Hz", "error_pct", "Q"}]. *)
Record candidate : Type := Candidate {
  L_H : float;
  C_F : float;
  f0_calc_Hz : float;
  error_pct : float;
  cand_Q : option float
}.

Definition E12 : list R :=
  [1.0; 1.2; 1.5; 1.8; 2.2; 2.7; 3.3; 3.9; 4.7; 5.6; 6.8; 8.2]%R.

(** [vals.extend(E12 * (10.0 ** d))] for each decade [d]. *)
Definition e12_grid (decades : list Z) : list float :=
  flat_map (fun d : Z => map (fun e : R => Fin e * Fin (powerRZ 10 d)) E12) decades.

Definition default_L_candidates : list float := e12_grid [-4; -3; -2]%Z.
Definition default_C_candidates : list float := e12_grid [-10; -9; -8; -7; -6]%Z.

(** [np.asarray(x, dtype=float)]: a float array is returned as it is (the
    same object), a list is converted into a new array. *)
Definition np_asarray (l : nat) : M nat :=
  o <- load l ;;
  match o with
  | NdArray _ => ret l
  | PyList v => alloc (NdArray v)
  end.

(** [x > 0], one entry of the mask [a > 0]. *)
Definition is_positive (x : float) : bool := x >? Fin 0.

(** [a[a > 0]]: boolean-mask indexing builds a new array. *)
Definition positive_entries (l : nat) : M nat :=
  o <- load l ;;
  alloc (NdArray (List.filter is_positive (items_of o))).

(** The body of the inner loop for one pair [(L, C)]: [None] stands for
    [continue].  [L] and [C] are array elements, so the arithmetic is
    NumPy's; NumPy raises no [FloatingPointError] in its default error
    state.  In the branch that computes [Q], [R_fixed > 0], so the
    division [1.0 / R_fixed] has a non-zero divisor. *)
Definition candidate_of (target_f0_hz : float) (R_fixed max_error_pct : option float)
    (L C : float) : option candidate :=
  let f0_calc := Fin 1 / (two_pi * fsqrt (L * C)) in
  if negb (isfinite f0_calc) || (f0_calc <=? Fin 0) then None
  else
    let err := fabs (f0_calc - target_f0_hz) / target_f0_hz * Fin 100 in
    if (match max_error_pct with
        | Some bound => err >? bound
        | None => false
        end)
    then None
    else
      let Q := match R_fixed with
               | Some r => if r >? Fin 0 then Some ((Fin 1 / r) * fsqrt (L / C)) else None
               | None => None
               end in
      Some {| L_H := L; C_F := C; f0_calc_Hz := f0_calc; error_pct := err; cand_Q := Q |}.

(** The two nested loops over the filtered grids. *)
Definition scan (target_f0_hz : float) (R_fixed max_error_pct : option float)
    (Ls Cs : list float) : list candidate :=
  flat_map (fun L =>
    flat_map (fun C =>
      match candidate_of target_f0_hz R_fixed max_error_pct L C with
      | Some d => [d]
      | None => []
      end) Cs) Ls.

Definition sort_key (d : candidate) : float * float :=
  let q := match cand_Q d with
           | Some q => q
           | None => Fin 0
           end in
  (error_pct d, - q).

(** [a < b] on tuples of two floats: the first components that are not
    [==] decide. *)
Definition tuple_lt (a b : float * float) : bool :=
  if negb (fst a =? fst b) then fst a <? fst b
  else if negb (snd a =? snd b) then snd a <? snd b
  else false.

(** [list.sort(key=...)] is a stable sort that compares keys with [<]:
    each element goes behind the elements it is not smaller than. *)
Fixpoint insert_sorted (x : candidate) (l : list candidate) : list candidate :=
  match l with
  | [] => [x]
  | y :: l' =>
      if tuple_lt (sort_key x) (sort_key y) then x :: y :: l'
      else y :: insert_sorted x l'
  end.

Definition list_sort (l : list candidate) : list candidate :=
  fold_left (fun acc x => insert_sorted x acc) l [].

(** [l[:k]]: a negative [k] counts from the end. *)
Definition slice_to {A : Type} (l : list A) (k : Z) : list A :=
  if (0 <=? k)%Z then firstn (Z.to_nat k) l
  else firstn (length l - Z.to_nat (- k)) l.

(** Step 3: an empty list is returned as it is, any other is sorted and
    truncated. *)
Definition rank (results : list candidate) (max_results : Z) : list candidate :=
  match results with
  | [] => []
  | _ => slice_to (list_sort results) max_results
  end.

Definition design_rlc_for_target_f0 (target_f0_hz : float) (R_fixed : option float)
    (L_candidates_h C_candidates_f : option nat) (max_results : Z)
    (max_error_pct : option float) : M (list candidate) :=
  if target_f0_hz <=? Fin 0 then raise (ValueError "target_f0_hz deve ser > 0.")
  else
    L_arr <- match L_candidates_h with
             | None => alloc (NdArray default_L_candidates)
             | Some l => ret l
             end ;;
    C_arr <- match C_candidates_f with
             | None => alloc (NdArray default_C_candidates)
             | Some l => ret l
             end ;;
    L_arr <- np_asarray L_arr ;;
    C_arr <- np_asarray C_arr ;;
    L_arr <- positive_entries L_arr ;;
    C_arr <- positive_entries C_arr ;;
    Ls <- load L_arr ;;
    Cs <- load C_arr ;;
    if (length (items_of Ls) =? 0)%nat || (length (items_of Cs) =? 0)%nat
    then raise (ValueError "Listas de candidatos L/C vazias após filtragem.")
    else
      let results := scan target_f0_hz R_fixed max_error_pct (items_of Ls) (items_of Cs) in
      ret (rank results max_results).

(** *** Vocabulary of the ranking properties *)

(** The values a grid argument stands for in a store: the default grid
    for [None], the items of the object otherwise. *)
Definition grid_items (h : store) (grid : option nat) (default_grid : list float)
  : option (list float) :=
  match grid with
  | None => Some default_grid
  | Some l => items_of <$> h !! l
  end.

(** [Q], or 0 when it is absent. *)
Definition tie_break_Q (d : candidate) : float :=
  match cand_Q d with
  | Some q => q
  | None => Fin 0
  end.

(** [a] ranks before [b], or level with it: a smaller relative error,
    or the same error and a [Q] that is not smaller. *)
Definition rank_le (a b : candidate) : Prop :=
  (error_pct a <? error_pct b) = true
  \/ ((error_pct a =? error_pct b) = true /\ (tie_break_Q b <=? tie_break_Q a) = true).

(** The error and the tie-breaking [Q] of [d] are real numbers. *)
Definition real_keys (d : candidate) : Prop :=
  exists e q : R, error_pct d = Fin e /\ tie_break_Q d = Fin q.

End design.

(** ** Stored parameter records

    A parameter record is the dictionary the persistence layer decodes
    from JSON. *)

Inductive pyval : Type :=
  | VNone
  | VBool (b : bool)
  | VInt (z : Z)
  | VFloat (x : float)
  | VStr (s : string)
  | VList (l : list pyval)
  | VDict (d : gmap string pyval).

Abbreviation pydict := (gmap string pyval).

(** [d.get(k)] and [d.get(k, v)]. *)
Definition dict_get (d : pydict) (k : string) : pyval := default VNone (d !! k).
Definition dict_get_or (d : pydict) (k : string) (v : pyval) : pyval := default v (d !! k).

(** Python's truth value of an object. *)
Definition truthy (v : pyval) : bool :=
  match v with
  | VNone => false
  | VBool b => b
  | VInt z => negb (z =? 0)%Z
  | VFloat x => negb (x =? Fin 0)%fl
  | VStr s => negb (String.eqb s "")
  | VList l => negb (length l =? 0)%nat
  | VDict d => negb (size d =? 0)%nat
  end.

(** [(v or {}).get]: the dictionary whose [get] the code then calls; an
    [AttributeError] when [v] is true and has no such method. *)
Definition dict_or_empty (v : pyval) : result pydict :=
  if truthy v then
    match v with
    | VDict d => Ok d
    | _ => Raise AttributeError
    end
  else Ok ∅.

(** ** core/units.py *)

Module units.

Local Open Scope R_scope.

Definition RESISTOR_UNITS : gmap string R :=
  list_to_map [("Ω", 1.0); ("kΩ", 1e3); ("MΩ", 1e6)]%string.

Definition INDUCTOR_UNITS : gmap string R :=
  list_to_map [("H", 1.0); ("mH", 1e-3); ("µH", 1e-6); ("nH", 1e-9)]%string.

Definition CAPACITOR_UNITS : gmap string R :=
  list_to_map [("F", 1.0); ("mF", 1e-3); ("µF", 1e-6); ("nF", 1e-9); ("pF", 1e-12)]%string.

Definition FREQUENCY_UNITS : gmap string R :=
  list_to_map [("Hz", 1.0); ("kHz", 1e3); ("MHz", 1e6); ("GHz", 1e9)]%string.

(** [get_multiplier(unit)] on a string: the first table that has it. *)
Definition multiplier_of (unit : string) : R :=
  match RESISTOR_UNITS !! unit with
  | Some m => m
  | None =>
      match INDUCTOR_UNITS !! unit with
      | Some m => m
      | None =>
          match CAPACITOR_UNITS !! unit with
          | Some m => m
          | None =>
              match FREQUENCY_UNITS !! unit with
              | Some m => m
              | None => 1.0
              end
          end
      end
  end.

(** [get_multiplier] on whatever the record holds: [unit in table] is
    false for a hashable object that is no string and raises a
    [TypeError] for a list or a dictionary. *)
Definition get_multiplier (unit : pyval) : result float :=
  match unit with
  | VStr s => Ok (Fin (multiplier_of s))
  | VList _ | VDict _ => Raise TypeError
  | _ => Ok (Fin 1.0)
  end.

End units.

(** ** core/analysis_reconstruction.py *)

(** The frame [pd.DataFrame({"Frequency": ..., "Gain": ...})]. *)
Record DataFrame : Type := Frame {
  Frequency : list float;
  Gain : list float
}.

(** The metrics dictionary returned with the frame; a value can be [None]. *)
Record saved_metrics : Type := SavedMetrics {
  s_f0 : option float;
  s_Q : option float;
  s_BW : option float;
  s_f1 : option float;
  s_f2 : option float
}.

(** The dictionary returned by [solve_rlc_from_f0_Q]. *)
Record solution : Type := Solution {
  sol_R : float;
  sol_L : float;
  sol_C : float;
  f0_calc : float;
  Q_calc : float
}.

(** What [np.asarray(v, dtype=float)] gives for a stored value, as far as
    the code can tell the cases apart: a 0-dimensional array for a scalar
    and a 1-dimensional one for a list of scalars. *)
Inductive ndarray : Type :=
  | Arr0 (x : float)
  | Arr1 (v : list float).

Definition arr_size (a : ndarray) : nat :=
  match a with
  | Arr0 _ => 1
  | Arr1 v => length v
  end.

Module analysis_reconstruction.

Local Open Scope float_scope.

(** [str.upper] on the ASCII letters. *)
Definition upper_ascii (c : ascii) : ascii :=
  let n := nat_of_ascii c in
  if (97 <=? n)%nat && (n <=? 122)%nat then ascii_of_nat (n - 32) else c.

Fixpoint upper (s : string) : string :=
  match s with
  | EmptyString => EmptyString
  | String c s' => String (upper_ascii c) (upper s')
  end.

(** [s.replace(",", ".")]. *)
Fixpoint replace_comma (s : string) : string :=
  match s with
  | EmptyString => EmptyString
  | String c s' => String (if Ascii.eqb c "," then "."%char else c) (replace_comma s')
  end.

(** [if v is None or v <= 0: raise ValueError(msg)]. *)
Definition require_positive (v : option float) (msg : string) : result float :=
  match v with
  | None => Raise (ValueError msg)
  | Some x => if x <=? Fin 0 then Raise (ValueError msg) else Ok x
  end.

Definition solve_rlc_from_f0_Q (f0_hz Q : option float) (known_type : string)
    (known_value_SI : option float) : result solution :=
  f0_hz ← require_positive f0_hz "f₀ inválido para projeto inverso.";
  Q ← require_positive Q "Q inválido para projeto inverso.";
  known ← require_positive known_value_SI "Valor do componente fixo deve ser > 0.";
  let omega0 := two_pi * f0_hz in
  let known_type := upper known_type in
  '(R, L, C) ←
    (if String.eqb known_type "R" then
       let R := known in
       p ← py_div (Fin 1) (sq omega0);
       sqrt_p ← math_sqrt p;
       let L := Q * R * sqrt_p in
       C ← py_div sqrt_p (Q * R);
       mret (R, L, C)
     else if String.eqb known_type "L" then
       let L := known in
       C ← py_div (Fin 1) (sq omega0 * L);
       if C <=? Fin 0 then Raise (ValueError "C calculado não físico (<= 0).")
       else
         inv_Q ← py_div (Fin 1) Q;
         ratio ← py_div L C;
         root ← math_sqrt ratio;
         mret (inv_Q * root, L, C)
     else if String.eqb known_type "C" then
       let C := known in
       L ← py_div (Fin 1) (sq omega0 * C);
       if L <=? Fin 0 then Raise (ValueError "L calculado não físico (<= 0).")
       else
         inv_Q ← py_div (Fin 1) Q;
         ratio ← py_div L C;
         root ← math_sqrt ratio;
         mret (inv_Q * root, L, C)
     else Raise (ValueError "Tipo conhecido deve ser 'R', 'L' ou 'C'."));
  if R <=? Fin 0 then Raise (ValueError "R calculado não físico (<= 0).")
  else
    root_lc ← math_sqrt (L * C);
    f0_calc ← py_div (Fin 1) (two_pi * root_lc);
    inv_R ← py_div (Fin 1) R;
    ratio ← py_div L C;
    root ← math_sqrt ratio;
    let Q_calc := inv_R * root in
    mret {| sol_R := R; sol_L := L; sol_C := C; f0_calc := f0_calc; Q_calc := Q_calc |}.

Section WithFloatParser.

(** Python's [float(s)] on a string: [None] stands for its
    [ValueError]. *)
Variable float_of_string : string -> option float.

(** [float(v)]; [None] stands for the exception it raises. *)
Definition py_float (v : pyval) : option float :=
  match v with
  | VFloat x => Some x
  | VInt z => Some (Fin (IZR z))
  | VBool b => Some (Fin (if b then 1 else 0))
  | VStr s => float_of_string s
  | VNone | VList _ | VDict _ => None
  end.

Definition _safe_float (value : pyval) (default : option float) : option float :=
  let value := match value with
               | VStr s => VStr (replace_comma s)
               | _ => value
               end in
  match py_float value with
  | Some x => Some x
  | None => default
  end.

(** An element of a list under [np.asarray(..., dtype=float)]. *)
Definition np_float (v : pyval) : option float :=
  match v with
  | VNone => Some NaN
  | VStr s => float_of_string s
  | _ => py_float v
  end.

Fixpoint np_floats (l : list pyval) : option (list float) :=
  match l with
  | [] => Some []
  | v :: l' =>
      match np_float v, np_floats l' with
      | Some x, Some xs => Some (x :: xs)
      | _, _ => None
      end
  end.

(** [np.asarray(v, dtype=float)].  [None] stands for the inputs on which
    the saved-samples block cannot produce a frame: the conversion
    raises, or the array has two dimensions or more (then
    [pd.DataFrame] raises unless the size test has failed before). *)
Definition np_asarray (v : pyval) : option ndarray :=
  match v with
  | VList l => Arr1 <$> np_floats l
  | VDict _ => None
  | _ => Arr0 <$> np_float v
  end.

(** [pd.DataFrame({"Frequency": freqs, "Gain": gain_norm})] on arrays of
    one size: a 0-dimensional array is a scalar, broadcast along the
    other column; two scalars raise. *)
Definition make_frame (freqs gain_norm : ndarray) : option DataFrame :=
  match freqs, gain_norm with
  | Arr1 f, Arr1 g => Some {| Frequency := f; Gain := g |}
  | Arr0 x, Arr1 g => Some {| Frequency := map (fun _ => x) g; Gain := g |}
  | Arr1 f, Arr0 y => Some {| Frequency := f; Gain := map (fun _ => y) f |}
  | Arr0 _, Arr0 _ => None
  end.

(** The [try] block of the saved-samples path: [Some] is its [return],
    [None] is both leaving the [if] and the caught exception. *)
Definition saved_samples (params : pydict) (curve_points : pyval)
  : option (DataFrame * saved_metrics) :=
  match curve_points with
  | VDict cp =>
      freqs ← np_asarray (dict_get_or cp "freqs_Hz" (VList []));
      gain_norm ← np_asarray (dict_get_or cp "gain_norm" (VList []));
      if (0 <? arr_size freqs)%nat && (arr_size gain_norm =? arr_size freqs)%nat
      then
        df ← make_frame freqs gain_norm;
        match dict_or_empty (dict_get params "metrics") with
        | Ok metrics_saved =>
            Some (df,
                  {| s_f0 := _safe_float (dict_get metrics_saved "f0") None;
                     s_Q := _safe_float (dict_get metrics_saved "Q") None;
                     s_BW := _safe_float (dict_get metrics_saved "BW") None;
                     s_f1 := _safe_float (dict_get metrics_saved "f1") None;
                     s_f2 := _safe_float (dict_get metrics_saved "f2") None |})
        | Raise _ => None
        end
      else None
  | _ => None
  end.

(** [None * x] and the like raise a [TypeError]. *)
Definition the_float (v : option float) : result float :=
  match v with
  | Some x => Ok x
  | None => Raise TypeError
  end.

(** [metrics[key] = _safe_float(val, metrics.get(key))] when the saved
    value is not [None]. *)
Definition override (metrics_saved : pydict) (key : string) (current : float)
  : option float :=
  match dict_get metrics_saved key with
  | VNone => Some current
  | val => _safe_float val (Some current)
  end.

(** The fallback path: re-simulation from the nominal fields. *)
Definition resimulate (params : pydict) (num_points : option Z)
  : result (DataFrame * saved_metrics) :=
  R_val ← the_float (_safe_float (dict_get params "R") (Some (Fin 0.0)));
  R_mul ← units.get_multiplier (dict_get_or params "R_unit" (VStr "Ω"));
  let R_nom := R_val * R_mul in
  L_val ← the_float (_safe_float (dict_get params "L") (Some (Fin 0.0)));
  L_mul ← units.get_multiplier (dict_get_or params "L_unit" (VStr "H"));
  let L_nom := L_val * L_mul in
  C_val ← the_float (_safe_float (dict_get params "C") (Some (Fin 0.0)));
  C_mul ← units.get_multiplier (dict_get_or params "C_unit" (VStr "F"));
  let C_nom := C_val * C_mul in
  tol_R ← the_float (_safe_float (dict_get params "R_tol") (Some (Fin 0.0)));
  let tol_R := tol_R / Fin 100 in
  tol_L ← the_float (_safe_float (dict_get params "L_tol") (Some (Fin 0.0)));
  let tol_L := tol_L / Fin 100 in
  tol_C ← the_float (_safe_float (dict_get params "C_tol") (Some (Fin 0.0)));
  let tol_C := tol_C / Fin 100 in
  let V_in_plot :=
    match _safe_float (dict_get params "V_in") (Some (Fin 1.0)) with
    | None => Fin 1.0
    | Some v => if v <=? Fin 0 then Fin 1.0 else v
    end in
  freq_range ← dict_or_empty (dict_get params "freq_range");
  let f_min_Hz := _safe_float (dict_get freq_range "f_min_Hz") None in
  let f_max_Hz := _safe_float (dict_get freq_range "f_max_Hz") None in
  let f_min_Hz := match f_min_Hz with
                  | Some v => if v <=? Fin 0 then None else Some v
                  | None => None
                  end in
  let f_max_Hz := match f_max_Hz with
                  | Some v => if v <=? Fin 0 then None else Some v
                  | None => None
                  end in
  let '(f_min_Hz, f_max_Hz) :=
    match f_min_Hz, f_max_Hz with
    | Some lo, Some hi => if lo >=? hi then (None, None) else (Some lo, Some hi)
    | _, _ => (f_min_Hz, f_max_Hz)
    end in
  sim ← rlc_theory.simulate_response_with_tolerances
           R_nom L_nom C_nom tol_R tol_L tol_C V_in_plot f_min_Hz f_max_Hz
           (default 500%Z num_points);
  let freqs := rlc_theory.sim_freqs sim in
  let gain := map (fun v => v / V_in_plot) (rlc_theory.nom_curve_Vout sim) in
  max_gain ← (match gain with
              | [] => Ok (Fin 0.0)
              | _ => Np.max gain
              end);
  let gain_norm := if max_gain >? Fin 0 then map (fun g => g / max_gain) gain else gain in
  let df := {| Frequency := freqs; Gain := gain_norm |} in
  metrics_saved ← dict_or_empty (dict_get params "metrics");
  let nom := rlc_theory.metrics_nom sim in
  mret (df,
        {| s_f0 := override metrics_saved "f0" (m_f0 nom);
           s_Q := override metrics_saved "Q" (m_Q nom);
           s_BW := override metrics_saved "BW" (m_BW nom);
           s_f1 := override metrics_saved "f1" (m_f1 nom);
           s_f2 := override metrics_saved "f2" (m_f2 nom) |}).

Definition reconstruct_theoretical_curve (params : pydict) (num_points : option Z)
  : result (DataFrame * saved_metrics) :=
  match saved_samples params (dict_get params "curve_points") with
  | Some r => Ok r
  | None => resimulate params num_points
  end.

End WithFloatParser.

End analysis_reconstruction.

(** ** core/curve_fitting.py *)

(** The dictionary returned by [fit_bandpass_rlc]. *)
Record fit_result : Type := FitResult {
  fit_A : float;
  fit_f0 : float;
  fit_Q : float;
  freq_smooth : list float;
  gain_smooth : list float
}.

Module curve_fitting.

Local Open Scope float_scope.

(** [l[i]] and [l[-1]] on a one-dimensional array. *)
Definition item (l : list float) (i : nat) : result float :=
  match nth_error l i with
  | Some x => Ok x
  | None => Raise IndexError
  end.

Definition last_item (l : list float) : result float :=
  match l with
  | [] => Raise IndexError
  | _ => item l (length l - 1)
  end.

(** NumPy broadcasting of two one-dimensional arrays. *)
Definition broadcast (u v : list float) : result (list (float * float)) :=
  if (length u =? length v)%nat then Ok (combine u v)
  else
    match u, v with
    | [a], _ => Ok (map (fun b => (a, b)) v)
    | _, [b] => Ok (map (fun a => (a, b)) u)
    | _, _ => Raise (ValueError "operands could not be broadcast together")
    end.

(** [np.finfo(float).eps]. *)
Definition eps : float := Fin (/ 2 ^ 52).

Definition _bandpass_model (f : list float) (A f0 Q : float) : list float :=
  map (fun fi : float =>
         let x := fi / f0 in
         let num := x / Q in
         let den := fsqrt (sq (Fin 1 - sq x) + sq (x / Q)) in
         let den := if den =? Fin 0 then eps else den in
         A * num / den) f.

(** [np.argmax] after [nan] has been replaced by [-inf]: the index of
    the first greatest value. *)
Fixpoint argmax_from (l : list float) (i best_i : nat) (best : float) : nat :=
  match l with
  | [] => best_i
  | x :: l' =>
      if x >? best then argmax_from l' (S i) i x
      else argmax_from l' (S i) best_i best
  end.

Definition is_nan (a : float) : bool :=
  match a with
  | NaN => true
  | _ => false
  end.

(** [np.nanargmax]: a [ValueError] on an empty or all-[nan] array. *)
Definition nanargmax (l : list float) : result nat :=
  if forallb is_nan l then Raise (ValueError "All-NaN slice encountered")
  else
    match map (fun x => if is_nan x then NInf else x) l with
    | [] => Raise (ValueError "attempt to get argmax of an empty sequence")
    | x :: l' => Ok (argmax_from l' 1 0 x)
    end.

(** [np.clip(x, lo, hi)]. *)
Definition clip (x lo hi : float) : float := Np.minimum (Np.maximum x lo) hi.

Definition _initial_guess (freqs gains : list float) : result (float * float * float) :=
  idx_peak ← nanargmax gains;
  A0 ← item gains idx_peak;
  f0_0 ← item freqs idx_peak;
  let target := A0 / fsqrt (Fin 2.0) in
  let mask_bw := map (fun g => g >=? target) gains in
  Q0 ← (if (2 <=? Np.count_nonzero mask_bw)%nat then
          f_bw ← Np.index_mask freqs mask_bw;
          f1 ← item f_bw 0;
          f2 ← last_item f_bw;
          let BW := py_max (f2 - f1) (Fin 1e-9) in
          ratio ← py_div f0_0 BW;
          mret (py_max ratio (Fin 0.1))
        else mret (Fin 1.0));
  let Q0 := clip Q0 (Fin 0.1) (Fin 200.0) in
  mret (A0, f0_0, Q0).

(** One entry of the mask
    [isfinite(freqs) & isfinite(gains) & (freqs > 0) & (gains > 0)]. *)
Definition valid_point (p : float * float) : bool :=
  let '(fi, gi) := p in
  isfinite fi && isfinite gi && (fi >? Fin 0) && (gi >? Fin 0).

(** Finite and strictly positive, as a proposition. *)
Definition posfin (a : float) : Prop := exists r : R, a = Fin r /\ (0 < r)%R.

Section WithOptimizer.

(** [scipy.optimize.curve_fit], or [None] when SciPy cannot be imported.
    Its arguments are the model, the data, [p0] and [maxfev]; the
    result [None] stands for any exception it raises. *)
Variable curve_fit :
  option ((list float -> float -> float -> float -> list float) ->
          list float -> list float -> float * float * float -> Z ->
          option (float * float * float)).

Definition fit_bandpass_rlc (freqs gains : list float) (n_points : Z)
  : result (option fit_result) :=
  pairs ← broadcast freqs gains;
  let mask := map valid_point pairs in
  if (Np.count_nonzero mask <? 5)%nat then mret None
  else
    f ← Np.index_mask freqs mask;
    g ← Np.index_mask gains mask;
    '(A0, f0_0, Q0) ← _initial_guess f g;
    let '(A_opt, f0_opt, Q_opt) :=
      match curve_fit with
      | Some fit =>
          match fit _bandpass_model f g (A0, f0_0, Q0) 10000%Z with
          | Some popt => popt
          | None => (A0, f0_0, Q0)
          end
      | None => (A0, f0_0, Q0)
      end in
    f_min ← Np.min f;
    f_max ← Np.max f;
    f_smooth ← Np.logspace (log10 f_min) (log10 f_max) n_points;
    let g_smooth := _bandpass_model f_smooth A_opt f0_opt Q_opt in
    mret (Some {| fit_A := A_opt; fit_f0 := f0_opt; fit_Q := Q_opt;
                  freq_smooth := f_smooth; gain_smooth := g_smooth |}).

End WithOptimizer.

End curve_fitting.

(** ** gui/plot_utils.py *)

(** [np.floor] and [np.ceil]. *)
Definition ffloor (a : float) : float :=
  match a with
  | Fin x => Fin (IZR (Zfloor x))
  | _ => a
  end.

Definition fceil (a : float) : float :=
  match a with
  | Fin x => Fin (IZR (Zceil x))
  | _ => a
  end.

(** [matplotlib.ticker.LogLocator(base=..., subs=...)]; [None] is a
    [subs] that the call does not pass. *)
Inductive ticker : Type :=
  | LogLocator (base : Z) (subs : option (list Z)).

(** A computation on the Matplotlib axis: it changes the axis and
    returns or raises. *)
Definition Ax (axes A : Type) : Type := axes -> result A * axes.

(** The methods of the axis that [setup_frequency_axis] calls.  What a
    method does to the axis, and whether it raises, is Matplotlib's
    business: the methods are parameters of the model.
    [set_major_formatter f] stands for
    [ax.xaxis.set_major_formatter(FuncFormatter(f))]. *)
Class Axes (axes : Type) : Type := {
  set_xscale : string -> Ax axes unit;
  set_xlim : float -> float -> Ax axes unit;
  set_major_locator : ticker -> Ax axes unit;
  set_minor_locator : ticker -> Ax axes unit;
  set_major_formatter : (float -> Z -> string) -> Ax axes unit;
  set_xlabel : string -> Ax axes unit
}.

#[global] Instance Ax_ret {axes : Type} : MRet (Ax axes) := fun A a ax => (Ok a, ax).

#[global] Instance Ax_bind {axes : Type} : MBind (Ax axes) := fun A B f m ax =>
  match m ax with
  | (Ok a, ax') => f a ax'
  | (Raise e, ax') => (Raise e, ax')
  end.

(** A step that does not touch the axis. *)
Definition lift {axes A : Type} (r : result A) : Ax axes A := fun ax => (r, ax).

Module plot_utils.

Local Open Scope float_scope.

Section WithFormat.

(** [format_fixed n x] is Python's [f"{x:.nf}"]. *)
Variable format_fixed : nat -> float -> string.

(** [np.log10] on a binary64 value.  Its result is rounded, and
    [np.floor] and [np.ceil] below see the rounded value: near a power
    of ten the rounding decides the decade.  The function is therefore a
    parameter, and the properties say how far from the exact logarithm
    they take it to be. *)
Variable np_log10 : float -> float.

(** The closure [formatter(val, pos)] of [setup_frequency_axis]; the
    factor is one of four non-zero constants, so that the division does
    not raise. *)
Definition formatter (freq_factor : float) (val : float) (pos : Z) : string :=
  let scaled := val / freq_factor in
  if scaled >=? Fin 10 then format_fixed 0 scaled
  else if scaled >=? Fin 1 then format_fixed 2 scaled
  else if scaled >=? Fin 0.1 then format_fixed 3 scaled
  else format_fixed 4 scaled.

Definition setup_frequency_axis {axes : Type} `{Axes axes} (freqs : list float)
  : Ax axes (float * string) :=
  fmin ← lift (Np.min freqs);
  fmax ← lift (Np.max freqs);
  _ ← set_xscale "log";
  let '(freq_unit, freq_factor) :=
    if fmax >=? Fin 1e9 then ("GHz"%string, Fin 1e9)
    else if fmax >=? Fin 5e6 then ("MHz"%string, Fin 1e6)
    else if fmax >=? Fin 5e3 then ("kHz"%string, Fin 1e3)
    else ("Hz"%string, Fin 1.0) in
  scaled_min ← lift (py_div fmin freq_factor);
  scaled_max ← lift (py_div fmax freq_factor);
  let dec_min := ffloor (np_log10 scaled_min) in
  let dec_max := fceil (np_log10 scaled_max) in
  let nice_min := pow10 dec_min * freq_factor in
  let nice_max := pow10 dec_max * freq_factor in
  _ ← set_xlim nice_min nice_max;
  _ ← set_major_locator (LogLocator 10 None);
  _ ← set_minor_locator (LogLocator 10 (Some [2; 5]%Z));
  _ ← set_major_formatter (formatter freq_factor);
  _ ← set_xlabel ("Frequência (" ++ freq_unit ++ ")")%string;
  mret (freq_factor, freq_unit).

End WithFormat.

End plot_utils.

(** ** Vocabulary of the further properties *)

(** An optional argument that the validation of [solve_rlc_from_f0_Q]
    rejects ([None] or a number [<= 0]), and one that it accepts. *)
Definition rejected (v : option R) : Prop :=
  match v with
  | Some x => (x <= 0)%R
  | None => True
  end.

Definition accepted (v : option R) : Prop :=
  match v with
  | Some x => (0 < x)%R
  | None => False
  end.

(** The closed forms of the metrics on real components [r], [l], [c],
    as the docstring of [calculate_nominal_metrics] gives them. *)
Definition f0_of (l c : R) : R := (1 / sqrt (l * c) / (2 * PI))%R.

Definition Q_of (r l c : R) : R := (1 / r * sqrt (l / c))%R.

Definition f1_of (r l c : R) : R :=
  ((- (r / (2 * l)) + sqrt (r / (2 * l) * (r / (2 * l)) + 1 / (l * c))) / (2 * PI))%R.

Definition f2_of (r l c : R) : R :=
  ((r / (2 * l) + sqrt (r / (2 * l) * (r / (2 * l)) + 1 / (l * c))) / (2 * PI))%R.

Definition metrics_of (r l c : R) : metrics :=
  {| m_f0 := Fin (f0_of l c);
     m_Q := Fin (Q_of r l c);
     m_BW := Fin (f2_of r l c - f1_of r l c);
     m_f1 := Fin (f1_of r l c);
     m_f2 := Fin (f2_of r l c) |}.

(** The eight tolerance corners of real nominal values, in loop order. *)
Definition real_corners (r l c tR tL tC : R) : list (R * R * R) :=
  flat_map (fun fr =>
    flat_map (fun fl =>
      map (fun fc => (r * fr, l * fl, c * fc)%R) [1 - tC; 1 + tC]%R)
      [1 - tL; 1 + tL]%R)
    [1 - tR; 1 + tR]%R.

Definition corner_of_reals (corner : R * R * R) : float * float * float :=
  let '(r, l, c) := corner in (Fin r, Fin l, Fin c).

(** [x] lies within the range [(lo, hi)]. *)
Definition within (range : float * float) (x : float) : Prop :=
  (fst range <=? x)%fl = true /\ (x <=? snd range)%fl = true.

(** The optimizer is of no help: SciPy is absent, or every call of
    [curve_fit] raises. *)
Definition unavailable
    (curve_fit : option ((list float -> float -> float -> float -> list float) ->
                         list float -> list float -> float * float * float -> Z ->
                         option (float * float * float))) : Prop :=
  match curve_fit with
  | None => True
  | Some fit => forall model f g p0 maxfev, fit model f g p0 maxfev = None
  end.

(** ** Sample data *)

Module samples.

(** A stored record with saved samples and metrics, whose nominal fields
    are unusable. *)
Definition example_curve_points : pydict :=
  <["freqs_Hz" := VList (map VFloat [Fin 1000; Fin 2000; Fin 4000])]>
    (<["gain_norm" := VList (map VFloat [Fin 0.5; Fin 1; Fin 0.5])]> ∅).

Definition example_metrics : pydict :=
  <["f0" := VFloat (Fin 2000)]> (<["Q" := VStr "1,5"]> ∅).

Definition example_params : pydict :=
  <["curve_points" := VDict example_curve_points]>
    (<["metrics" := VDict example_metrics]>
       (<["R" := VStr "corrupted"]> (<["L" := VNone]> ∅))).

(** Python's [float] on the texts of the sample records. *)
Definition decimal_parser (s : string) : option float :=
  if String.eqb s "1.5" then Some (Fin 1.5) else None.

(** A caller's store: a Python list of inductances and an array of
    capacitances. *)
Definition example_store : store :=
  <[0%nat := PyList [Fin 1e-3; Fin (-1)]]> (<[1%nat := NdArray [Fin 1e-6]]> ∅).

End samples.

(** Sample records of the old format: no saved samples, the nominal
    fields as the simulator tab writes them (entry texts and unit names),
    and a stored frequency range. *)
Module legacy_samples.

Definition inverted_range : pydict :=
  <["f_min_Hz" := VFloat (Fin 1000)]> (<["f_max_Hz" := VFloat (Fin 500)]> ∅).

Definition legacy_params : pydict :=
  <["R" := VStr "100"]> (<["R_unit" := VStr "Ω"]> (<["R_tol" := VStr "5"]>
  (<["L" := VStr "1"]> (<["L_unit" := VStr "mH"]> (<["L_tol" := VStr "10"]>
  (<["C" := VStr "1"]> (<["C_unit" := VStr "µF"]> (<["C_tol" := VStr "10"]>
  (<["V_in" := VStr "1"]> (<["freq_range" := VDict inverted_range]> ∅)))))))))).

(** The conversions of [float] on the texts of the sample record. *)
Definition parse (s : string) : option float :=
  if String.eqb s "100" then Some (Fin 100)
  else if String.eqb s "1" then Some (Fin 1)
  else if String.eqb s "5" then Some (Fin 5)
  else if String.eqb s "10" then Some (Fin 10)
  else None.

(** The same record with a metrics block: a saved resonance frequency
    and a saved quality factor, the other keys missing. *)
Definition saved_block : pydict :=
  <["f0" := VFloat (Fin 5000)]> (<["Q" := VStr "10"]> ∅).

Definition params_with_metrics : pydict :=
  <["metrics" := VDict saved_block]> legacy_params.

End legacy_samples.

(** A sample axis: it records the names of the calls made on it, the
    latest first, and never raises. *)
Module axis_samples.

Definition record_call (name : string) : Ax (list string) unit :=
  fun calls => (Ok tt, name :: calls).

Definition recording : Axes (list string) :=
  {| set_xscale := fun _ => record_call "set_xscale";
     set_xlim := fun _ _ => record_call "set_xlim";
     set_major_locator := fun _ => record_call "set_major_locator";
     set_minor_locator := fun _ => record_call "set_minor_locator";
     set_major_formatter := fun _ => record_call "set_major_formatter";
     set_xlabel := fun _ => record_call "set_xlabel" |}.

(** A text for [f"{x:.nf}"] that keeps the number of digits only. *)
Definition digits_only (n : nat) (x : float) : string :=
  match n with
  | O => "0"
  | S _ => "0.0"
  end.

(** A logarithm that rounds as binary64 does at one point below a power
    of ten: the logarithm of [999.9999999999999] is taken to be [3]. *)
Definition rounded_log10 (a : float) : float :=
  if (a =? Fin 999.9999999999999)%fl then Fin 3 else log10 a.

End axis_samples.

(** ** Proof automation *)

(** Positivity of an expression built from positive parts. *)
Ltac pos :=
  match goal with
  | |- (0 < ?a * ?b)%R => apply Rmult_lt_0_compat; pos
  | |- (0 < ?a / ?b)%R => apply Rdiv_lt_0_compat; pos
  | |- (0 < / ?a)%R => apply Rinv_0_lt_compat; pos
  | |- (0 < sqrt ?a)%R => apply sqrt_lt_R0; pos
  | |- (0 < PI)%R => apply PI_RGT_0
  | |- (0 < ?a + ?b)%R => apply Rplus_lt_0_compat; pos
  | |- (?a <> 0)%R => apply Rgt_not_eq, Rlt_gt; pos
  | |- (0 <= ?a)%R => apply Rlt_le; pos
  | |- _ => assumption
  | |- _ => lra
  end.

(** [field], with side conditions on positive quantities. *)
Ltac rfield := field; repeat split; pos.

(** Evaluation of a model function on finite values, by rewriting with
    the equations of the float operations (database [feval]). *)
Create Rewrite HintDb feval.
Ltac feval := autorewrite with feval.

(** * Properties *)

Import analysis_reconstruction rlc_theory samples.

(** ** Evaluation of the float operations on finite values *)

Section FloatFacts.

Local Open Scope R_scope.

Lemma Rltb_true (x y : R) : x < y -> Rltb x y = true.
Proof. intros H. unfold Rltb. destruct (Rlt_dec x y); [reflexivity | contradiction]. Qed.

Lemma Rltb_false (x y : R) : y <= x -> Rltb x y = false.
Proof. intros H. unfold Rltb. destruct (Rlt_dec x y); [lra | reflexivity]. Qed.

Lemma Rleb_true (x y : R) : x <= y -> Rleb x y = true.
Proof. intros H. unfold Rleb. destruct (Rle_dec x y); [reflexivity | contradiction]. Qed.

Lemma Rleb_false (x y : R) : y < x -> Rleb x y = false.
Proof. intros H. unfold Rleb. destruct (Rle_dec x y); [lra | reflexivity]. Qed.

Lemma Reqb_true (x y : R) : x = y -> Reqb x y = true.
Proof. intros H. unfold Reqb. destruct (Req_dec_T x y); [reflexivity | contradiction]. Qed.

Lemma Reqb_false (x y : R) : x <> y -> Reqb x y = false.
Proof. intros H. unfold Reqb. destruct (Req_dec_T x y); [contradiction | reflexivity]. Qed.

Lemma fadd_Fin (x y : R) : (Fin x + Fin y)%fl = Fin (x + y).
Proof. reflexivity. Qed.

Lemma fsub_Fin (x y : R) : (Fin x - Fin y)%fl = Fin (x - y).
Proof. reflexivity. Qed.

Lemma fopp_Fin (x : R) : (- Fin x)%fl = Fin (- x).
Proof. reflexivity. Qed.

Lemma fmul_Fin (x y : R) : (Fin x * Fin y)%fl = Fin (x * y).
Proof. reflexivity. Qed.

Lemma sq_Fin (x : R) : sq (Fin x) = Fin (x * x).
Proof. reflexivity. Qed.

Lemma two_pi_Fin : two_pi = Fin (2 * PI).
Proof. reflexivity. Qed.

Lemma fdiv_Fin (x y : R) : y <> 0 -> (Fin x / Fin y)%fl = Fin (x / y).
Proof. intros H. unfold fdiv. destruct (Req_dec_T y 0); [contradiction | reflexivity]. Qed.

Lemma fsqrt_Fin (x : R) : 0 <= x -> fsqrt (Fin x) = Fin (sqrt x).
Proof. intros H. unfold fsqrt. destruct (Rlt_dec x 0); [lra | reflexivity]. Qed.

Lemma fsqrt_neg (x : R) : x < 0 -> fsqrt (Fin x) = NaN.
Proof. intros H. unfold fsqrt. destruct (Rlt_dec x 0); [reflexivity | contradiction]. Qed.

Lemma py_div_Fin (x y : R) : y <> 0 -> py_div (Fin x) (Fin y) = Ok (Fin (x / y)).
Proof. intros H. unfold py_div, feqb. rewrite Reqb_false, fdiv_Fin by assumption. reflexivity. Qed.

Lemma py_div_zero (a : float) : py_div a (Fin 0) = Raise ZeroDivisionError.
Proof. unfold py_div, feqb. rewrite Reqb_true by reflexivity. reflexivity. Qed.

Lemma math_sqrt_Fin (x : R) : 0 <= x -> math_sqrt (Fin x) = Ok (Fin (sqrt x)).
Proof. intros H. unfold math_sqrt. destruct (Rlt_dec x 0); [lra | reflexivity]. Qed.

Lemma fle_Fin_true (x y : R) : x <= y -> (Fin x <=? Fin y)%fl = true.
Proof. apply Rleb_true. Qed.

Lemma fle_Fin_false (x y : R) : y < x -> (Fin x <=? Fin y)%fl = false.
Proof. apply Rleb_false. Qed.

Lemma flt_Fin_true (x y : R) : x < y -> (Fin x <? Fin y)%fl = true.
Proof. apply Rltb_true. Qed.

Lemma flt_Fin_false (x y : R) : y <= x -> (Fin x <? Fin y)%fl = false.
Proof. apply Rltb_false. Qed.

Lemma fgt_Fin_true (x y : R) : y < x -> (Fin x >? Fin y)%fl = true.
Proof. apply Rltb_true. Qed.

Lemma fgt_Fin_false (x y : R) : x <= y -> (Fin x >? Fin y)%fl = false.
Proof. apply Rltb_false. Qed.

Lemma bind_Ok {A B : Type} (a : A) (f : A -> result B) : (Ok a ≫= f) = f a.
Proof. reflexivity. Qed.

Lemma bind_Raise {A B : Type} (e : exn) (f : A -> result B) : (Raise e ≫= f) = Raise e.
Proof. reflexivity. Qed.

Lemma ret_Ok {A : Type} (a : A) : mret a = Ok a.
Proof. reflexivity. Qed.

Lemma require_positive_Fin (x : R) (msg : string) :
  0 < x -> require_positive (Some (Fin x)) msg = Ok (Fin x).
Proof. intros H. unfold require_positive. rewrite fle_Fin_false by assumption. reflexivity. Qed.

End FloatFacts.

#[local] Hint Rewrite @bind_Ok @bind_Raise @ret_Ok fadd_Fin fsub_Fin fopp_Fin fmul_Fin sq_Fin two_pi_Fin : feval.
#[local] Hint Rewrite fdiv_Fin py_div_Fin fsqrt_Fin math_sqrt_Fin fle_Fin_false fgt_Fin_true
  require_positive_Fin using (solve [pos]) : feval.

Local Open Scope R_scope.

(** ** Real-number identities behind the resolver *)

Lemma sqrt_eq (x y : R) : 0 <= y -> y * y = x -> sqrt x = y.
Proof. intros Hy <-. apply sqrt_square, Hy. Qed.

Lemma sqrt_inv_sq (w : R) : 0 < w -> sqrt (1 / (w * w)) = 1 / w.
Proof. intros Hw. apply sqrt_eq; [pos | field; lra]. Qed.

(** ** [solve_rlc_from_f0_Q], branch by branch *)

Lemma solve_known_R (f Q R : R) (kt : string) :
  0 < f -> 0 < Q -> 0 < R -> upper kt = "R"%string ->
  solve_rlc_from_f0_Q (Some (Fin f)) (Some (Fin Q)) kt (Some (Fin R)) =
  Ok {| sol_R := Fin R;
        sol_L := Fin (Q * R * (1 / (2 * PI * f)));
        sol_C := Fin (1 / (2 * PI * f) / (Q * R));
        f0_calc := Fin f;
        Q_calc := Fin Q |}.
Proof.
  intros Hf HQ HR Hkt.
  assert (Hw : 0 < 2 * PI * f) by pos.
  unfold solve_rlc_from_f0_Q. rewrite Hkt. feval.
  change (String.eqb "R" "R") with true. cbv iota. feval.
  rewrite (sqrt_inv_sq _ Hw).
  set (w := 2 * PI * f) in *.
  replace (sqrt (Q * R * (1 / w) * (1 / w / (Q * R)))) with (1 / w)
    by (symmetry; apply sqrt_eq; [pos | field; lra]).
  replace (sqrt (Q * R * (1 / w) / (1 / w / (Q * R)))) with (Q * R)
    by (symmetry; apply sqrt_eq; [pos | field; lra]).
  repeat f_equal; unfold w; rfield.
Qed.

Lemma solve_known_L (f Q L : R) (kt : string) :
  0 < f -> 0 < Q -> 0 < L -> upper kt = "L"%string ->
  solve_rlc_from_f0_Q (Some (Fin f)) (Some (Fin Q)) kt (Some (Fin L)) =
  Ok {| sol_R := Fin (1 / Q * (2 * PI * f * L));
        sol_L := Fin L;
        sol_C := Fin (1 / (2 * PI * f * (2 * PI * f) * L));
        f0_calc := Fin f;
        Q_calc := Fin Q |}.
Proof.
  intros Hf HQ HL Hkt.
  assert (Hw : 0 < 2 * PI * f) by pos.
  unfold solve_rlc_from_f0_Q. rewrite Hkt. feval.
  change (String.eqb "L" "R") with false. change (String.eqb "L" "L") with true.
  cbv iota. feval.
  set (w := 2 * PI * f) in *.
  replace (sqrt (L / (1 / (w * w * L)))) with (w * L)
    by (symmetry; apply sqrt_eq; [pos | rfield]).
  feval.
  replace (sqrt (L * (1 / (w * w * L)))) with (1 / w)
    by (symmetry; apply sqrt_eq; [pos | rfield]).
  repeat f_equal; unfold w; rfield.
Qed.

Lemma solve_known_C (f Q C : R) (kt : string) :
  0 < f -> 0 < Q -> 0 < C -> upper kt = "C"%string ->
  solve_rlc_from_f0_Q (Some (Fin f)) (Some (Fin Q)) kt (Some (Fin C)) =
  Ok {| sol_R := Fin (1 / Q * (1 / (2 * PI * f * C)));
        sol_L := Fin (1 / (2 * PI * f * (2 * PI * f) * C));
        sol_C := Fin C;
        f0_calc := Fin f;
        Q_calc := Fin Q |}.
Proof.
  intros Hf HQ HC Hkt.
  assert (Hw : 0 < 2 * PI * f) by pos.
  unfold solve_rlc_from_f0_Q. rewrite Hkt. feval.
  change (String.eqb "C" "R") with false. change (String.eqb "C" "L") with false.
  change (String.eqb "C" "C") with true.
  cbv iota. feval.
  set (w := 2 * PI * f) in *.
  replace (sqrt (1 / (w * w * C) / C)) with (1 / (w * C))
    by (symmetry; apply sqrt_eq; [pos | rfield]).
  feval.
  replace (sqrt (1 / (w * w * C) * C)) with (1 / w)
    by (symmetry; apply sqrt_eq; [pos | rfield]).
  repeat f_equal; unfold w; rfield.
Qed.

(** ** C10: self-consistency of the inverse resolution *)

(** C10.  For every valid input ([f0 > 0], [Q > 0], [known_value > 0] and a
    known kind that upper-cases to R, L or C), [solve_rlc_from_f0_Q]
    returns, in real arithmetic, a record whose [f0_calc] and [Q_calc] are
    exactly the inputs [f0] and [Q]; its components are positive and
    satisfy [L * C = 1 / omega0^2] and [sqrt (L / C) = Q * R]. *)
Theorem solve_rlc_self_consistent (f Q k : R) (kt : string) :
  0 < f -> 0 < Q -> 0 < k ->
  upper kt = "R"%string \/ upper kt = "L"%string \/ upper kt = "C"%string ->
  exists r l c : R,
    solve_rlc_from_f0_Q (Some (Fin f)) (Some (Fin Q)) kt (Some (Fin k)) =
      Ok {| sol_R := Fin r; sol_L := Fin l; sol_C := Fin c;
            f0_calc := Fin f; Q_calc := Fin Q |}
    /\ 0 < r /\ 0 < l /\ 0 < c
    /\ l * c = 1 / (2 * PI * f * (2 * PI * f))
    /\ sqrt (l / c) = Q * r.
Proof.
  intros Hf HQ Hk Hkt.
  assert (Hw : 0 < 2 * PI * f) by pos.
  destruct Hkt as [Hkt | [Hkt | Hkt]].
  - eexists _, _, _. split; [apply solve_known_R; assumption |].
    repeat split; try pos; [rfield |].
    apply sqrt_eq; [pos | rfield].
  - eexists _, _, _. split; [apply solve_known_L; assumption |].
    repeat split; try pos; [rfield |].
    apply sqrt_eq; [pos | rfield].
  - eexists _, _, _. split; [apply solve_known_C; assumption |].
    repeat split; try pos; [rfield |].
    apply sqrt_eq; [pos | rfield].
Qed.

Lemma solve_rlc_self_consistent_witness :
  exists r l c : R,
    solve_rlc_from_f0_Q (Some (Fin 1000)) (Some (Fin 10)) "l" (Some (Fin 1e-3)) =
      Ok {| sol_R := Fin r; sol_L := Fin l; sol_C := Fin c;
            f0_calc := Fin 1000; Q_calc := Fin 10 |}
    /\ 0 < r /\ 0 < l /\ 0 < c
    /\ l * c = 1 / (2 * PI * 1000 * (2 * PI * 1000))
    /\ sqrt (l / c) = 10 * r.
Proof.
  apply (solve_rlc_self_consistent 1000 10 1e-3 "l"); [lra | lra | lra |].
  right; left; reflexivity.
Defined.

(** ** C1: round trip through the metrics and the resolver *)

Lemma calculate_f1_f2_pos (R L C : R) :
  0 < R -> 0 < L -> 0 < C ->
  calculate_f1_f2 (Fin R) (Fin L) (Fin C) =
  Ok (Fin ((- (R / (2 * L)) + sqrt (R / (2 * L) * (R / (2 * L)) + 1 / (L * C))) / (2 * PI)),
      Fin ((R / (2 * L) + sqrt (R / (2 * L) * (R / (2 * L)) + 1 / (L * C))) / (2 * PI))).
Proof.
  intros HR HL HC. unfold calculate_f1_f2. feval. reflexivity.
Qed.

Lemma calculate_nominal_metrics_pos (R L C : R) :
  0 < R -> 0 < L -> 0 < C ->
  calculate_nominal_metrics (Fin R) (Fin L) (Fin C) =
  Ok {| m_f0 := Fin (1 / sqrt (L * C) / (2 * PI));
        m_Q := Fin (1 / R * sqrt (L / C));
        m_BW := Fin ((R / (2 * L) + sqrt (R / (2 * L) * (R / (2 * L)) + 1 / (L * C))) / (2 * PI)
                     - (- (R / (2 * L)) + sqrt (R / (2 * L) * (R / (2 * L)) + 1 / (L * C)))
                       / (2 * PI));
        m_f1 := Fin ((- (R / (2 * L)) + sqrt (R / (2 * L) * (R / (2 * L)) + 1 / (L * C)))
                     / (2 * PI));
        m_f2 := Fin ((R / (2 * L) + sqrt (R / (2 * L) * (R / (2 * L)) + 1 / (L * C)))
                     / (2 * PI)) |}.
Proof.
  intros HR HL HC. unfold calculate_nominal_metrics.
  rewrite calculate_f1_f2_pos by assumption. feval. reflexivity.
Qed.

(** C1.  For all [R, L, C > 0], the metrics [(f0, Q)] computed by
    [calculate_nominal_metrics] and passed to
    [solve_rlc_from_f0_Q(f0, Q, "R", R)] give back, in real arithmetic,
    exactly the original [L] and [C]. *)
Theorem metrics_resolve_round_trip (R L C : R) :
  0 < R -> 0 < L -> 0 < C ->
  exists (m : metrics) (s : solution),
    calculate_nominal_metrics (Fin R) (Fin L) (Fin C) = Ok m
    /\ solve_rlc_from_f0_Q (Some (m_f0 m)) (Some (m_Q m)) "R" (Some (Fin R)) = Ok s
    /\ sol_L s = Fin L /\ sol_C s = Fin C.
Proof.
  intros HR HL HC.
  eexists _, _. split; [apply calculate_nominal_metrics_pos; assumption |].
  cbn [m_f0 m_Q].
  split; [apply solve_known_R; [pos | pos | pos | reflexivity] |].
  cbn [sol_L sol_C].
  assert (HsL : 0 < sqrt L) by pos.
  assert (HsC : 0 < sqrt C) by pos.
  rewrite sqrt_mult, sqrt_div by lra.
  split; f_equal.
  - rewrite <- (sqrt_sqrt L) at 3 by lra. rfield.
  - rewrite <- (sqrt_sqrt C) at 3 by lra. rfield.
Qed.

Lemma metrics_resolve_round_trip_witness :
  exists (m : metrics) (s : solution),
    calculate_nominal_metrics (Fin 100) (Fin 1e-3) (Fin 1e-6) = Ok m
    /\ solve_rlc_from_f0_Q (Some (m_f0 m)) (Some (m_Q m)) "R" (Some (Fin 100)) = Ok s
    /\ sol_L s = Fin 1e-3 /\ sol_C s = Fin 1e-6.
Proof.
  apply (metrics_resolve_round_trip 100 1e-3 1e-6); lra.
Defined.

(** ** The corner sweep of [simulate_response_with_tolerances] *)

Section SweepFacts.

Local Open Scope float_scope.

Lemma not_le0_cases (x : float) :
  (x <=? Fin 0) = false -> (exists r : R, x = Fin r /\ (0 < r)%R) \/ x = PInf \/ x = NaN.
Proof.
  destruct x as [r | | |]; simpl; intros H.
  - left. exists r. split; [reflexivity |].
    unfold Rleb in H. destruct (Rle_dec r 0); [discriminate | lra].
  - right; left; reflexivity.
  - discriminate.
  - right; right; reflexivity.
Qed.

Lemma Rsign_pos (r : R) : (0 < r)%R -> Rsign r = Pos.
Proof. intros H. unfold Rsign. destruct (Rlt_dec 0 r); [reflexivity | contradiction]. Qed.

Lemma nonzero_of_pos (a : float) : (a <=? Fin 0) = false -> (a =? Fin 0) = false.
Proof.
  intros H. destruct (not_le0_cases a H) as [(r & -> & Hr) | [-> | ->]]; simpl; try reflexivity.
  apply Reqb_false. lra.
Qed.

Lemma fmul_pos (a b : float) :
  (a <=? Fin 0) = false -> (b <=? Fin 0) = false -> (a * b <=? Fin 0) = false.
Proof.
  intros Ha Hb.
  destruct (not_le0_cases a Ha) as [(r & -> & Hr) | [-> | ->]];
    destruct (not_le0_cases b Hb) as [(s & -> & Hs) | [-> | ->]];
    simpl; rewrite ?Rsign_pos by assumption; simpl; try reflexivity.
  apply Rleb_false. pos.
Qed.

Lemma py_div_ok (a b : float) : (b =? Fin 0) = false -> py_div a b = Ok (a / b).
Proof. intros H. unfold py_div. rewrite H. reflexivity. Qed.

Lemma two_pos : (Fin 2 <=? Fin 0) = false.
Proof. apply Rleb_false. lra. Qed.

(** A corner that passes the guard never makes [_compute_metrics] raise. *)
Lemma compute_metrics_total (R L C : float) :
  degenerate (R, L, C) = false -> exists m : metrics, _compute_metrics R L C = Ok m.
Proof.
  unfold degenerate. intros H.
  apply orb_false_elim in H as [H HC]. apply orb_false_elim in H as [HR HL].
  unfold _compute_metrics.
  rewrite (py_div_ok _ R) by (apply nonzero_of_pos, HR).
  rewrite (py_div_ok _ C) by (apply nonzero_of_pos, HC).
  rewrite (py_div_ok _ (Fin 2 * L)) by (apply nonzero_of_pos, fmul_pos; [apply two_pos | apply HL]).
  rewrite (py_div_ok _ (L * C)) by (apply nonzero_of_pos, fmul_pos; assumption).
  eexists. reflexivity.
Qed.

Lemma surviving_cons (c : float * float * float) (cs : list (float * float * float)) :
  surviving (c :: cs) = if degenerate c then surviving cs else c :: surviving cs.
Proof. unfold surviving. simpl. destruct (degenerate c); reflexivity. Qed.

Lemma foldM_cons {A S : Type} (f : S -> A -> result S) (a : A) (l : list A) (s : S) :
  result_foldM f (a :: l) s = f s a ≫= (fun s' => result_foldM f l s').
Proof. reflexivity. Qed.

Lemma mapM_cons {A B : Type} (f : A -> result B) (a : A) (l : list A) :
  result_mapM f (a :: l) = f a ≫= (fun b => result_mapM f l ≫= (fun bs => mret (b :: bs))).
Proof. reflexivity. Qed.

Lemma corner_step_skip (freqs : list float) (V : float) (st : sweep)
    (c : float * float * float) :
  degenerate c = true -> corner_step freqs V st c = Ok st.
Proof. intros H. unfold corner_step. rewrite H. reflexivity. Qed.

Lemma corner_step_run (freqs : list float) (V : float) (st : sweep)
    (R L C : float) (m : metrics) :
  degenerate (R, L, C) = false -> _compute_metrics R L C = Ok m ->
  corner_step freqs V st (R, L, C) =
  Ok {| metrics_lists := metrics_lists st ++ [m];
        min_curve := Np.minimum_arr (min_curve st) (corner_vout freqs V (R, L, C));
        max_curve := Np.maximum_arr (max_curve st) (corner_vout freqs V (R, L, C)) |}.
Proof. intros H Hm. unfold corner_step. rewrite H, Hm. reflexivity. Qed.

Lemma sweep_spec (freqs : list float) (V : float) (cs : list (float * float * float)) :
  forall st : sweep,
  exists ms : list metrics,
    result_mapM (fun '(R, L, C) => _compute_metrics R L C) (surviving cs) = Ok ms
    /\ result_foldM (corner_step freqs V) cs st =
       Ok {| metrics_lists := metrics_lists st ++ ms;
             min_curve := fold_left (fun acc c => Np.minimum_arr acc (corner_vout freqs V c))
                            (surviving cs) (min_curve st);
             max_curve := fold_left (fun acc c => Np.maximum_arr acc (corner_vout freqs V c))
                            (surviving cs) (max_curve st) |}.
Proof.
  induction cs as [| c cs IH]; intros st.
  - exists []. split; [reflexivity |]. simpl. rewrite app_nil_r. destruct st; reflexivity.
  - rewrite surviving_cons, foldM_cons.
    destruct (degenerate c) eqn:Hc.
    + rewrite corner_step_skip, bind_Ok by assumption. apply IH.
    + destruct c as [[R L] C].
      destruct (compute_metrics_total R L C Hc) as [m Hm].
      rewrite (corner_step_run _ _ _ _ _ _ m Hc Hm), bind_Ok.
      destruct (IH {| metrics_lists := metrics_lists st ++ [m];
                      min_curve := Np.minimum_arr (min_curve st) (corner_vout freqs V (R, L, C));
                      max_curve := Np.maximum_arr (max_curve st) (corner_vout freqs V (R, L, C)) |})
        as (ms & Hms & Hfold).
      exists (m :: ms). rewrite mapM_cons, Hm, Hms. split; [reflexivity |].
      rewrite Hfold. cbn [metrics_lists min_curve max_curve fold_left].
      rewrite <- app_assoc. reflexivity.
Qed.

Lemma range_of_ok (nominal : float) (arr : list float) :
  exists p : float * float, range_of nominal arr = Ok p.
Proof. destruct arr; eexists; reflexivity. Qed.

Lemma linspace_ok (a b : float) (n : Z) :
  (0 <= n)%Z -> exists fs : list float, Np.linspace a b n = Ok fs.
Proof.
  intros Hn. unfold Np.linspace.
  destruct (Z.ltb_spec n 0); [lia |]. eexists. reflexivity.
Qed.

Lemma logspace_ok (a b : float) (n : Z) :
  (0 <= n)%Z -> exists fs : list float, Np.logspace a b n = Ok fs.
Proof.
  intros Hn. unfold Np.logspace.
  destruct (linspace_ok a b n Hn) as [fs ->]. eexists. reflexivity.
Qed.

End SweepFacts.

(** ** What [simulate_response_with_tolerances] returns *)

(** Whenever the nominal metrics can be computed and [num_points] is not
    negative, the simulation returns; no corner makes it raise.  Its
    frequencies are the log-spaced samples of the effective range; the
    metrics accumulated by the sweep are those of the corners that pass
    the guard, and no others; the envelope starts from the nominal curve
    and takes the point-wise minimum and maximum with the curves of those
    corners only; each metric range is [range_of] over the accumulated
    values, that is, the nominal pair when no corner passed. *)
Lemma simulate_sweep (R_nom L_nom C_nom tol_R tol_L tol_C V : float)
    (fmin fmax : option float) (n : Z) (nom : metrics) :
  _compute_metrics R_nom L_nom C_nom = Ok nom -> (0 <= n)%Z ->
  exists (ms : list metrics) (sim : simulation),
    let alive := surviving (tolerance_corners R_nom L_nom C_nom tol_R tol_L tol_C) in
    let rng := effective_range (m_f0 nom) fmin fmax in
    result_mapM (fun '(R, L, C) => _compute_metrics R L C) alive = Ok ms
    /\ simulate_response_with_tolerances R_nom L_nom C_nom tol_R tol_L tol_C V fmin fmax n
       = Ok sim
    /\ metrics_nom sim = nom
    /\ Np.logspace (log10 (fst rng)) (log10 (snd rng)) n = Ok (sim_freqs sim)
    /\ nom_curve_Vout sim = corner_vout (sim_freqs sim) V (R_nom, L_nom, C_nom)
    /\ min_curve_Vout sim =
       fold_left (fun acc c => Np.minimum_arr acc (corner_vout (sim_freqs sim) V c))
         alive (nom_curve_Vout sim)
    /\ max_curve_Vout sim =
       fold_left (fun acc c => Np.maximum_arr acc (corner_vout (sim_freqs sim) V c))
         alive (nom_curve_Vout sim)
    /\ range_of (m_f0 nom) (map m_f0 ms) = Ok (r_f0 (sim_ranges sim))
    /\ range_of (m_Q nom) (map m_Q ms) = Ok (r_Q (sim_ranges sim))
    /\ range_of (m_BW nom) (map m_BW ms) = Ok (r_BW (sim_ranges sim))
    /\ range_of (m_f1 nom) (map m_f1 ms) = Ok (r_f1 (sim_ranges sim))
    /\ range_of (m_f2 nom) (map m_f2 ms) = Ok (r_f2 (sim_ranges sim)).
Proof.
  intros Hnom Hn.
  unfold simulate_response_with_tolerances. rewrite Hnom, bind_Ok.
  destruct (effective_range (m_f0 nom) fmin fmax) as [lo hi] eqn:Hrng.
  destruct (logspace_ok (log10 lo) (log10 hi) n Hn) as [freqs Hfreqs].
  rewrite Hfreqs, bind_Ok.
  set (nom_curve := map (fun g : float => (g * V)%fl) (_transfer_gain freqs R_nom L_nom C_nom)).
  destruct (sweep_spec freqs V (tolerance_corners R_nom L_nom C_nom tol_R tol_L tol_C)
              {| metrics_lists := []; min_curve := nom_curve; max_curve := nom_curve |})
    as (ms & Hms & Hfold).
  rewrite Hfold, bind_Ok. cbn [metrics_lists min_curve max_curve app].
  destruct (range_of_ok (m_f0 nom) (map m_f0 ms)) as [p0 H0].
  destruct (range_of_ok (m_Q nom) (map m_Q ms)) as [p1 H1].
  destruct (range_of_ok (m_BW nom) (map m_BW ms)) as [p2 H2].
  destruct (range_of_ok (m_f1 nom) (map m_f1 ms)) as [p3 H3].
  destruct (range_of_ok (m_f2 nom) (map m_f2 ms)) as [p4 H4].
  rewrite H0, H1, H2, H3, H4, !bind_Ok.
  match goal with
  | |- context [match ?l with [] => Ok (Fin 0) | _ :: _ => Np.max ?l end] =>
      assert (Hv : exists v, match l with [] => Ok (Fin 0) | _ :: _ => Np.max l end = Ok v)
        by (destruct l; eexists; reflexivity)
  end.
  destruct Hv as [v Hv]. rewrite Hv, bind_Ok, ret_Ok.
  exists ms. eexists. cbn zeta. split; [exact Hms |]. split; [reflexivity |].
  cbn [metrics_nom sim_freqs nom_curve_Vout min_curve_Vout max_curve_Vout sim_ranges
       r_f0 r_Q r_BW r_f1 r_f2 fst snd].
  repeat split; assumption || reflexivity.
Qed.

(** ** C5: zero tolerances *)

Section ZeroTolerance.

Local Open Scope float_scope.

Lemma minimum_idem (a : float) : Np.minimum a a = a.
Proof. destruct a; simpl; try reflexivity. destruct (Rleb x x); reflexivity. Qed.

Lemma maximum_idem (a : float) : Np.maximum a a = a.
Proof.
  destruct a; simpl; try reflexivity. unfold fge. simpl. destruct (Rleb x x); reflexivity.
Qed.

Lemma minimum_arr_idem (v : list float) : Np.minimum_arr v v = v.
Proof. induction v as [| a v IH]; simpl; [reflexivity |]. rewrite minimum_idem, IH. reflexivity. Qed.

Lemma maximum_arr_idem (v : list float) : Np.maximum_arr v v = v.
Proof. induction v as [| a v IH]; simpl; [reflexivity |]. rewrite maximum_idem, IH. reflexivity. Qed.

Lemma fold_minimum_repeat (a : float) (n : nat) : fold_left Np.minimum (repeat a n) a = a.
Proof. induction n as [| n IH]; simpl; [reflexivity |]. rewrite minimum_idem. exact IH. Qed.

Lemma fold_maximum_repeat (a : float) (n : nat) : fold_left Np.maximum (repeat a n) a = a.
Proof. induction n as [| n IH]; simpl; [reflexivity |]. rewrite maximum_idem. exact IH. Qed.

Lemma np_min_repeat (a : float) (n : nat) : Np.min (repeat a (S n)) = Ok a.
Proof. simpl. rewrite fold_minimum_repeat. reflexivity. Qed.

Lemma np_max_repeat (a : float) (n : nat) : Np.max (repeat a (S n)) = Ok a.
Proof. simpl. rewrite fold_maximum_repeat. reflexivity. Qed.

Lemma range_of_repeat (nominal a : float) (n : nat) :
  range_of nominal (repeat a (S n)) = Ok (a, a).
Proof.
  unfold range_of. change (repeat a (S n)) with (a :: repeat a n) at 1.
  cbv iota. rewrite np_min_repeat, np_max_repeat. reflexivity.
Qed.

Lemma map_repeat {A B : Type} (f : A -> B) (a : A) (n : nat) :
  map f (repeat a n) = repeat (f a) n.
Proof. induction n as [| n IH]; simpl; [reflexivity |]. rewrite IH. reflexivity. Qed.

Lemma mapM_repeat {A B : Type} (f : A -> result B) (a : A) (b : B) (n : nat) :
  f a = Ok b -> result_mapM f (repeat a n) = Ok (repeat b n).
Proof.
  intros H. induction n as [| n IH]; simpl; [reflexivity |]. rewrite H, IH. reflexivity.
Qed.

Lemma fold_minimum_arr_repeat (freqs : list float) (V : float)
    (c : float * float * float) (n : nat) :
  fold_left (fun acc c => Np.minimum_arr acc (corner_vout freqs V c)) (repeat c n)
    (corner_vout freqs V c) = corner_vout freqs V c.
Proof. induction n as [| n IH]; simpl; [reflexivity |]. rewrite minimum_arr_idem. exact IH. Qed.

Lemma fold_maximum_arr_repeat (freqs : list float) (V : float)
    (c : float * float * float) (n : nat) :
  fold_left (fun acc c => Np.maximum_arr acc (corner_vout freqs V c)) (repeat c n)
    (corner_vout freqs V c) = corner_vout freqs V c.
Proof. induction n as [| n IH]; simpl; [reflexivity |]. rewrite maximum_arr_idem. exact IH. Qed.

(** With zero tolerances the eight corners are the nominal point. *)
Lemma tolerance_corners_zero (R L C : R) :
  tolerance_corners (Fin R) (Fin L) (Fin C) (Fin 0) (Fin 0) (Fin 0) =
  repeat (Fin R, Fin L, Fin C) 8.
Proof.
  unfold tolerance_corners. cbn [flat_map map app repeat].
  rewrite fsub_Fin, fadd_Fin, !fmul_Fin.
  replace (R * (1 - 0))%R with R by lra. replace (R * (1 + 0))%R with R by lra.
  replace (L * (1 - 0))%R with L by lra. replace (L * (1 + 0))%R with L by lra.
  replace (C * (1 - 0))%R with C by lra. replace (C * (1 + 0))%R with C by lra.
  reflexivity.
Qed.

Lemma degenerate_pos (R L C : R) :
  (0 < R)%R -> (0 < L)%R -> (0 < C)%R -> degenerate (Fin R, Fin L, Fin C) = false.
Proof.
  intros HR HL HC. unfold degenerate. rewrite !fle_Fin_false by assumption. reflexivity.
Qed.

Lemma surviving_repeat (c : float * float * float) (n : nat) :
  degenerate c = false -> surviving (repeat c n) = repeat c n.
Proof.
  intros H. induction n as [| n IH]; [reflexivity |].
  cbn [repeat]. rewrite surviving_cons, H, IH. reflexivity.
Qed.

(** On positive components the two metric functions agree. *)
Lemma compute_metrics_nominal (R L C : R) :
  (0 < R)%R -> (0 < L)%R -> (0 < C)%R ->
  _compute_metrics (Fin R) (Fin L) (Fin C) = calculate_nominal_metrics (Fin R) (Fin L) (Fin C).
Proof.
  intros HR HL HC. rewrite calculate_nominal_metrics_pos by assumption.
  unfold _compute_metrics. feval. reflexivity.
Qed.

End ZeroTolerance.

(** C5.  For all [R, L, C > 0], with [tol_R = tol_L = tol_C = 0] the corner
    analysis [calculate_min_max_metrics] returns the range
    [(nominal, nominal)] for each of f0, Q, BW, f1 and f2, and
    [simulate_response_with_tolerances] returns those same ranges together
    with minimum and maximum envelope curves that are equal to the nominal
    curve at every frequency. *)
Theorem zero_tolerance_collapse (R L C : R) :
  0 < R -> 0 < L -> 0 < C ->
  exists m : metrics,
    calculate_nominal_metrics (Fin R) (Fin L) (Fin C) = Ok m
    /\ calculate_min_max_metrics (Fin R) (Fin L) (Fin C) (Fin 0) (Fin 0) (Fin 0)
       = Ok (collapsed_ranges m)
    /\ forall (V : float) (fmin fmax : option float) (n : Z), (0 <= n)%Z ->
       exists sim : simulation,
         simulate_response_with_tolerances (Fin R) (Fin L) (Fin C) (Fin 0) (Fin 0) (Fin 0)
           V fmin fmax n = Ok sim
         /\ metrics_nom sim = m
         /\ sim_ranges sim = collapsed_ranges m
         /\ min_curve_Vout sim = nom_curve_Vout sim
         /\ max_curve_Vout sim = nom_curve_Vout sim.
Proof.
  intros HR HL HC.
  pose proof (calculate_nominal_metrics_pos R L C HR HL HC) as Hm.
  pose proof (compute_metrics_nominal R L C HR HL HC) as Hc. rewrite Hm in Hc.
  eexists. split; [exact Hm |].
  set (m := {| m_f0 := _ |}) in *.
  split.
  - unfold calculate_min_max_metrics. rewrite tolerance_corners_zero.
    rewrite (mapM_repeat _ _ m) by exact Hm.
    rewrite bind_Ok, !map_repeat, !np_min_repeat, !np_max_repeat, !bind_Ok. reflexivity.
  - intros V fmin fmax n Hn.
    destruct (simulate_sweep (Fin R) (Fin L) (Fin C) (Fin 0) (Fin 0) (Fin 0) V fmin fmax n m Hc Hn)
      as (ms & sim & Hms & Hsim & Hnom & _ & Hcurve & Hmin & Hmax & H0 & H1 & H2 & H3 & H4).
    cbn zeta in *.
    rewrite tolerance_corners_zero, surviving_repeat in * by (apply degenerate_pos; assumption).
    rewrite (mapM_repeat _ _ m) in Hms by exact Hc.
    assert (Hrep : ms = repeat m 8) by congruence. subst ms.
    rewrite map_repeat, range_of_repeat in H0, H1, H2, H3, H4.
    exists sim. split; [exact Hsim |]. split; [exact Hnom |].
    rewrite Hcurve in Hmin, Hmax.
    rewrite fold_minimum_arr_repeat in Hmin. rewrite fold_maximum_arr_repeat in Hmax.
    split; [| rewrite Hmin, Hmax, Hcurve; split; reflexivity].
    destruct (sim_ranges sim) as [a0 a1 a2 a3 a4].
    cbn [r_f0 r_Q r_BW r_f1 r_f2] in H0, H1, H2, H3, H4.
    injection H0 as <-. injection H1 as <-. injection H2 as <-.
    injection H3 as <-. injection H4 as <-. reflexivity.
Qed.

Lemma zero_tolerance_collapse_witness :
  exists m : metrics,
    calculate_nominal_metrics (Fin 100) (Fin 1e-3) (Fin 1e-6) = Ok m
    /\ calculate_min_max_metrics (Fin 100) (Fin 1e-3) (Fin 1e-6) (Fin 0) (Fin 0) (Fin 0)
       = Ok (collapsed_ranges m)
    /\ forall (V : float) (fmin fmax : option float) (n : Z), (0 <= n)%Z ->
       exists sim : simulation,
         simulate_response_with_tolerances (Fin 100) (Fin 1e-3) (Fin 1e-6)
           (Fin 0) (Fin 0) (Fin 0) V fmin fmax n = Ok sim
         /\ metrics_nom sim = m
         /\ sim_ranges sim = collapsed_ranges m
         /\ min_curve_Vout sim = nom_curve_Vout sim
         /\ max_curve_Vout sim = nom_curve_Vout sim.
Proof.
  apply (zero_tolerance_collapse 100 1e-3 1e-6); lra.
Defined.

(** ** C3: the metrics computation does not validate its inputs *)

Lemma py_div_Fin_zero (x y : R) : y = 0 -> py_div (Fin x) (Fin y) = Raise ZeroDivisionError.
Proof. intros ->. apply py_div_zero. Qed.

Lemma calculate_f1_f2_nonzero (R L C : R) :
  L <> 0 -> C <> 0 -> exists p : float * float, calculate_f1_f2 (Fin R) (Fin L) (Fin C) = Ok p.
Proof.
  intros HL HC. unfold calculate_f1_f2. rewrite !fmul_Fin.
  rewrite (py_div_Fin R (2 * L)) by (intros E; apply HL; lra). rewrite bind_Ok.
  rewrite (py_div_Fin 1 (L * C))
    by (apply Rmult_integral_contrapositive_currified; assumption).
  eexists. reflexivity.
Qed.

Lemma calculate_nominal_metrics_zero (R L C : R) :
  R = 0 \/ L = 0 \/ C = 0 ->
  calculate_nominal_metrics (Fin R) (Fin L) (Fin C) = Raise ZeroDivisionError.
Proof.
  intros H. unfold calculate_nominal_metrics.
  destruct (Req_dec_T R 0) as [HR | HR];
    [rewrite (py_div_Fin_zero 1 R) by exact HR; reflexivity |].
  rewrite (py_div_Fin 1 R), bind_Ok by exact HR.
  destruct (Req_dec_T C 0) as [HC | HC];
    [rewrite (py_div_Fin_zero L C) by exact HC; reflexivity |].
  rewrite (py_div_Fin L C), bind_Ok by exact HC.
  assert (HL : L = 0) by (destruct H as [H | [H | H]]; [contradiction | exact H | contradiction]).
  unfold calculate_f1_f2. rewrite !fmul_Fin.
  rewrite (py_div_Fin_zero R (2 * L)) by (rewrite HL; lra).
  reflexivity.
Qed.

Lemma calculate_nominal_metrics_nonzero (R L C : R) :
  R <> 0 -> L <> 0 -> C <> 0 ->
  exists m : metrics,
    calculate_nominal_metrics (Fin R) (Fin L) (Fin C) = Ok m
    /\ (L * C < 0 -> m_f0 m = NaN /\ m_Q m = NaN).
Proof.
  intros HR HL HC. unfold calculate_nominal_metrics.
  rewrite !py_div_Fin, !bind_Ok by assumption.
  destruct (calculate_f1_f2_nonzero R L C HL HC) as [[f1 f2] Hf]. rewrite Hf, bind_Ok.
  eexists. split; [reflexivity |].
  intros Hneg. cbn [m_f0 m_Q].
  rewrite fmul_Fin, fsqrt_neg by exact Hneg.
  rewrite fsqrt_neg; [split; reflexivity |].
  assert (Hinv : 0 < / (C * C)) by (apply Rinv_0_lt_compat; nra).
  replace (L / C) with (L * C * / (C * C)) by (field; exact HC). nra.
Qed.

(** C3, as the code has it.  [calculate_nominal_metrics] has no validation
    step.  When R, L or C is zero the call fails, with the
    [ZeroDivisionError] of a division inside the formulas; when all three
    are non-zero, whatever their signs, it returns a metrics record, and
    in that record [f0] and [Q] are [nan] when [L * C < 0]. *)
Theorem calculate_nominal_metrics_unvalidated (R L C : R) :
  (R = 0 \/ L = 0 \/ C = 0 ->
   calculate_nominal_metrics (Fin R) (Fin L) (Fin C) = Raise ZeroDivisionError)
  /\ (R <> 0 -> L <> 0 -> C <> 0 ->
      exists m : metrics,
        calculate_nominal_metrics (Fin R) (Fin L) (Fin C) = Ok m
        /\ (L * C < 0 -> m_f0 m = NaN /\ m_Q m = NaN)).
Proof.
  split; [apply calculate_nominal_metrics_zero | apply calculate_nominal_metrics_nonzero].
Qed.

Lemma calculate_nominal_metrics_unvalidated_witness :
  calculate_nominal_metrics (Fin 0) (Fin 1e-3) (Fin 1e-6) = Raise ZeroDivisionError
  /\ exists m : metrics,
       calculate_nominal_metrics (Fin (-100)) (Fin 1e-3) (Fin 1e-6) = Ok m.
Proof.
  split.
  - apply (calculate_nominal_metrics_unvalidated 0 1e-3 1e-6). left. reflexivity.
  - destruct (proj2 (calculate_nominal_metrics_unvalidated (-100) 1e-3 1e-6)) as (m & Hm & _);
      [lra | lra | lra |].
    exists m. exact Hm.
Defined.

(** C3 as stated fails: with a negative inductance the call raises no
    error and returns [nan] for [f0] and [Q]. *)
Lemma calculate_nominal_metrics_negative_L :
  exists m : metrics,
    calculate_nominal_metrics (Fin 100) (Fin (-1e-3)) (Fin 1e-6) = Ok m
    /\ m_f0 m = NaN /\ m_Q m = NaN.
Proof.
  destruct (calculate_nominal_metrics_nonzero 100 (-1e-3) 1e-6) as (m & Hm & Hnan);
    [lra | lra | lra |].
  exists m. split; [exact Hm |]. apply Hnan. lra.
Qed.

(** ** C4: degenerate corners *)

(** C4, at a failing input.  With a resistor tolerance of 100 % the first
    corner has [R = 0].  [calculate_min_max_metrics] has no guard on the
    corner values: it evaluates [1.0 / R] there and the whole call ends
    with a [ZeroDivisionError], where the corner should have been skipped.
    [simulate_response_with_tolerances], which has the guard, returns on
    the same input. *)
Theorem corner_analysis_degenerate_corner :
  calculate_min_max_metrics (Fin 100) (Fin 1e-3) (Fin 1e-6) (Fin 1) (Fin 0) (Fin 0)
  = Raise ZeroDivisionError
  /\ exists sim : simulation,
       simulate_response_with_tolerances (Fin 100) (Fin 1e-3) (Fin 1e-6)
         (Fin 1) (Fin 0) (Fin 0) (Fin 1) None None 500 = Ok sim.
Proof.
  split.
  - unfold calculate_min_max_metrics, tolerance_corners.
    cbn [flat_map map app]. rewrite mapM_cons. cbv beta iota.
    rewrite fsub_Fin, !fmul_Fin.
    rewrite (py_div_Fin_zero 1 (100 * (1 - 1))) by lra. reflexivity.
  - assert (Hnom : exists nom, _compute_metrics (Fin 100) (Fin 1e-3) (Fin 1e-6) = Ok nom).
    { rewrite compute_metrics_nominal by lra.
      rewrite calculate_nominal_metrics_pos by lra. eexists. reflexivity. }
    destruct Hnom as [nom Hnom].
    destruct (simulate_sweep (Fin 100) (Fin 1e-3) (Fin 1e-6) (Fin 1) (Fin 0) (Fin 0) (Fin 1)
                None None 500 nom Hnom) as (ms & sim & _ & Hsim & _); [lia |].
    exists sim. exact Hsim.
Qed.

(** ** C2: the effective frequency range *)

Lemma effective_range_keeps_min (x a b : R) :
  0 < a -> b <= a ->
  effective_range (Fin x) (Some (Fin a)) (Some (Fin b)) = (Fin a, Fin (a * 10)).
Proof.
  intros Ha Hba. unfold effective_range.
  rewrite (fle_Fin_false a 0) by exact Ha.
  rewrite (fle_Fin_true b a) by exact Hba. reflexivity.
Qed.

Lemma effective_range_resets_min (x a b : R) :
  a <= 0 -> b <= a -> 0 < x ->
  effective_range (Fin x) (Some (Fin a)) (Some (Fin b)) = (Fin (x / 10), Fin (x / 10 * 10)).
Proof.
  intros Ha Hba Hx. unfold effective_range.
  rewrite (fle_Fin_true a 0) by exact Ha.
  rewrite (fgt_Fin_true x 0) by exact Hx.
  rewrite fdiv_Fin by lra.
  rewrite (fle_Fin_true b (x / 10)) by lra. reflexivity.
Qed.

Lemma effective_range_default_min (x a b : R) :
  a <= 0 -> b <= a -> x <= 0 ->
  effective_range (Fin x) (Some (Fin a)) (Some (Fin b)) = (Fin 10, Fin (10 * 10)).
Proof.
  intros Ha Hba Hx. unfold effective_range.
  rewrite (fle_Fin_true a 0) by exact Ha.
  rewrite (fgt_Fin_false x 0) by exact Hx.
  rewrite (fle_Fin_true b 10) by lra. reflexivity.
Qed.

(** The effective range for inverted bounds: one decade above a positive
    lower bound [lo]. *)
Lemma effective_range_inverted (x a b : R) :
  b <= a ->
  exists lo : R,
    effective_range (Fin x) (Some (Fin a)) (Some (Fin b)) = (Fin lo, Fin (lo * 10))
    /\ 0 < lo
    /\ (0 < a -> lo = a)
    /\ (a <= 0 -> 0 < x -> lo = x / 10)
    /\ (a <= 0 -> x <= 0 -> lo = 10).
Proof.
  intros Hba. destruct (Rlt_dec 0 a) as [Ha | Ha].
  - exists a. split; [apply effective_range_keeps_min; assumption |].
    repeat split; intros; lra.
  - destruct (Rlt_dec 0 x) as [Hx | Hx].
    + exists (x / 10). split; [apply effective_range_resets_min; lra |].
      repeat split; intros; lra.
    + exists 10. split; [apply effective_range_default_min; lra |].
      repeat split; intros; lra.
Qed.

(** C2, as the code has it.  For every call of
    [simulate_response_with_tolerances] in which both bounds are supplied
    and [freq_min >= freq_max] (the nominal metrics being computable, with
    a finite [f0]), the sweep consists of the [num_points] log-spaced
    samples from [lo] to [10 * lo], where [lo] is [freq_min] when
    [freq_min > 0], and otherwise [f0 / 10], or 10 Hz when [f0] is not
    positive.  The effective range is never inverted or empty; it is one
    decade above its lower bound, not the decade on each side of [f0]. *)
Theorem simulate_inverted_bounds (R_nom L_nom C_nom tol_R tol_L tol_C V : float)
    (a b : R) (n : Z) (nom : metrics) (x : R) :
  _compute_metrics R_nom L_nom C_nom = Ok nom -> m_f0 nom = Fin x ->
  b <= a -> (0 <= n)%Z ->
  exists (sim : simulation) (lo : R),
    simulate_response_with_tolerances R_nom L_nom C_nom tol_R tol_L tol_C V
      (Some (Fin a)) (Some (Fin b)) n = Ok sim
    /\ effective_range (m_f0 (metrics_nom sim)) (Some (Fin a)) (Some (Fin b))
       = (Fin lo, Fin (lo * 10))
    /\ Np.logspace (log10 (Fin lo)) (log10 (Fin (lo * 10))) n = Ok (sim_freqs sim)
    /\ 0 < lo < lo * 10
    /\ (0 < a -> lo = a)
    /\ (a <= 0 -> 0 < x -> lo = x / 10)
    /\ (a <= 0 -> x <= 0 -> lo = 10).
Proof.
  intros Hnom Hf0 Hba Hn.
  destruct (simulate_sweep R_nom L_nom C_nom tol_R tol_L tol_C V
              (Some (Fin a)) (Some (Fin b)) n nom Hnom Hn)
    as (ms & sim & _ & Hsim & Hmn & Hfreqs & _).
  cbv zeta in Hfreqs.
  destruct (effective_range_inverted x a b Hba) as (lo & Hrng & Hlo & H1 & H2 & H3).
  rewrite Hf0, Hrng in Hfreqs. cbn [fst snd] in Hfreqs.
  exists sim, lo. rewrite Hmn, Hf0.
  repeat split; try assumption; lra.
Qed.

Lemma simulate_inverted_bounds_witness :
  exists (sim : simulation) (lo : R),
    simulate_response_with_tolerances (Fin 100) (Fin 1e-3) (Fin 1e-6)
      (Fin 0.05) (Fin 0.1) (Fin 0.1) (Fin 1) (Some (Fin 1000)) (Some (Fin 500)) 500 = Ok sim
    /\ effective_range (m_f0 (metrics_nom sim)) (Some (Fin 1000)) (Some (Fin 500))
       = (Fin lo, Fin (lo * 10))
    /\ Np.logspace (log10 (Fin lo)) (log10 (Fin (lo * 10))) 500 = Ok (sim_freqs sim)
    /\ 0 < lo < lo * 10
    /\ (0 < 1000 -> lo = 1000)
    /\ (1000 <= 0 -> 0 < 1 / sqrt (1e-3 * 1e-6) / (2 * PI) -> lo = 1 / sqrt (1e-3 * 1e-6) / (2 * PI) / 10)
    /\ (1000 <= 0 -> 1 / sqrt (1e-3 * 1e-6) / (2 * PI) <= 0 -> lo = 10).
Proof.
  refine (simulate_inverted_bounds (Fin 100) (Fin 1e-3) (Fin 1e-6) (Fin 0.05) (Fin 0.1) (Fin 0.1)
            (Fin 1) 1000 500 500 _ (1 / sqrt (1e-3 * 1e-6) / (2 * PI)) _ _ _ _).
  - rewrite compute_metrics_nominal by lra. apply calculate_nominal_metrics_pos; lra.
  - reflexivity.
  - lra.
  - lia.
Defined.

(** C2 as stated fails: for the sweep bounds 1000 Hz and 500 Hz the
    effective range is (1000 Hz, 10000 Hz), not the decade around the
    resonance frequency of the circuit. *)
Lemma inverted_bounds_no_fallback :
  exists nom : metrics,
    _compute_metrics (Fin 100) (Fin 1e-3) (Fin 1e-6) = Ok nom
    /\ effective_range (m_f0 nom) (Some (Fin 1000)) (Some (Fin 500))
       = (Fin 1000, Fin (1000 * 10))
    /\ effective_range (m_f0 nom) (Some (Fin 1000)) (Some (Fin 500))
       <> ((m_f0 nom / Fin 10)%fl, (m_f0 nom * Fin 10)%fl).
Proof.
  eexists. split.
  { rewrite compute_metrics_nominal by lra. apply calculate_nominal_metrics_pos; lra. }
  cbn [m_f0].
  assert (Hr : effective_range (Fin (1 / sqrt (1e-3 * 1e-6) / (2 * PI)))
                 (Some (Fin 1000)) (Some (Fin 500)) = (Fin 1000, Fin (1000 * 10))).
  { unfold effective_range.
    rewrite (fle_Fin_false 1000 0) by lra.
    rewrite (fle_Fin_true 500 1000) by lra. reflexivity. }
  split; [exact Hr |].
  rewrite Hr, fdiv_Fin, fmul_Fin by lra.
  intros Heq. injection Heq as E1 E2. lra.
Qed.

(** ** C8: gain at resonance *)

Lemma sqrt_sum_sq_bounds (r d : R) :
  0 < r -> 0 <= d -> r <= sqrt (r * r + d * d) <= r + d.
Proof.
  intros Hr Hd. split.
  - rewrite <- (sqrt_square r) at 1 by lra. apply sqrt_le_1; nra.
  - rewrite <- (sqrt_square (r + d)) by lra. apply sqrt_le_1; nra.
Qed.

(** At the resonance frequency the term [e] added to the denominator of
    the capacitive reactance leaves a gap between the two reactances. *)
Lemma resonance_reactance_gap (L C e : R) :
  0 < L -> 0 < C -> 0 <= e ->
  let w := 2 * PI * (1 / sqrt (L * C) / (2 * PI)) in
  0 < w * C + e
  /\ w * L - 1 / (w * C + e) = e * L / (C + e * sqrt (L * C)).
Proof.
  intros HL HC He w.
  assert (Hs : 0 < sqrt (L * C)) by pos.
  assert (Hss : sqrt (L * C) * sqrt (L * C) = L * C) by (apply sqrt_sqrt; nra).
  set (s := sqrt (L * C)) in *.
  assert (Hw : w = 1 / s) by (unfold w; rfield).
  rewrite Hw.
  assert (Hden : 0 < 1 / s * C + e).
  { apply Rplus_lt_le_0_compat; [pos | exact He]. }
  split; [exact Hden |].
  assert (0 < C + e * s) by nra.
  apply (Rmult_eq_reg_r (s * (C + e * s))); [| apply Rgt_not_eq; nra].
  transitivity (L * (C + e * s) - s * s); [field; split; nra |].
  rewrite Hss. field. nra.
Qed.

Lemma resonance_reactances_equal (L C : R) :
  0 < L -> 0 < C ->
  let f0 := 1 / sqrt (L * C) / (2 * PI) in
  2 * PI * f0 * L = 1 / (2 * PI * f0 * C).
Proof.
  intros HL HC f0.
  assert (Hs : 0 < sqrt (L * C)) by pos.
  assert (Hss : sqrt (L * C) * sqrt (L * C) = L * C) by (apply sqrt_sqrt; nra).
  unfold f0. set (s := sqrt (L * C)) in *.
  replace (2 * PI * (1 / s / (2 * PI)) * L) with (L / s) by rfield.
  replace (1 / (2 * PI * (1 / s / (2 * PI)) * C)) with (s / C) by rfield.
  apply (Rmult_eq_reg_r (s * C)); [| apply Rgt_not_eq; nra].
  transitivity (L * C); [field; lra |]. rewrite <- Hss. field. lra.
Qed.

(** The gain that [get_transfer_function] returns at the resonance
    frequency, in closed form. *)
Lemma resonance_gain_exact (R L C : R) :
  0 < R -> 0 < L -> 0 < C ->
  let f0 := 1 / sqrt (L * C) / (2 * PI) in
  let d := 1e-15 * L / (C + 1e-15 * sqrt (L * C)) in
  get_transfer_function [Fin f0] (Fin R) (Fin L) (Fin C) = [Fin (R / sqrt (R * R + d * d))]
  /\ 0 < d <= 1e-15 * L / C.
Proof.
  intros HR HL HC f0 d.
  destruct (resonance_reactance_gap L C 1e-15 HL HC ltac:(lra)) as [Hden Hgap].
  cbv zeta in Hden, Hgap. fold f0 in Hden, Hgap. fold d in Hgap.
  assert (Hs : 0 < sqrt (L * C)) by pos.
  assert (HCs : 0 < C + 1e-15 * sqrt (L * C)) by nra.
  assert (Hd : 0 < d <= 1e-15 * L / C).
  { unfold d. split; [pos |].
    unfold Rdiv. apply Rmult_le_compat_l; [nra |]. apply Rinv_le_contravar; nra. }
  split; [| exact Hd].
  destruct (sqrt_sum_sq_bounds R d HR ltac:(lra)) as [Hz0 _].
  unfold get_transfer_function. cbn [map].
  rewrite two_pi_Fin, !fmul_Fin, fadd_Fin.
  rewrite (fdiv_Fin 1 (2 * PI * f0 * C + 1e-15)) by lra.
  rewrite fsub_Fin, !sq_Fin, fadd_Fin, Hgap.
  rewrite fsqrt_Fin by nra.
  rewrite fdiv_Fin by lra. reflexivity.
Qed.

(** C8 (amended).  For all [R, L, C > 0], at the resonance frequency
    [f0 = 1 / (2 pi sqrt (L C))] of the metrics the two reactances are
    equal, and [get_transfer_function] evaluated at [f0] returns the gain
    [g = R / sqrt (R^2 + d^2)], where
    [d = 1e-15 * L / (C + 1e-15 * sqrt (L C))] is the reactance gap that
    the epsilon added to the capacitive-reactance denominator leaves.
    Hence [1 - 1e-15 * L / (R * C) <= g < 1]: the gain is below 1, and it
    is close to 1 as far as [1e-15 * L / (R * C)] is small, not for all
    positive values. *)
Theorem resonance_gain_below_unity (R L C : R) :
  0 < R -> 0 < L -> 0 < C ->
  let d := 1e-15 * L / (C + 1e-15 * sqrt (L * C)) in
  exists (m : metrics) f0 g,
    calculate_nominal_metrics (Fin R) (Fin L) (Fin C) = Ok m
    /\ m_f0 m = Fin f0
    /\ 2 * PI * f0 * L = 1 / (2 * PI * f0 * C)
    /\ get_transfer_function [Fin f0] (Fin R) (Fin L) (Fin C) = [Fin g]
    /\ g = R / sqrt (R * R + d * d)
    /\ 1 - 1e-15 * L / (R * C) <= g < 1.
Proof.
  intros HR HL HC d.
  destruct (resonance_gain_exact R L C HR HL HC) as [Hgain [Hd0 Hd1]].
  cbv zeta in Hgain, Hd0, Hd1. fold d in Hgain, Hd0, Hd1.
  eexists. eexists. eexists.
  split; [apply calculate_nominal_metrics_pos; assumption |].
  split; [reflexivity |].
  split; [exact (resonance_reactances_equal L C HL HC) |].
  split; [exact Hgain |]. split; [reflexivity |].
  destruct (sqrt_sum_sq_bounds R d HR ltac:(lra)) as [Hz0 Hz1].
  assert (Hzz : sqrt (R * R + d * d) * sqrt (R * R + d * d) = R * R + d * d)
    by (apply sqrt_sqrt; nra).
  set (z := sqrt (R * R + d * d)) in *.
  assert (Hz : R < z) by nra.
  assert (Hd2 : d / R <= 1e-15 * L / (R * C)).
  { replace (1e-15 * L / (R * C)) with (1e-15 * L / C / R) by (field; split; lra).
    unfold Rdiv at 1 3. apply Rmult_le_compat_r; [left; apply Rinv_0_lt_compat, HR | exact Hd1]. }
  split.
  - (* g >= R / (R + d) >= 1 - d / R *)
    apply Rle_trans with (1 - d / R); [lra |].
    assert (Hg : R / (R + d) <= R / z).
    { unfold Rdiv. apply Rmult_le_compat_l; [lra |]. apply Rinv_le_contravar; lra. }
    apply Rle_trans with (R / (R + d)); [| exact Hg].
    assert (Hrd : 0 < R + d) by lra.
    apply (Rmult_le_reg_r (R * (R + d))); [nra |].
    replace ((1 - d / R) * (R * (R + d))) with ((R - d) * (R + d)) by (field; lra).
    replace (R / (R + d) * (R * (R + d))) with (R * R) by (field; lra).
    nra.
  - apply (Rmult_lt_reg_r z); [lra |].
    replace (R / z * z) with R by (field; lra). lra.
Qed.

Lemma resonance_gain_below_unity_witness :
  let d := 1e-15 * 1e-3 / (1e-6 + 1e-15 * sqrt (1e-3 * 1e-6)) in
  exists (m : metrics) (f0 g : R),
    calculate_nominal_metrics (Fin 100) (Fin 1e-3) (Fin 1e-6) = Ok m
    /\ m_f0 m = Fin f0
    /\ 2 * PI * f0 * 1e-3 = 1 / (2 * PI * f0 * 1e-6)
    /\ get_transfer_function [Fin f0] (Fin 100) (Fin 1e-3) (Fin 1e-6) = [Fin g]
    /\ g = 100 / sqrt (100 * 100 + d * d)
    /\ 1 - 1e-15 * 1e-3 / (100 * 1e-6) <= g < 1.
Proof.
  apply (resonance_gain_below_unity 100 1e-3 1e-6); lra.
Defined.

(** With [R = 1e-3], [L = 1] and [C = 1e-12] the reactance gap is about
    as large as the resistance, and the gain at the resonance frequency
    is about [1 / sqrt 2]: it is not approximately 1. *)
Lemma resonance_gain_far_from_unity :
  exists (m : metrics) (f0 g : R),
    calculate_nominal_metrics (Fin 1e-3) (Fin 1) (Fin 1e-12) = Ok m
    /\ m_f0 m = Fin f0
    /\ get_transfer_function [Fin f0] (Fin 1e-3) (Fin 1) (Fin 1e-12) = [Fin g]
    /\ 0.70 < g < 0.71.
Proof.
  destruct (resonance_gain_exact 1e-3 1 1e-12 ltac:(lra) ltac:(lra) ltac:(lra))
    as [Hgain [Hd0 Hd1]].
  cbv zeta in Hgain, Hd0, Hd1.
  assert (Hs : sqrt (1 * 1e-12) = 1e-6) by (apply sqrt_eq; lra).
  rewrite Hs in Hgain, Hd0, Hd1.
  set (d := 1e-15 * 1 / (1e-12 + 1e-15 * 1e-6)) in *.
  assert (Hdlo : 0.999e-3 <= d).
  { unfold d. apply (Rmult_le_reg_r (1e-12 + 1e-15 * 1e-6)); [lra |].
    replace (1e-15 * 1 / (1e-12 + 1e-15 * 1e-6) * (1e-12 + 1e-15 * 1e-6)) with 1e-15
      by (field; lra).
    lra. }
  assert (Hdhi : d <= 1e-3) by lra.
  eexists. eexists. eexists.
  split; [apply calculate_nominal_metrics_pos; lra |].
  split; [reflexivity |].
  split; [rewrite Hs; exact Hgain |].
  assert (Hzz : sqrt (1e-3 * 1e-3 + d * d) * sqrt (1e-3 * 1e-3 + d * d) = 1e-3 * 1e-3 + d * d)
    by (apply sqrt_sqrt; nra).
  assert (Hz0 : 0 < sqrt (1e-3 * 1e-3 + d * d)) by (apply sqrt_lt_R0; nra).
  set (z := sqrt (1e-3 * 1e-3 + d * d)) in *.
  split.
  - apply (Rmult_lt_reg_r z); [lra |].
    replace (1e-3 / z * z) with 1e-3 by (field; lra). nra.
  - apply (Rmult_lt_reg_r z); [lra |].
    replace (1e-3 / z * z) with 1e-3 by (field; lra). nra.
Qed.

(** ** C9: reconstruction from saved samples *)

Section SavedSamples.

Variable float_of_string : string -> option float.

Lemma np_floats_VFloat (xs : list float) :
  np_floats float_of_string (map VFloat xs) = Some xs.
Proof. induction xs as [| x xs IH]; simpl; [reflexivity |]. rewrite IH. reflexivity. Qed.

Lemma dict_or_empty_block (v : option pyval) (ms : pydict) :
  v = Some (VDict ms) \/ (ms = ∅ /\ (v = None \/ v = Some VNone)) ->
  dict_or_empty (default VNone v) = Ok ms.
Proof.
  intros [-> | [-> [-> | ->]]]; try reflexivity.
  unfold dict_or_empty. simpl. destruct (size ms =? 0)%nat eqn:E; [| reflexivity].
  apply Nat.eqb_eq, map_size_empty_iff in E. subst ms. reflexivity.
Qed.

Lemma dict_get_Some (d : pydict) (k : string) (v : pyval) :
  d !! k = Some v -> dict_get d k = v.
Proof. intros H. unfold dict_get. rewrite H. reflexivity. Qed.

Lemma dict_get_or_Some (d : pydict) (k : string) (v w : pyval) :
  d !! k = Some v -> dict_get_or d k w = v.
Proof. intros H. unfold dict_get_or. rewrite H. reflexivity. Qed.

Lemma _safe_float_missing (ms : pydict) (k : string) :
  ms !! k = None -> _safe_float float_of_string (dict_get ms k) None = None.
Proof. intros H. unfold dict_get. rewrite H. reflexivity. Qed.

(** C9.  When the record holds [curve_points] with frequency and
    normalised-gain arrays of one non-zero length (and its metrics block
    is absent or a dictionary), [reconstruct_theoretical_curve] returns
    exactly the stored arrays, paired with the saved metric values: under
    each of the five keys the saved number itself (a float as it is, an
    integer or a boolean as a float, a text as the number it reads as
    once a decimal comma is a point), and [None] when the key is
    missing or its value is no number.  Every record with the same
    [curve_points] and [metrics] entries gives the same result, whatever
    its other fields hold and whatever [num_points] is. *)
Theorem saved_samples_verbatim (params cp ms : pydict) (fs gs : list float)
    (num_points : option Z) :
  params !! "curve_points" = Some (VDict cp) ->
  cp !! "freqs_Hz" = Some (VList (map VFloat fs)) ->
  cp !! "gain_norm" = Some (VList (map VFloat gs)) ->
  length fs = length gs -> (0 < length fs)%nat ->
  params !! "metrics" = Some (VDict ms)
    \/ (ms = ∅ /\ (params !! "metrics" = None \/ params !! "metrics" = Some VNone)) ->
  let saved (key : string) : option float :=
    match ms !! key with
    | Some (VFloat x) => Some x
    | Some (VInt z) => Some (Fin (IZR z))
    | Some (VBool b) => Some (Fin (if b then 1 else 0))
    | Some (VStr s) => float_of_string (replace_comma s)
    | Some VNone | Some (VList _) | Some (VDict _) | None => None
    end in
  reconstruct_theoretical_curve float_of_string params num_points =
    Ok ({| Frequency := fs; Gain := gs |},
        {| s_f0 := saved "f0"; s_Q := saved "Q"; s_BW := saved "BW";
           s_f1 := saved "f1"; s_f2 := saved "f2" |})
  /\ (forall (params' : pydict) (num_points' : option Z),
        params' !! "curve_points" = params !! "curve_points" ->
        params' !! "metrics" = params !! "metrics" ->
        reconstruct_theoretical_curve float_of_string params' num_points' =
        reconstruct_theoretical_curve float_of_string params num_points).
Proof.
  intros Hcp Hf Hg Hlen Hpos Hms saved.
  assert (Hsaved : forall key, _safe_float float_of_string (dict_get ms key) None = saved key).
  { intros key. unfold saved, dict_get, _safe_float.
    destruct (ms !! key) as [[| b | z | x | s | l | d] |]; try reflexivity.
    change (match float_of_string (replace_comma s) with
            | Some x => Some x
            | None => None
            end = float_of_string (replace_comma s)).
    destruct (float_of_string (replace_comma s)); reflexivity. }
  assert (Hpath : forall (p : pydict) (n : option Z),
            p !! "curve_points" = Some (VDict cp) ->
            p !! "metrics" = params !! "metrics" ->
            reconstruct_theoretical_curve float_of_string p n =
            Ok ({| Frequency := fs; Gain := gs |},
                {| s_f0 := saved "f0"; s_Q := saved "Q"; s_BW := saved "BW";
                   s_f1 := saved "f1"; s_f2 := saved "f2" |})).
  { intros p n Hp Hm.
    unfold reconstruct_theoretical_curve, saved_samples.
    rewrite (dict_get_Some p _ _ Hp).
    rewrite (dict_get_or_Some cp _ _ _ Hf), (dict_get_or_Some cp _ _ _ Hg).
    unfold np_asarray. rewrite !np_floats_VFloat.
    cbn [fmap option_fmap option_map mbind option_bind arr_size].
    rewrite <- Hlen, Nat.eqb_refl.
    destruct (Nat.ltb_spec 0 (length fs)) as [_ | Hc]; [| lia].
    cbn [andb make_frame mbind option_bind].
    unfold dict_get at 1. rewrite Hm, (dict_or_empty_block _ ms Hms).
    rewrite !Hsaved. reflexivity. }
  split; [apply Hpath; [exact Hcp | reflexivity] |].
  intros p n Hp Hm. rewrite (Hpath p n) by congruence.
  symmetry. apply Hpath; [exact Hcp | reflexivity].
Qed.

End SavedSamples.

Lemma saved_samples_verbatim_witness :
  reconstruct_theoretical_curve decimal_parser example_params None =
    Ok ({| Frequency := [Fin 1000; Fin 2000; Fin 4000]; Gain := [Fin 0.5; Fin 1; Fin 0.5] |},
        {| s_f0 := Some (Fin 2000); s_Q := Some (Fin 1.5); s_BW := None;
           s_f1 := None; s_f2 := None |}).
Proof.
  refine (proj1 (saved_samples_verbatim decimal_parser example_params example_curve_points
                   example_metrics [Fin 1000; Fin 2000; Fin 4000] [Fin 0.5; Fin 1; Fin 0.5]
                   None _ _ _ _ _ _)).
  - reflexivity.
  - reflexivity.
  - reflexivity.
  - reflexivity.
  - simpl. lia.
  - left. reflexivity.
Defined.

(** ** C7: curve fitting on too few points *)

Import curve_fitting.

Section FitFacts.

Local Open Scope float_scope.

Lemma valid_point_spec (fi gi : float) :
  valid_point (fi, gi) = true <-> posfin fi /\ posfin gi.
Proof.
  unfold valid_point, posfin. split.
  - intros H. repeat (apply andb_prop in H as [H ?]).
    destruct fi as [x | | |]; try discriminate. destruct gi as [y | | |]; try discriminate.
    unfold fgt, flt, Rltb in *.
    destruct (Rlt_dec 0 x); [| discriminate]. destruct (Rlt_dec 0 y); [| discriminate].
    split; eexists; split; try reflexivity; assumption.
  - intros [(x & -> & Hx) (y & -> & Hy)].
    rewrite !fgt_Fin_true by assumption. reflexivity.
Qed.

Lemma select_length {A : Type} (l : list A) (mask : list bool) :
  length l = length mask -> length (Np.select l mask) = Np.count_nonzero mask.
Proof.
  revert mask. induction l as [| x l IH]; intros [| b mask] Hlen; try discriminate.
  - reflexivity.
  - injection Hlen as Hlen. unfold Np.count_nonzero in *.
    destruct b; simpl; rewrite IH by assumption; reflexivity.
Qed.

Lemma select_Forall {A : Type} (P : A -> Prop) (l : list A) (mask : list bool) :
  Forall P l -> Forall P (Np.select l mask).
Proof.
  intros H. revert mask. induction H as [| x l Hx Hl IH]; intros [| b mask]; simpl;
    try constructor.
  destruct b; [constructor; [exact Hx | apply IH] | apply IH].
Qed.

Lemma index_mask_ok {A : Type} (l : list A) (mask : list bool) :
  length l = length mask -> Np.index_mask l mask = Ok (Np.select l mask).
Proof. intros H. unfold Np.index_mask. rewrite H, Nat.eqb_refl. reflexivity. Qed.

(** The points kept by the mask are finite and positive. *)
Lemma select_valid (freqs gains : list float) :
  length freqs = length gains ->
  Forall posfin (Np.select freqs (map valid_point (combine freqs gains)))
  /\ Forall posfin (Np.select gains (map valid_point (combine freqs gains))).
Proof.
  revert gains. induction freqs as [| fi freqs IH]; intros [| gi gains] Hlen;
    try discriminate; cbn [combine map Np.select].
  - split; constructor.
  - injection Hlen as Hlen. destruct (IH gains Hlen) as [Hf Hg].
    destruct (valid_point (fi, gi)) eqn:Hv; [| split; assumption].
    apply valid_point_spec in Hv as [Hfi Hgi]. split; constructor; assumption.
Qed.

Lemma argmax_from_bound (l : list float) :
  forall (i best_i : nat) (best : float),
    (best_i < i)%nat -> (argmax_from l i best_i best < i + length l)%nat.
Proof.
  induction l as [| x l IH]; intros i best_i best H; simpl; [lia |].
  destruct (x >? best).
  - specialize (IH (S i) i x). lia.
  - specialize (IH (S i) best_i best). lia.
Qed.

Lemma nanargmax_ok (l : list float) :
  Forall posfin l -> l <> [] ->
  exists idx : nat, nanargmax l = Ok idx /\ (idx < length l)%nat.
Proof.
  intros Hl Hne. destruct l as [| x l]; [contradiction |].
  inversion Hl as [| ? ? (r & -> & Hr) Hl']; subst.
  unfold nanargmax. cbn [forallb is_nan andb map].
  eexists. split; [reflexivity |].
  pose proof (argmax_from_bound (map (fun x => if is_nan x then NInf else x) l) 1 0 (Fin r)) as Hb.
  rewrite length_map in Hb. cbn [length]. lia.
Qed.

Lemma item_ok (l : list float) (i : nat) :
  Forall posfin l -> (i < length l)%nat ->
  exists r : R, item l i = Ok (Fin r) /\ (0 < r)%R.
Proof.
  intros Hl Hi. unfold item.
  destruct (nth_error l i) as [x |] eqn:E.
  - apply nth_error_In in E. rewrite List.Forall_forall in Hl.
    destruct (Hl x E) as (r & -> & Hr). exists r. split; [reflexivity | exact Hr].
  - apply nth_error_None in E. lia.
Qed.

Lemma last_item_ok (l : list float) :
  Forall posfin l -> (0 < length l)%nat ->
  exists r : R, last_item l = Ok (Fin r) /\ (0 < r)%R.
Proof.
  intros Hl Hlen. unfold last_item. destruct l as [| x l]; [simpl in Hlen; lia |].
  apply item_ok; [exact Hl | lia].
Qed.

Lemma _initial_guess_ok (f g : list float) :
  Forall posfin f -> Forall posfin g -> length f = length g -> g <> [] ->
  exists p : float * float * float, _initial_guess f g = Ok p.
Proof.
  intros Hf Hg Hlen Hne. unfold _initial_guess.
  destruct (nanargmax_ok g Hg Hne) as (idx & -> & Hidx). rewrite bind_Ok.
  destruct (item_ok g idx Hg Hidx) as (a & -> & Ha). rewrite bind_Ok.
  destruct (item_ok f idx Hf ltac:(lia)) as (f0 & -> & Hf0). rewrite bind_Ok.
  set (mask_bw := map (fun g0 : float => g0 >=? Fin a / fsqrt (Fin 2.0)) g).
  assert (Hmask : length f = length mask_bw) by (unfold mask_bw; rewrite length_map; exact Hlen).
  destruct (2 <=? Np.count_nonzero mask_bw)%nat eqn:Hcount.
  - apply Nat.leb_le in Hcount.
    rewrite (index_mask_ok f mask_bw Hmask), bind_Ok.
    pose proof (select_Forall posfin f mask_bw Hf) as Hbw.
    pose proof (select_length f mask_bw Hmask) as Hbwlen.
    destruct (item_ok _ 0 Hbw ltac:(lia)) as (f1 & -> & Hf1). rewrite bind_Ok.
    destruct (last_item_ok _ Hbw ltac:(lia)) as (f2 & -> & Hf2). rewrite bind_Ok.
    rewrite fsub_Fin. unfold py_max at 2. unfold fgt, flt, Rltb.
    destruct (Rlt_dec (f2 - f1) 1e-9).
    + rewrite py_div_Fin by lra. eexists. reflexivity.
    + rewrite py_div_Fin by lra. eexists. reflexivity.
  - eexists. reflexivity.
Qed.

Lemma np_min_ok (l : list float) : l <> [] -> exists x : float, Np.min l = Ok x.
Proof. destruct l; [contradiction | eexists; reflexivity]. Qed.

Lemma np_max_ok (l : list float) : l <> [] -> exists x : float, Np.max l = Ok x.
Proof. destruct l; [contradiction | eexists; reflexivity]. Qed.

Lemma linspace_negative (a b : float) (n : Z) :
  (n < 0)%Z -> exists e : exn, Np.logspace a b n = Raise e.
Proof.
  intros Hn. unfold Np.logspace, Np.linspace.
  destruct (Z.ltb_spec n 0); [| lia]. eexists. reflexivity.
Qed.

Variable curve_fit :
  option ((list float -> float -> float -> float -> list float) ->
          list float -> list float -> float * float * float -> Z ->
          option (float * float * float)).

(** With five valid points or more the fit goes through: it returns a
    result, or raises when [n_points] is negative; it never returns
    [None]. *)
Lemma fit_enough_points (freqs gains : list float) (n : Z) :
  length freqs = length gains ->
  (5 <= Np.count_nonzero (map valid_point (combine freqs gains)))%nat ->
  ((0 <= n)%Z -> exists r : fit_result, fit_bandpass_rlc curve_fit freqs gains n = Ok (Some r))
  /\ ((n < 0)%Z -> exists e : exn, fit_bandpass_rlc curve_fit freqs gains n = Raise e).
Proof.
  intros Hlen Hcount.
  set (mask := map valid_point (combine freqs gains)) in *.
  assert (Hmlen : length mask = length freqs).
  { unfold mask. rewrite length_map, length_combine. lia. }
  destruct (select_valid freqs gains Hlen) as [Hf Hg]. fold mask in Hf, Hg.
  pose proof (select_length freqs mask ltac:(lia)) as Hflen.
  pose proof (select_length gains mask ltac:(lia)) as Hglen.
  assert (Hfne : Np.select freqs mask <> []) by (intros E; rewrite E in Hflen; simpl in Hflen; lia).
  assert (Hgne : Np.select gains mask <> []) by (intros E; rewrite E in Hglen; simpl in Hglen; lia).
  destruct (_initial_guess_ok _ _ Hf Hg ltac:(lia) Hgne) as [[[A0 f0_0] Q0] Hguess].
  destruct (np_min_ok _ Hfne) as [fmin Hmin]. destruct (np_max_ok _ Hfne) as [fmax Hmax].
  assert (Hfit :
            fit_bandpass_rlc curve_fit freqs gains n =
            Np.logspace (log10 fmin) (log10 fmax) n ≫= (fun f_smooth =>
              let '(A_opt, f0_opt, Q_opt) :=
                match curve_fit with
                | Some fit =>
                    match fit _bandpass_model (Np.select freqs mask) (Np.select gains mask)
                            (A0, f0_0, Q0) 10000%Z with
                    | Some popt => popt
                    | None => (A0, f0_0, Q0)
                    end
                | None => (A0, f0_0, Q0)
                end in
              Ok (Some {| fit_A := A_opt; fit_f0 := f0_opt; fit_Q := Q_opt;
                          freq_smooth := f_smooth;
                          gain_smooth := _bandpass_model f_smooth A_opt f0_opt Q_opt |}))).
  { unfold fit_bandpass_rlc, broadcast.
    rewrite Hlen, Nat.eqb_refl, bind_Ok. fold mask.
    destruct (Nat.ltb_spec (Np.count_nonzero mask) 5) as [Hc | _]; [lia |].
    rewrite !index_mask_ok, !bind_Ok by lia.
    rewrite Hguess, bind_Ok.
    destruct (match curve_fit with Some _ => _ | None => _ end) as [[A_opt f0_opt] Q_opt].
    rewrite Hmin, Hmax, !bind_Ok. reflexivity. }
  rewrite Hfit.
  split; intros Hn.
  - destruct (logspace_ok (log10 fmin) (log10 fmax) n Hn) as [fs ->]. rewrite bind_Ok.
    destruct (match curve_fit with Some _ => _ | None => _ end) as [[A_opt f0_opt] Q_opt].
    eexists. reflexivity.
  - destruct (linspace_negative (log10 fmin) (log10 fmax) n Hn) as [e ->].
    exists e. reflexivity.
Qed.

(** C7.  [fit_bandpass_rlc] keeps the entries whose frequency and gain
    are both finite and strictly positive; it returns [None], without
    raising, exactly when fewer than 5 entries are kept, and a fit result
    otherwise. *)
Theorem fit_insufficient_data (freqs gains : list float) (n_points : Z) :
  length freqs = length gains ->
  let mask := map valid_point (combine freqs gains) in
  (forall fi gi : float, valid_point (fi, gi) = true <-> posfin fi /\ posfin gi)
  /\ (fit_bandpass_rlc curve_fit freqs gains n_points = Ok None
      <-> (Np.count_nonzero mask < 5)%nat)
  /\ ((5 <= Np.count_nonzero mask)%nat -> (0 <= n_points)%Z ->
      exists r : fit_result,
        fit_bandpass_rlc curve_fit freqs gains n_points = Ok (Some r)).
Proof.
  intros Hlen mask. split; [exact valid_point_spec |]. split.
  - split.
    + intros Hnone.
      destruct (Nat.lt_ge_cases (Np.count_nonzero mask) 5) as [Hc | Hc]; [exact Hc |].
      destruct (fit_enough_points freqs gains n_points Hlen Hc) as [Hok Herr].
      destruct (Z.lt_ge_cases n_points 0) as [Hn | Hn].
      * destruct (Herr Hn) as [e He]. rewrite He in Hnone. discriminate.
      * destruct (Hok Hn) as [r Hr]. rewrite Hr in Hnone. discriminate.
    + intros Hc. unfold fit_bandpass_rlc, broadcast.
      rewrite Hlen, Nat.eqb_refl, bind_Ok. fold mask.
      destruct (Nat.ltb_spec (Np.count_nonzero mask) 5) as [_ | Hge]; [reflexivity | lia].
  - intros Hc Hn. apply (fit_enough_points freqs gains n_points Hlen Hc), Hn.
Qed.

End FitFacts.

Lemma fit_insufficient_data_witness :
  fit_bandpass_rlc None [Fin 1; NaN; Fin 3] [Fin 2; Fin 1; Fin (-1)] 600 = Ok None
  <-> (Np.count_nonzero
         (map valid_point
            (combine [Fin 1; NaN; Fin 3] [Fin 2; Fin 1; Fin (-1)])) < 5)%nat.
Proof.
  exact (proj1 (proj2 (fit_insufficient_data None [Fin 1; NaN; Fin 3]
                         [Fin 2; Fin 1; Fin (-1)] 600 eq_refl))).
Defined.

(** ** C6: inverse design *)

Import design Store.

Section StoreFacts.

Lemma preserves_ret {A : Type} (a : A) : preserves (ret a).
Proof. intros h. reflexivity. Qed.

Lemma preserves_raise {A : Type} (e : exn) : preserves (raise (A := A) e).
Proof. intros h. reflexivity. Qed.

Lemma preserves_load (l : nat) : preserves (load l).
Proof. intros h. unfold load. destruct (h !! l); reflexivity. Qed.

Lemma alloc_fresh (h : store) : h !! fresh (dom h) = None.
Proof. apply not_elem_of_dom, is_fresh. Qed.

Lemma preserves_alloc (o : pyobj) : preserves (alloc o).
Proof. intros h. unfold alloc. cbn [snd]. apply insert_subseteq, alloc_fresh. Qed.

Lemma preserves_bind {A B : Type} (m : M A) (f : A -> M B) :
  preserves m -> (forall a : A, preserves (f a)) -> preserves (bind m f).
Proof.
  intros Hm Hf h. unfold bind. specialize (Hm h).
  destruct (m h) as [[a | e] h']; cbn [snd] in *.
  - etransitivity; [exact Hm | apply Hf].
  - exact Hm.
Qed.

Lemma preserves_np_asarray (l : nat) : preserves (np_asarray l).
Proof.
  apply preserves_bind; [apply preserves_load |].
  intros [v | v]; [apply preserves_alloc | apply preserves_ret].
Qed.

Lemma preserves_positive_entries (l : nat) : preserves (positive_entries l).
Proof.
  apply preserves_bind; [apply preserves_load |]. intros o. apply preserves_alloc.
Qed.

(** The design search writes to no object of the caller's store. *)
Lemma design_preserves (target : float) (R_fixed : option float)
    (L_grid C_grid : option nat) (max_results : Z) (max_error : option float) :
  preserves (design_rlc_for_target_f0 target R_fixed L_grid C_grid max_results max_error).
Proof.
  unfold design_rlc_for_target_f0.
  destruct (target <=? Fin 0)%fl; [apply preserves_raise |].
  apply preserves_bind; [destruct L_grid; [apply preserves_ret | apply preserves_alloc] |].
  intros l0.
  apply preserves_bind; [destruct C_grid; [apply preserves_ret | apply preserves_alloc] |].
  intros c0.
  apply preserves_bind; [apply preserves_np_asarray |]. intros l1.
  apply preserves_bind; [apply preserves_np_asarray |]. intros c1.
  apply preserves_bind; [apply preserves_positive_entries |]. intros l2.
  apply preserves_bind; [apply preserves_positive_entries |]. intros c2.
  apply preserves_bind; [apply preserves_load |]. intros Ls.
  apply preserves_bind; [apply preserves_load |]. intros Cs.
  destruct (_ || _); [apply preserves_raise | apply preserves_ret].
Qed.

End StoreFacts.

Section DesignRun.

Lemma bind_run {A B : Type} (m : M A) (f : A -> M B) (h h' : store) (a : A) :
  m h = (Ok a, h') -> bind m f h = f a h'.
Proof. intros H. unfold bind. rewrite H. reflexivity. Qed.

Lemma items_weaken (h h' : store) (l : nat) (v : list float) :
  items_of <$> h !! l = Some v -> h ⊆ h' -> items_of <$> h' !! l = Some v.
Proof.
  intros H Hsub. destruct (h !! l) as [o |] eqn:E; [| discriminate].
  rewrite (lookup_weaken h h' l o E Hsub). exact H.
Qed.

Lemma alloc_run (h : store) (o : pyobj) :
  exists (l : nat) (h' : store),
    alloc o h = (Ok l, h') /\ h' !! l = Some o /\ h ⊆ h'.
Proof.
  exists (fresh (dom h)), (<[fresh (dom h) := o]> h).
  split; [reflexivity |]. split; [apply lookup_insert_eq |].
  apply insert_subseteq, alloc_fresh.
Qed.

Lemma grid_run (h : store) (grid : option nat) (default_grid v : list float) :
  grid_items h grid default_grid = Some v ->
  exists (l : nat) (h' : store),
    match grid with
    | None => alloc (NdArray default_grid)
    | Some l => ret l
    end h = (Ok l, h')
    /\ items_of <$> h' !! l = Some v /\ h ⊆ h'.
Proof.
  intros H. destruct grid as [l |]; cbn [grid_items] in H.
  - exists l, h. split; [reflexivity |]. split; [exact H | reflexivity].
  - injection H as <-.
    destruct (alloc_run h (NdArray default_grid)) as (l & h' & E & Hl & Hsub).
    exists l, h'. split; [exact E |]. rewrite Hl. split; [reflexivity | exact Hsub].
Qed.

Lemma np_asarray_run (h : store) (l : nat) (v : list float) :
  items_of <$> h !! l = Some v ->
  exists (l' : nat) (h' : store),
    np_asarray l h = (Ok l', h') /\ items_of <$> h' !! l' = Some v /\ h ⊆ h'.
Proof.
  intros H. unfold np_asarray, bind, load.
  destruct (h !! l) as [[w | w] |] eqn:E; [| | discriminate]; injection H as <-.
  - destruct (alloc_run h (NdArray w)) as (l' & h' & Ea & Hl & Hsub).
    exists l', h'. split; [exact Ea |]. rewrite Hl. split; [reflexivity | exact Hsub].
  - exists l, h. split; [reflexivity |]. rewrite E. split; reflexivity.
Qed.

Lemma positive_entries_run (h : store) (l : nat) (v : list float) :
  items_of <$> h !! l = Some v ->
  exists (l' : nat) (h' : store),
    positive_entries l h = (Ok l', h')
    /\ h' !! l' = Some (NdArray (List.filter is_positive v)) /\ h ⊆ h'.
Proof.
  intros H. unfold positive_entries, bind, load.
  destruct (h !! l) as [o |] eqn:E; [| discriminate]. injection H as <-.
  apply alloc_run.
Qed.

Lemma load_run (h : store) (l : nat) (o : pyobj) :
  h !! l = Some o -> load l h = (Ok o, h).
Proof. intros H. unfold load. rewrite H. reflexivity. Qed.

(** When the target is positive and both grids keep a positive entry, the
    search returns the ranked scan of the filtered grids. *)
Lemma design_returns (target : float) (R_fixed : option float)
    (L_grid C_grid : option nat) (max_results : Z) (max_error : option float)
    (h : store) (Ls Cs : list float) :
  (target <=? Fin 0)%fl = false ->
  grid_items h L_grid default_L_candidates = Some Ls ->
  grid_items h C_grid default_C_candidates = Some Cs ->
  List.filter is_positive Ls <> [] -> List.filter is_positive Cs <> [] ->
  exists h' : store,
    design_rlc_for_target_f0 target R_fixed L_grid C_grid max_results max_error h =
    (Ok (rank (scan target R_fixed max_error (List.filter is_positive Ls)
                 (List.filter is_positive Cs)) max_results), h').
Proof.
  intros Ht HL HC HLne HCne. unfold design_rlc_for_target_f0. rewrite Ht.
  destruct (grid_run h L_grid _ Ls HL) as (l0 & h1 & E1 & I1 & S1).
  rewrite (bind_run _ _ _ _ _ E1).
  assert (HC1 : grid_items h1 C_grid default_C_candidates = Some Cs).
  { destruct C_grid as [c |]; [| exact HC]. apply (items_weaken h h1 c Cs HC S1). }
  destruct (grid_run h1 C_grid _ Cs HC1) as (c0 & h2 & E2 & I2 & S2).
  rewrite (bind_run _ _ _ _ _ E2).
  pose proof (items_weaken _ _ _ _ I1 S2) as I1'.
  destruct (np_asarray_run h2 l0 Ls I1') as (l1 & h3 & E3 & I3 & S3).
  rewrite (bind_run _ _ _ _ _ E3).
  pose proof (items_weaken _ _ _ _ I2 S3) as I2'.
  destruct (np_asarray_run h3 c0 Cs I2') as (c1 & h4 & E4 & I4 & S4).
  rewrite (bind_run _ _ _ _ _ E4).
  pose proof (items_weaken _ _ _ _ I3 S4) as I3'.
  destruct (positive_entries_run h4 l1 Ls I3') as (l2 & h5 & E5 & I5 & S5).
  rewrite (bind_run _ _ _ _ _ E5).
  pose proof (items_weaken _ _ _ _ I4 S5) as I4'.
  destruct (positive_entries_run h5 c1 Cs I4') as (c2 & h6 & E6 & I6 & S6).
  rewrite (bind_run _ _ _ _ _ E6).
  pose proof (lookup_weaken _ _ _ _ I5 S6) as I5'.
  rewrite (bind_run _ _ _ _ _ (load_run h6 l2 _ I5')).
  rewrite (bind_run _ _ _ _ _ (load_run h6 c2 _ I6)).
  cbn [items_of].
  destruct (List.filter is_positive Ls) as [| x xs]; [contradiction |].
  destruct (List.filter is_positive Cs) as [| y ys]; [contradiction |].
  cbn [length Nat.eqb orb]. exists h6. reflexivity.
Qed.

End DesignRun.

Section RankingFacts.

Local Open Scope float_scope.

Lemma inf_of_not_Fin (s : sign) (x : R) : inf_of s <> Fin x.
Proof. destruct s; discriminate. Qed.

Lemma fmul_Fin_inv (a b : float) (p : R) :
  a * b = Fin p -> exists x y : R, a = Fin x /\ b = Fin y /\ p = (x * y)%R.
Proof.
  destruct a as [x | | |], b as [y | | |]; cbn [fmul fsign]; intros H;
    try discriminate; try (exfalso; eapply inf_of_not_Fin; exact H).
  injection H as <-. exists x, y. repeat split.
Qed.

Lemma fsqrt_Fin_inv (a : float) (s : R) :
  fsqrt a = Fin s -> (0 < s)%R -> exists p : R, a = Fin p /\ (0 < p)%R /\ s = sqrt p.
Proof.
  destruct a as [p | | |]; cbn [fsqrt]; intros H Hs; try discriminate.
  destruct (Rlt_dec p 0) as [Hp | Hp]; [discriminate |]. injection H as <-.
  exists p. split; [reflexivity |]. split; [| reflexivity].
  destruct (Req_dec_T p 0) as [-> | Hne]; [rewrite sqrt_0 in Hs; lra | lra].
Qed.

Lemma finv_Fin_inv (a : float) (x : R) :
  Fin 1 / a = Fin x -> (0 < x)%R -> exists y : R, a = Fin y /\ (0 < y)%R.
Proof.
  destruct a as [y | | |]; cbn [fdiv]; intros H Hx; try discriminate;
    try (injection H as <-; lra).
  destruct (Req_dec_T y 0) as [-> | Hne];
    [exfalso; eapply inf_of_not_Fin; exact H |].
  injection H as <-. exists y. split; [reflexivity |].
  destruct (Rlt_dec 0 y) as [Hy | Hy]; [exact Hy |].
  assert (Hneg : (y < 0)%R) by lra.
  apply Rinv_lt_0_compat in Hneg. unfold Rdiv in Hx. lra.
Qed.

(** A pair [(L, C)] with a finite positive resonance frequency consists
    of two real numbers of one sign. *)
Lemma resonance_finite (L C : float) (x : R) :
  Fin 1 / (two_pi * fsqrt (L * C)) = Fin x -> (0 < x)%R ->
  exists l c : R, L = Fin l /\ C = Fin c /\ (0 < l * c)%R.
Proof.
  intros H Hx.
  destruct (finv_Fin_inv _ _ H Hx) as (y & Hy & Hypos).
  rewrite two_pi_Fin in Hy.
  destruct (fmul_Fin_inv _ _ _ Hy) as (tp & s & Htp & Hs & ->).
  injection Htp as <-.
  assert (Hspos : (0 < s)%R).
  { assert (0 < 2 * PI)%R by pos. nra. }
  destruct (fsqrt_Fin_inv _ _ Hs Hspos) as (p & Hp & Hppos & _).
  destruct (fmul_Fin_inv _ _ _ Hp) as (l & c & -> & -> & ->).
  exists l, c. repeat split. exact Hppos.
Qed.

Lemma isfinite_Fin (a : float) : isfinite a = true -> exists x : R, a = Fin x.
Proof. destruct a; try discriminate. eexists. reflexivity. Qed.

Lemma fgt0_cases (r : float) :
  (r >? Fin 0) = true -> (exists x : R, r = Fin x /\ (0 < x)%R) \/ r = PInf.
Proof.
  destruct r as [x | | |]; cbn; intros H; try discriminate.
  - left. exists x. split; [reflexivity |]. unfold Rltb in H.
    destruct (Rlt_dec 0 x); [assumption | discriminate].
  - right. reflexivity.
Qed.

Lemma candidate_real_keys (t : R) (R_fixed max_error : option float) (L C : float)
    (d : candidate) :
  (0 < t)%R -> candidate_of (Fin t) R_fixed max_error L C = Some d -> real_keys d.
Proof.
  intros Ht. unfold candidate_of.
  destruct (negb (isfinite _) || _) eqn:Hguard; [discriminate |].
  apply orb_false_elim in Hguard as [Hfin Hle].
  apply negb_false_iff, isfinite_Fin in Hfin as [x Hx].
  rewrite Hx in *.
  assert (Hxpos : (0 < x)%R).
  { cbn in Hle. unfold Rleb in Hle. destruct (Rle_dec x 0); [discriminate | lra]. }
  destruct (resonance_finite L C x Hx Hxpos) as (l & c & -> & -> & Hlc).
  rewrite fsub_Fin. cbn [fabs]. rewrite fdiv_Fin, fmul_Fin by lra.
  destruct (match max_error with Some _ => _ | None => false end); [discriminate |].
  assert (HQ : exists q : R,
            match
              match R_fixed with
              | Some r => if r >? Fin 0 then Some (Fin 1 / r * fsqrt (Fin l / Fin c)) else None
              | None => None
              end
            with
            | Some q => q
            | None => Fin 0
            end = Fin q).
  { destruct R_fixed as [r |]; [| exists 0%R; reflexivity].
    destruct (r >? Fin 0) eqn:Hr; [| exists 0%R; reflexivity].
    assert (Hc : c <> 0%R) by (intros ->; lra).
    assert (Hq : (0 < l / c)%R).
    { assert (Hinv : (0 < / (c * c))%R) by (apply Rinv_0_lt_compat; nra).
      replace (l / c)%R with (l * c * / (c * c))%R by (field; exact Hc). nra. }
    rewrite (fdiv_Fin l c) by exact Hc. rewrite fsqrt_Fin by lra.
    destruct (fgt0_cases r Hr) as [(rr & -> & Hrr) | ->].
    - rewrite fdiv_Fin, fmul_Fin by lra. eexists. reflexivity.
    - cbn [fdiv]. rewrite fmul_Fin. eexists. reflexivity. }
  destruct HQ as [q HQ].
  intros Hd. apply (f_equal (fun o => match o with Some d' => d' | None => d end)) in Hd.
  subst d. unfold real_keys. eexists. exists q. split; [reflexivity | exact HQ].
Qed.

Lemma scan_real_keys (t : R) (R_fixed max_error : option float) (Ls Cs : list float) :
  (0 < t)%R -> Forall real_keys (scan (Fin t) R_fixed max_error Ls Cs).
Proof.
  intros Ht. unfold scan. apply List.Forall_forall. intros d Hd.
  apply in_flat_map in Hd as (L & _ & Hd). apply in_flat_map in Hd as (C & _ & Hd).
  destruct (candidate_of (Fin t) R_fixed max_error L C) as [d' |] eqn:E; [| destruct Hd].
  destruct Hd as [<- | []]. exact (candidate_real_keys t _ _ _ _ _ Ht E).
Qed.

Lemma sort_key_real (d : candidate) (e q : R) :
  error_pct d = Fin e -> tie_break_Q d = Fin q -> sort_key d = (Fin e, Fin (- q)).
Proof.
  intros He Hq. change (sort_key d) with (error_pct d, - tie_break_Q d).
  rewrite He, Hq. reflexivity.
Qed.

Lemma tuple_lt_rank (a b : candidate) :
  real_keys a -> real_keys b ->
  tuple_lt (sort_key a) (sort_key b) = true -> rank_le a b.
Proof.
  intros (ea & qa & Hea & Hqa) (eb & qb & Heb & Hqb).
  rewrite (sort_key_real a ea qa Hea Hqa), (sort_key_real b eb qb Heb Hqb).
  unfold tuple_lt, rank_le. cbn [fst snd feqb flt]. rewrite Hea, Heb, Hqa, Hqb.
  cbn [feqb flt fle]. unfold Reqb, Rltb, Rleb.
  destruct (Req_dec_T ea eb); cbn [negb].
  - destruct (Req_dec_T (- qa) (- qb)); cbn [negb]; [discriminate |].
    destruct (Rlt_dec (- qa) (- qb)); [| discriminate]. intros _. right.
    split; [reflexivity |]. destruct (Rle_dec qb qa); [reflexivity | lra].
  - destruct (Rlt_dec ea eb); [| discriminate]. intros _. left. reflexivity.
Qed.

Lemma tuple_nlt_rank (a b : candidate) :
  real_keys a -> real_keys b ->
  tuple_lt (sort_key a) (sort_key b) = false -> rank_le b a.
Proof.
  intros (ea & qa & Hea & Hqa) (eb & qb & Heb & Hqb).
  rewrite (sort_key_real a ea qa Hea Hqa), (sort_key_real b eb qb Heb Hqb).
  unfold tuple_lt, rank_le. cbn [fst snd feqb flt]. rewrite Hea, Heb, Hqa, Hqb.
  cbn [feqb flt fle]. unfold Reqb, Rltb, Rleb.
  destruct (Req_dec_T ea eb) as [Heq | Hne]; cbn [negb].
  - intros Hlt. right. destruct (Req_dec_T eb ea); [| congruence].
    split; [reflexivity |].
    destruct (Rle_dec qa qb) as [| Hn]; [reflexivity |]. exfalso.
    destruct (Req_dec_T (- qa) (- qb)); cbn [negb] in Hlt; [lra |].
    destruct (Rlt_dec (- qa) (- qb)); [discriminate | lra].
  - intros Hlt. left. destruct (Rlt_dec ea eb); [discriminate |].
    destruct (Rlt_dec eb ea); [reflexivity | lra].
Qed.

Lemma insert_sorted_Forall (P : candidate -> Prop) (x : candidate) (l : list candidate) :
  P x -> Forall P l -> Forall P (insert_sorted x l).
Proof.
  intros Hx Hl. induction Hl as [| y l Hy Hl IH]; cbn [insert_sorted].
  - constructor; [exact Hx | constructor].
  - destruct (tuple_lt (sort_key x) (sort_key y)).
    + constructor; [exact Hx | constructor; assumption].
    + constructor; assumption.
Qed.

Lemma insert_sorted_HdRel (a x : candidate) (l : list candidate) :
  rank_le a x -> HdRel rank_le a l -> HdRel rank_le a (insert_sorted x l).
Proof.
  intros Hax Hl. destruct l as [| y l]; cbn [insert_sorted].
  - constructor. exact Hax.
  - destruct (tuple_lt (sort_key x) (sort_key y)).
    + constructor. exact Hax.
    + constructor. inversion Hl. assumption.
Qed.

Lemma insert_sorted_Sorted (x : candidate) (l : list candidate) :
  real_keys x -> Forall real_keys l -> Sorted rank_le l ->
  Sorted rank_le (insert_sorted x l).
Proof.
  intros Hx Hl Hs. induction l as [| y l IH]; cbn [insert_sorted].
  - repeat constructor.
  - inversion Hl as [| ? ? Hy Hl']; subst. inversion Hs as [| ? ? Hs' Hhd]; subst.
    destruct (tuple_lt (sort_key x) (sort_key y)) eqn:Hlt.
    + constructor; [exact Hs |]. constructor. apply tuple_lt_rank; assumption.
    + constructor; [apply IH; assumption |].
      apply insert_sorted_HdRel; [apply tuple_nlt_rank; assumption | exact Hhd].
Qed.

Lemma list_sort_Sorted (l : list candidate) :
  Forall real_keys l -> Sorted rank_le (list_sort l).
Proof.
  intros Hl. unfold list_sort.
  assert (H : forall acc : list candidate,
            Forall real_keys acc -> Sorted rank_le acc ->
            Sorted rank_le (fold_left (fun acc x => insert_sorted x acc) l acc)).
  { induction Hl as [| x l Hx Hl IH]; intros acc Hacc Hs; cbn [fold_left]; [exact Hs |].
    apply IH; [apply insert_sorted_Forall | apply insert_sorted_Sorted]; assumption. }
  apply H; constructor.
Qed.

Lemma Sorted_firstn {A : Type} (le : A -> A -> Prop) (n : nat) (l : list A) :
  Sorted le l -> Sorted le (firstn n l).
Proof.
  revert l. induction n as [| n IH]; intros l Hs; [constructor |].
  destruct l as [| x l]; [constructor |]. cbn [firstn].
  inversion Hs as [| ? ? Hs' Hhd]; subst. constructor; [apply IH, Hs' |].
  destruct n; [constructor |]. destruct l as [| y l]; [constructor |].
  cbn [firstn]. inversion Hhd. constructor. assumption.
Qed.

Lemma slice_to_firstn {A : Type} (l : list A) (k : Z) :
  (0 <= k)%Z -> slice_to l k = firstn (Z.to_nat k) l.
Proof. intros Hk. unfold slice_to. destruct (Z.leb_spec 0 k); [reflexivity | lia]. Qed.

Lemma rank_Sorted (results : list candidate) (k : Z) :
  (0 <= k)%Z -> Forall real_keys results -> Sorted rank_le (rank results k).
Proof.
  intros Hk Hr. unfold rank. destruct results as [| d results]; [constructor |].
  rewrite slice_to_firstn by exact Hk. apply Sorted_firstn, list_sort_Sorted, Hr.
Qed.

Lemma insert_sorted_In (d x : candidate) (l : list candidate) :
  In d (insert_sorted x l) -> d = x \/ In d l.
Proof.
  induction l as [| y l IH]; cbn [insert_sorted].
  - intros [<- | []]. left. reflexivity.
  - destruct (tuple_lt (sort_key x) (sort_key y)).
    + intros [<- | Hd]; [left; reflexivity | right; exact Hd].
    + intros [<- | Hd]; [right; left; reflexivity |].
      destruct (IH Hd) as [-> | Hl]; [left; reflexivity | right; right; exact Hl].
Qed.

(** Sorting and truncating only select and reorder the scanned records. *)
Lemma list_sort_In (d : candidate) (l : list candidate) : In d (list_sort l) -> In d l.
Proof.
  unfold list_sort.
  assert (H : forall acc : list candidate,
            In d (fold_left (fun acc x => insert_sorted x acc) l acc) -> In d acc \/ In d l).
  { induction l as [| x l IH]; intros acc Hd; cbn [fold_left] in Hd; [left; exact Hd |].
    destruct (IH _ Hd) as [Hacc | Hl]; [| right; right; exact Hl].
    destruct (insert_sorted_In d x acc Hacc) as [-> | Hin];
      [right; left; reflexivity | left; exact Hin]. }
  intros Hd. destruct (H [] Hd) as [[] | Hl]. exact Hl.
Qed.

Lemma firstn_In {A : Type} (x : A) (n : nat) (l : list A) : In x (firstn n l) -> In x l.
Proof.
  revert l. induction n as [| n IH]; intros [| y l]; cbn [firstn]; try contradiction.
  intros [<- | Hx]; [left; reflexivity | right; apply IH, Hx].
Qed.

Lemma rank_In (d : candidate) (results : list candidate) (k : Z) :
  In d (rank results k) -> In d results.
Proof.
  unfold rank. destruct results as [| r results]; [intros [] |].
  unfold slice_to. destruct (0 <=? k)%Z; intros Hd; apply firstn_In in Hd;
    apply list_sort_In, Hd.
Qed.

Lemma rank_length (results : list candidate) (k : Z) :
  (0 <= k)%Z -> (Z.of_nat (length (rank results k)) <= k)%Z.
Proof.
  intros Hk. unfold rank. destruct results as [| d results]; [simpl; lia |].
  rewrite slice_to_firstn by exact Hk.
  pose proof (firstn_le_length (Z.to_nat k) (list_sort (d :: results))). lia.
Qed.

End RankingFacts.

(** C6.  For every call of [design_rlc_for_target_f0] with a positive
    target (and a non-negative [max_results]) on grids that keep a
    positive entry, the call returns a list that is sorted by ascending
    relative error with ties broken by descending [Q] (an absent [Q]
    counting as 0 in the comparison only: the entries are records of the
    scan, as the scan built them), has at most [max_results] entries, and
    is empty, without any error, when no pair of the grids qualifies; the
    objects of the caller's store, the grids among them, are unchanged. *)
Theorem design_ranked_and_truncated (t : R) (R_fixed : option float)
    (L_grid C_grid : option nat) (max_results : Z) (max_error : option float)
    (h : store) (Ls Cs : list float) :
  (0 < t)%R -> (0 <= max_results)%Z ->
  grid_items h L_grid default_L_candidates = Some Ls ->
  grid_items h C_grid default_C_candidates = Some Cs ->
  List.filter is_positive Ls <> [] -> List.filter is_positive Cs <> [] ->
  exists (res : list candidate) (h' : store),
    design_rlc_for_target_f0 (Fin t) R_fixed L_grid C_grid max_results max_error h
    = (Ok res, h')
    /\ Sorted rank_le res
    /\ (forall d : candidate,
          In d res ->
          In d (scan (Fin t) R_fixed max_error (List.filter is_positive Ls)
                  (List.filter is_positive Cs)))
    /\ (Z.of_nat (length res) <= max_results)%Z
    /\ (forall (l : nat) (o : pyobj), h !! l = Some o -> h' !! l = Some o)
    /\ (scan (Fin t) R_fixed max_error (List.filter is_positive Ls) (List.filter is_positive Cs) = []
        -> res = []).
Proof.
  intros Ht Hk HL HC HLne HCne.
  destruct (design_returns (Fin t) R_fixed L_grid C_grid max_results max_error h Ls Cs)
    as [h' Hrun]; try assumption.
  { apply fle_Fin_false, Ht. }
  eexists. exists h'. split; [exact Hrun |].
  split; [apply rank_Sorted; [exact Hk | apply scan_real_keys, Ht] |].
  split; [intros d; apply rank_In |].
  split; [apply rank_length, Hk |].
  split.
  - intros l o Hl.
    pose proof (design_preserves (Fin t) R_fixed L_grid C_grid max_results max_error h) as Hsub.
    rewrite Hrun in Hsub. cbn [snd] in Hsub. exact (lookup_weaken _ _ _ _ Hl Hsub).
  - intros ->. reflexivity.
Qed.

Lemma design_ranked_and_truncated_witness :
  exists (res : list candidate) (h' : store),
    design_rlc_for_target_f0 (Fin 5000) (Some (Fin 330)) (Some 0%nat) (Some 1%nat) 20
      (Some (Fin 50)) example_store = (Ok res, h')
    /\ Sorted rank_le res
    /\ (forall d : candidate,
          In d res ->
          In d (scan (Fin 5000) (Some (Fin 330)) (Some (Fin 50))
                  (List.filter is_positive [Fin 1e-3; Fin (-1)])
                  (List.filter is_positive [Fin 1e-6])))
    /\ (Z.of_nat (length res) <= 20)%Z
    /\ (forall (l : nat) (o : pyobj), example_store !! l = Some o -> h' !! l = Some o)
    /\ (scan (Fin 5000) (Some (Fin 330)) (Some (Fin 50))
          (List.filter is_positive [Fin 1e-3; Fin (-1)]) (List.filter is_positive [Fin 1e-6]) = []
        -> res = []).
Proof.
  apply (design_ranked_and_truncated 5000 (Some (Fin 330)) (Some 0%nat) (Some 1%nat) 20
           (Some (Fin 50)) example_store [Fin 1e-3; Fin (-1)] [Fin 1e-6]).
  - lra.
  - lia.
  - reflexivity.
  - reflexivity.
  - cbn [List.filter]. unfold is_positive at 1. rewrite fgt_Fin_true by lra. discriminate.
  - cbn [List.filter]. unfold is_positive at 1. rewrite fgt_Fin_true by lra. discriminate.
Defined.

(** * Further properties *)

(** ** Relations between the nominal metrics *)

Lemma sqrt_prod_quot (L C : R) : 0 < L -> 0 < C -> sqrt (L * C) * sqrt (L / C) = L.
Proof.
  intros HL HC. rewrite <- sqrt_mult by pos.
  apply sqrt_eq; [lra | field; lra].
Qed.

(** X1.  For all [R, L, C > 0] the nominal metrics are real numbers with
    [0 < f1 < f0 < f2] and [Q > 0]; the bandwidth is
    [f2 - f1 = f0 / Q = R / (2 pi L)], and the resonance frequency is the
    geometric mean of the half-power frequencies: [f1 * f2 = f0^2]. *)
Theorem nominal_metrics_relations (R L C : R) :
  0 < R -> 0 < L -> 0 < C ->
  exists f0 Q BW f1 f2,
    calculate_nominal_metrics (Fin R) (Fin L) (Fin C)
    = Ok {| m_f0 := Fin f0; m_Q := Fin Q; m_BW := Fin BW; m_f1 := Fin f1; m_f2 := Fin f2 |}
    /\ 0 < f1 < f0 /\ f0 < f2 /\ 0 < Q
    /\ BW = f2 - f1 /\ BW = f0 / Q /\ BW = R / (2 * PI * L)
    /\ f1 * f2 = f0 * f0.
Proof.
  intros HR HL HC.
  eexists _, _, _, _, _. split; [apply calculate_nominal_metrics_pos; assumption |].
  pose proof PI_RGT_0 as Hpi.
  assert (Ha : 0 < R / (2 * L)) by pos.
  assert (Hw2 : 0 < 1 / (L * C)) by pos.
  assert (Hlc : 0 < sqrt (L * C)) by pos.
  assert (Hlc2 : sqrt (L * C) * sqrt (L * C) = L * C) by (apply sqrt_sqrt; nra).
  assert (Hq : 0 < sqrt (L / C)) by pos.
  pose proof (sqrt_prod_quot L C HL HC) as Hprod.
  set (a := R / (2 * L)) in *.
  assert (Hs2 : sqrt (a * a + 1 / (L * C)) * sqrt (a * a + 1 / (L * C)) = a * a + 1 / (L * C))
    by (apply sqrt_sqrt; nra).
  assert (Hs : 0 < sqrt (a * a + 1 / (L * C))) by (apply sqrt_lt_R0; nra).
  set (s := sqrt (a * a + 1 / (L * C))) in *.
  set (w := 1 / sqrt (L * C)).
  assert (Hw : 0 < w) by (unfold w; pos).
  assert (Hww : w * w = 1 / (L * C)).
  { unfold w. transitivity (1 / (sqrt (L * C) * sqrt (L * C))); [field; lra | rewrite Hlc2; reflexivity]. }
  assert (Hsa : a < s) by nra.
  assert (Hsw : w < s) by nra.
  assert (Hsaw : s < a + w) by nra.
  assert (Hinv : 0 < / (2 * PI)) by (apply Rinv_0_lt_compat; lra).
  fold w.
  repeat split.
  - unfold Rdiv. nra.
  - unfold Rdiv. nra.
  - unfold Rdiv. nra.
  - pos.
  - transitivity (R / (2 * PI * L)); [unfold a; field; lra |].
    unfold w. rewrite <- Hprod at 1. field. repeat split; lra.
  - unfold a. field. lra.
  - transitivity ((s * s - a * a) / (2 * PI * (2 * PI))); [field; lra |].
    rewrite Hs2. transitivity (w * w / (2 * PI * (2 * PI))); [rewrite Hww; field; lra | field; lra].
Qed.

Lemma nominal_metrics_relations_witness :
  exists f0 Q BW f1 f2,
    calculate_nominal_metrics (Fin 100) (Fin 1e-3) (Fin 1e-6)
    = Ok {| m_f0 := Fin f0; m_Q := Fin Q; m_BW := Fin BW; m_f1 := Fin f1; m_f2 := Fin f2 |}
    /\ 0 < f1 < f0 /\ f0 < f2 /\ 0 < Q
    /\ BW = f2 - f1 /\ BW = f0 / Q /\ BW = 100 / (2 * PI * 1e-3)
    /\ f1 * f2 = f0 * f0.
Proof.
  apply (nominal_metrics_relations 100 1e-3 1e-6); lra.
Defined.

(** ** The resolver: the other two branches, and validation *)

Lemma resolve_identities (R L C : R) :
  0 < R -> 0 < L -> 0 < C ->
  let f := 1 / sqrt (L * C) / (2 * PI) in
  let Q := 1 / R * sqrt (L / C) in
  1 / Q * (2 * PI * f * L) = R
  /\ 1 / (2 * PI * f * (2 * PI * f) * L) = C
  /\ 1 / Q * (1 / (2 * PI * f * C)) = R
  /\ 1 / (2 * PI * f * (2 * PI * f) * C) = L.
Proof.
  intros HR HL HC f Q. unfold f, Q.
  pose proof PI_RGT_0 as Hpi.
  assert (Ha : 0 < sqrt (L * C)) by pos.
  assert (Hb : 0 < sqrt (L / C)) by pos.
  assert (Haa : sqrt (L * C) * sqrt (L * C) = L * C) by (apply sqrt_sqrt; nra).
  pose proof (sqrt_prod_quot L C HL HC) as Hab.
  set (a := sqrt (L * C)) in *. set (b := sqrt (L / C)) in *.
  repeat split.
  - transitivity (R * L / (a * b)); [field; lra | rewrite Hab; field; lra].
  - transitivity (a * a / L); [field; lra | rewrite Haa; field; lra].
  - transitivity (R * (a * a) / (a * b * C)); [field; lra | rewrite Haa, Hab; field; lra].
  - transitivity (a * a / C); [field; lra | rewrite Haa; field; lra].
Qed.

(** X2.  The round trip of the metrics through the resolver also holds
    for a known inductance and for a known capacitance: for all
    [R, L, C > 0], resolving [(f0, Q)] with the known [L] gives back [R]
    and [C], and with the known [C] gives back [R] and [L]. *)
Theorem metrics_resolve_known_L_C (R L C : R) :
  0 < R -> 0 < L -> 0 < C ->
  exists (m : metrics) (sL sC : solution),
    calculate_nominal_metrics (Fin R) (Fin L) (Fin C) = Ok m
    /\ solve_rlc_from_f0_Q (Some (m_f0 m)) (Some (m_Q m)) "L" (Some (Fin L)) = Ok sL
    /\ sol_R sL = Fin R /\ sol_L sL = Fin L /\ sol_C sL = Fin C
    /\ solve_rlc_from_f0_Q (Some (m_f0 m)) (Some (m_Q m)) "C" (Some (Fin C)) = Ok sC
    /\ sol_R sC = Fin R /\ sol_L sC = Fin L /\ sol_C sC = Fin C.
Proof.
  intros HR HL HC.
  destruct (resolve_identities R L C HR HL HC) as (H1 & H2 & H3 & H4). cbv zeta in H1, H2, H3, H4.
  eexists _, _, _. split; [apply calculate_nominal_metrics_pos; assumption |].
  cbn [m_f0 m_Q].
  split; [apply solve_known_L; [pos | pos | pos | reflexivity] |].
  cbn [sol_R sol_L sol_C]. rewrite H1, H2.
  split; [reflexivity |]. split; [reflexivity |]. split; [reflexivity |].
  split; [apply solve_known_C; [pos | pos | pos | reflexivity] |].
  cbn [sol_R sol_L sol_C]. rewrite H3, H4.
  repeat split.
Qed.

Lemma metrics_resolve_known_L_C_witness :
  exists (m : metrics) (sL sC : solution),
    calculate_nominal_metrics (Fin 100) (Fin 1e-3) (Fin 1e-6) = Ok m
    /\ solve_rlc_from_f0_Q (Some (m_f0 m)) (Some (m_Q m)) "L" (Some (Fin 1e-3)) = Ok sL
    /\ sol_R sL = Fin 100 /\ sol_L sL = Fin 1e-3 /\ sol_C sL = Fin 1e-6
    /\ solve_rlc_from_f0_Q (Some (m_f0 m)) (Some (m_Q m)) "C" (Some (Fin 1e-6)) = Ok sC
    /\ sol_R sC = Fin 100 /\ sol_L sC = Fin 1e-3 /\ sol_C sC = Fin 1e-6.
Proof.
  apply (metrics_resolve_known_L_C 100 1e-3 1e-6); lra.
Defined.

Lemma require_positive_rejected (v : option R) (msg : string) :
  rejected v -> require_positive (Fin <$> v) msg = Raise (ValueError msg).
Proof.
  destruct v as [x |]; cbn [rejected fmap option_fmap option_map require_positive]; intros H.
  - rewrite fle_Fin_true by exact H. reflexivity.
  - reflexivity.
Qed.

Lemma accepted_Some (v : option R) : accepted v -> exists x : R, v = Some x /\ 0 < x.
Proof. destruct v as [x |]; cbn; intros H; [exists x; split; [reflexivity | exact H] | destruct H]. Qed.

(** X3.  [solve_rlc_from_f0_Q] validates its arguments in a fixed order and
    reports the first one that fails with a [ValueError]: [f0], then [Q],
    then the known value (each rejected when [None] or [<= 0]), then the
    known kind (rejected when its upper case is not R, L or C).  When all
    four pass, the call returns a solution. *)
Theorem solve_rlc_validation (f0 Q k : option R) (kt : string) :
  let call := solve_rlc_from_f0_Q (Fin <$> f0) (Fin <$> Q) kt (Fin <$> k) in
  (rejected f0 -> call = Raise (ValueError "f₀ inválido para projeto inverso."))
  /\ (accepted f0 -> rejected Q -> call = Raise (ValueError "Q inválido para projeto inverso."))
  /\ (accepted f0 -> accepted Q -> rejected k ->
      call = Raise (ValueError "Valor do componente fixo deve ser > 0."))
  /\ (accepted f0 -> accepted Q -> accepted k ->
      upper kt <> "R"%string -> upper kt <> "L"%string -> upper kt <> "C"%string ->
      call = Raise (ValueError "Tipo conhecido deve ser 'R', 'L' ou 'C'."))
  /\ (accepted f0 -> accepted Q -> accepted k ->
      upper kt = "R"%string \/ upper kt = "L"%string \/ upper kt = "C"%string ->
      exists s : solution, call = Ok s).
Proof.
  cbv zeta. split; [| split; [| split; [| split]]].
  - intros Hf. unfold solve_rlc_from_f0_Q.
    rewrite (require_positive_rejected f0) by exact Hf. reflexivity.
  - intros (f & -> & Hf)%accepted_Some HQ. unfold solve_rlc_from_f0_Q.
    cbn [fmap option_fmap option_map].
    rewrite require_positive_Fin, bind_Ok by exact Hf.
    rewrite (require_positive_rejected Q) by exact HQ. reflexivity.
  - intros (f & -> & Hf)%accepted_Some (q & -> & Hq)%accepted_Some Hk.
    unfold solve_rlc_from_f0_Q. cbn [fmap option_fmap option_map].
    rewrite !require_positive_Fin, !bind_Ok by assumption.
    rewrite (require_positive_rejected k) by exact Hk. reflexivity.
  - intros (f & -> & Hf)%accepted_Some (q & -> & Hq)%accepted_Some (x & -> & Hx)%accepted_Some
      HR HL HC.
    unfold solve_rlc_from_f0_Q. cbn [fmap option_fmap option_map].
    rewrite !require_positive_Fin, !bind_Ok by assumption. cbv zeta.
    apply String.eqb_neq in HR, HL, HC. rewrite HR, HL, HC. reflexivity.
  - intros (f & -> & Hf)%accepted_Some (q & -> & Hq)%accepted_Some (x & -> & Hx)%accepted_Some
      [Hkt | [Hkt | Hkt]]; cbn [fmap option_fmap option_map]; eexists.
    + apply solve_known_R; assumption.
    + apply solve_known_L; assumption.
    + apply solve_known_C; assumption.
Qed.

Lemma solve_rlc_validation_witness :
  solve_rlc_from_f0_Q (Some (Fin 1000)) (Some (Fin 10)) "x" (Some (Fin 1e-3))
  = Raise (ValueError "Tipo conhecido deve ser 'R', 'L' ou 'C'.").
Proof.
  refine (proj1 (proj2 (proj2 (proj2
            (solve_rlc_validation (Some 1000) (Some 10) (Some 1e-3) "x")))) _ _ _ _ _ _);
    first [unfold accepted; lra | intros E; vm_compute in E; discriminate E].
Defined.

(** ** The transfer gain *)

Lemma fdiv_one_zero : (Fin 1 / Fin 0)%fl = PInf.
Proof.
  unfold fdiv. destruct (Req_dec_T 0 0) as [_ | H]; [| contradiction].
  rewrite Rsign_pos by lra. reflexivity.
Qed.

Lemma sqrt_sum_sq_ge (r d : R) : 0 < r -> r <= sqrt (r * r + d * d).
Proof.
  intros Hr. rewrite <- (sqrt_square r) at 1 by lra. apply sqrt_le_1; nra.
Qed.

(** The gain at one frequency, for a positive resistance and any real
    frequency, inductance and capacitance; [e] is the term added to the
    denominator of the capacitive reactance. *)
Lemma gain_point_bounds (R L C f e : R) :
  0 < R ->
  exists g,
    (Fin R / fsqrt (sq (Fin R)
                    + sq (two_pi * Fin f * Fin L - Fin 1 / (two_pi * Fin f * Fin C + Fin e))))%fl
    = Fin g
    /\ 0 <= g <= 1.
Proof.
  intros HR. rewrite two_pi_Fin, !fmul_Fin, fadd_Fin.
  destruct (Req_dec_T (2 * PI * f * C + e) 0) as [Hz | Hz].
  - rewrite Hz, fdiv_one_zero. exists 0. split; [reflexivity | lra].
  - rewrite (fdiv_Fin 1) by exact Hz. rewrite fsub_Fin, !sq_Fin, fadd_Fin.
    set (d := 2 * PI * f * L - 1 / (2 * PI * f * C + e)).
    pose proof (sqrt_sum_sq_ge R d HR) as Hz0.
    rewrite fsqrt_Fin by nra. rewrite fdiv_Fin by lra.
    eexists. split; [reflexivity |].
    set (z := sqrt (R * R + d * d)) in *.
    assert (Hinv : 0 < / z) by (apply Rinv_0_lt_compat; lra).
    assert (Hone : z * / z = 1) by (apply Rinv_r; lra).
    unfold Rdiv. split; nra.
Qed.

Lemma gain_curve_bounds (fs : list R) (R L C e : R) :
  0 < R ->
  exists gs,
    map (fun fi : float =>
           (Fin R / fsqrt (sq (Fin R)
                           + sq (two_pi * fi * Fin L - Fin 1 / (two_pi * fi * Fin C + Fin e))))%fl)
        (map Fin fs)
    = map Fin gs
    /\ length gs = length fs
    /\ Forall (fun g => 0 <= g <= 1) gs.
Proof.
  intros HR. induction fs as [| f fs (gs & Hgs & Hlen & Hall)].
  - exists []. repeat split. constructor.
  - destruct (gain_point_bounds R L C f e HR) as (g & Hg & Hb).
    exists (g :: gs). cbn [map length]. rewrite Hg, Hgs, Hlen.
    split; [reflexivity |]. split; [reflexivity |]. constructor; assumption.
Qed.

(** X4.  For a positive resistance and any real frequencies, inductance
    and capacitance, [get_transfer_function] and [_transfer_gain] return
    one gain per frequency, and every gain is a real number between 0 and
    1: the gain is never [nan], never infinite and never above 1, also at
    a frequency where the capacitive-reactance denominator vanishes. *)
Theorem transfer_gain_bounded (fs : list R) (R L C : R) :
  0 < R ->
  exists gs gs',
    get_transfer_function (map Fin fs) (Fin R) (Fin L) (Fin C) = map Fin gs
    /\ _transfer_gain (map Fin fs) (Fin R) (Fin L) (Fin C) = map Fin gs'
    /\ length gs = length fs /\ length gs' = length fs
    /\ Forall (fun g => 0 <= g <= 1) gs
    /\ Forall (fun g => 0 <= g <= 1) gs'.
Proof.
  intros HR.
  destruct (gain_curve_bounds fs R L C 1e-15 HR) as (gs & Hgs & Hlen & Hall).
  destruct (gain_curve_bounds fs R L C 1e-30 HR) as (gs' & Hgs' & Hlen' & Hall').
  exists gs, gs'. repeat split; assumption.
Qed.

Lemma transfer_gain_bounded_witness :
  exists gs gs',
    get_transfer_function (map Fin [0; 5000]) (Fin 100) (Fin 1e-3) (Fin (-1e-6)) = map Fin gs
    /\ _transfer_gain (map Fin [0; 5000]) (Fin 100) (Fin 1e-3) (Fin (-1e-6)) = map Fin gs'
    /\ length gs = 2%nat /\ length gs' = 2%nat
    /\ Forall (fun g => 0 <= g <= 1) gs
    /\ Forall (fun g => 0 <= g <= 1) gs'.
Proof.
  apply (transfer_gain_bounded [0; 5000] 100 1e-3 (-1e-6)). lra.
Defined.

(** ** The frequencies of the sweep *)

Lemma effective_range_auto (x : R) (fmin fmax : option float) :
  0 < x -> fmin = None \/ fmax = None ->
  effective_range (Fin x) fmin fmax = (Fin (x / 10), Fin (x * 10)).
Proof.
  intros Hx H. unfold effective_range.
  rewrite (fgt_Fin_true x 0) by exact Hx. rewrite fdiv_Fin, fmul_Fin by lra.
  destruct H as [-> | ->]; [reflexivity | destruct fmin; reflexivity].
Qed.

Lemma effective_range_valid (x a b : R) :
  0 < a -> a < b ->
  effective_range (Fin x) (Some (Fin a)) (Some (Fin b)) = (Fin a, Fin b).
Proof.
  intros Ha Hab. unfold effective_range.
  rewrite (fle_Fin_false a 0) by exact Ha. rewrite (fle_Fin_false b a) by exact Hab. reflexivity.
Qed.

(** With a positive resonance frequency and real bounds (or none), the
    effective range is a pair of real numbers [0 < lo < hi]. *)
Lemma effective_range_pos (fmin fmax : option R) (x : R) :
  0 < x ->
  exists lo hi,
    effective_range (Fin x) (Fin <$> fmin) (Fin <$> fmax) = (Fin lo, Fin hi)
    /\ 0 < lo < hi.
Proof.
  intros Hx.
  destruct fmin as [a |]; [destruct fmax as [b |] |].
  - cbn [fmap option_fmap option_map].
    destruct (Rlt_dec b a) as [Hba | Hba]; [| destruct (Req_dec_T a b) as [-> | Hne]].
    + destruct (effective_range_inverted x a b ltac:(lra)) as (lo & -> & Hlo & _).
      exists lo, (lo * 10). split; [reflexivity | lra].
    + destruct (effective_range_inverted x b b ltac:(lra)) as (lo & -> & Hlo & _).
      exists lo, (lo * 10). split; [reflexivity | lra].
    + destruct (Rlt_dec 0 a) as [Ha | Ha].
      * exists a, b. split; [apply effective_range_valid; lra | lra].
      * unfold effective_range. rewrite (fle_Fin_true a 0) by lra.
        rewrite (fgt_Fin_true x 0) by exact Hx. rewrite fdiv_Fin by lra.
        destruct (Rle_dec b (x / 10)) as [Hb | Hb].
        -- rewrite (fle_Fin_true b) by exact Hb. rewrite fmul_Fin.
           eexists _, _. split; [reflexivity | lra].
        -- rewrite (fle_Fin_false b) by lra.
           eexists _, _. split; [reflexivity | lra].
  - rewrite effective_range_auto by (try assumption; right; reflexivity).
    eexists _, _. split; [reflexivity | lra].
  - rewrite effective_range_auto by (try assumption; left; reflexivity).
    eexists _, _. split; [reflexivity | lra].
Qed.

(** The samples of [np.linspace] on real bounds. *)
Lemma linspace_real (a b : R) (n : Z) :
  (0 <= n)%Z ->
  Np.linspace (Fin a) (Fin b) n =
  Ok (map Fin
        (map (fun i : nat =>
                if (1 <? n)%Z
                then (if (i =? Z.to_nat n - 1)%nat then b else INR i * ((b - a) / IZR (n - 1)) + a)
                else INR i * (b - a) + a)
             (seq 0 (Z.to_nat n)))).
Proof.
  intros Hn. unfold Np.linspace. destruct (Z.ltb_spec n 0) as [H | _]; [lia |].
  f_equal. rewrite map_map. apply map_ext. intros i.
  destruct (Z.ltb_spec 1 n) as [H1 | H1].
  - destruct (i =? Z.to_nat n - 1)%nat; [reflexivity |].
    rewrite fsub_Fin, fdiv_Fin; [reflexivity |].
    apply not_0_IZR. lia.
  - reflexivity.
Qed.

Lemma linspace_sample_between (a b : R) (n : Z) (i : nat) :
  a <= b -> (i < Z.to_nat n)%nat ->
  a <= (if (1 <? n)%Z
        then (if (i =? Z.to_nat n - 1)%nat then b else INR i * ((b - a) / IZR (n - 1)) + a)
        else INR i * (b - a) + a) <= b.
Proof.
  intros Hab Hi. destruct (Z.ltb_spec 1 n) as [H1 | H1].
  - destruct (Nat.eqb_spec i (Z.to_nat n - 1)) as [_ | Hne]; [lra |].
    assert (Hn : 0 < IZR (n - 1)) by (apply IZR_lt; lia).
    assert (Hi' : 0 <= INR i <= IZR (n - 1)).
    { split; [apply pos_INR |]. rewrite INR_IZR_INZ. apply IZR_le. lia. }
    assert (Hq : 0 <= INR i / IZR (n - 1) <= 1).
    { split; [apply Rmult_le_pos; [lra | left; apply Rinv_0_lt_compat, Hn] |].
      apply (Rmult_le_reg_r (IZR (n - 1))); [exact Hn |].
      replace (INR i / IZR (n - 1) * IZR (n - 1)) with (INR i) by (field; lra). lra. }
    replace (INR i * ((b - a) / IZR (n - 1))) with (INR i / IZR (n - 1) * (b - a)) by (field; lra).
    nra.
  - assert (i = 0%nat) by lia. subst i. cbn [INR]. lra.
Qed.

Lemma Rpower_10_log (x : R) : 0 < x -> Rpower 10 (ln x / ln 10) = x.
Proof.
  intros Hx. unfold Rpower.
  assert (H10 : 0 < ln 10) by (rewrite <- ln_1; apply ln_increasing; lra).
  replace (ln x / ln 10 * ln 10) with (ln x) by (field; lra).
  apply exp_ln, Hx.
Qed.

Lemma log10_pos (x : R) : 0 < x -> log10 (Fin x) = Fin (ln x / ln 10).
Proof. intros Hx. unfold log10. destruct (Rlt_dec 0 x); [reflexivity | contradiction]. Qed.

(** The samples of [np.logspace] between the logarithms of two positive
    bounds: real numbers between the bounds, the first one the lower
    bound and, from two samples on, the last one the upper bound. *)
Lemma logspace_real (lo hi : R) (n : Z) :
  0 < lo <= hi -> (0 <= n)%Z ->
  exists fs,
    Np.logspace (log10 (Fin lo)) (log10 (Fin hi)) n = Ok (map Fin fs)
    /\ length fs = Z.to_nat n
    /\ Forall (fun f => lo <= f <= hi) fs
    /\ ((1 <= n)%Z -> nth_error fs 0 = Some lo)
    /\ ((2 <= n)%Z -> nth_error fs (Z.to_nat n - 1) = Some hi).
Proof.
  intros [Hlo Hhi] Hn. unfold Np.logspace.
  rewrite !log10_pos by lra. rewrite linspace_real by exact Hn. rewrite bind_Ok, ret_Ok.
  set (a := ln lo / ln 10). set (b := ln hi / ln 10).
  assert (H10 : 0 < ln 10) by (rewrite <- ln_1; apply ln_increasing; lra).
  assert (Hab : a <= b).
  { unfold a, b, Rdiv. apply Rmult_le_compat_r; [left; apply Rinv_0_lt_compat, H10 |].
    destruct Hhi as [Hlt | ->]; [left; apply ln_increasing; assumption | right; reflexivity]. }
  set (y := fun i : nat =>
              if (1 <? n)%Z
              then (if (i =? Z.to_nat n - 1)%nat then b else INR i * ((b - a) / IZR (n - 1)) + a)
              else INR i * (b - a) + a).
  exists (map (Rpower 10) (map y (seq 0 (Z.to_nat n)))).
  split; [rewrite !map_map; reflexivity |].
  split; [rewrite !length_map, length_seq; reflexivity |].
  assert (Hy : forall i : nat, (i < Z.to_nat n)%nat -> lo <= Rpower 10 (y i) <= hi).
  { intros i Hi. pose proof (linspace_sample_between a b n i Hab Hi) as [Hya Hyb]. fold (y i) in Hya, Hyb.
    rewrite <- (Rpower_10_log lo) at 1 by lra. rewrite <- (Rpower_10_log hi) at 1 by lra.
    fold a b. split; apply Rle_Rpower; lra. }
  split; [| split].
  - apply List.Forall_forall. intros f Hf.
    apply in_map_iff in Hf as (v & <- & Hv). apply in_map_iff in Hv as (i & <- & Hi).
    apply in_seq in Hi. apply Hy. lia.
  - intros H1. rewrite map_map, nth_error_map.
    rewrite (nth_error_nth' _ 0%nat) by (rewrite length_seq; lia).
    rewrite seq_nth by lia. cbn [option_map Nat.add]. f_equal.
    transitivity (Rpower 10 a); [| apply Rpower_10_log; lra]. f_equal.
    unfold y. destruct (Z.ltb_spec 1 n) as [H2 | H2].
    + destruct (Nat.eqb_spec 0 (Z.to_nat n - 1)) as [E | _]; [lia |]. cbn [INR]. lra.
    + cbn [INR]. lra.
  - intros H2. rewrite map_map, nth_error_map.
    rewrite (nth_error_nth' _ 0%nat) by (rewrite length_seq; lia).
    rewrite seq_nth by lia. cbn [option_map Nat.add]. f_equal.
    transitivity (Rpower 10 b); [| apply Rpower_10_log; lra]. f_equal.
    unfold y. destruct (Z.ltb_spec 1 n) as [_ | H1]; [| lia].
    rewrite Nat.eqb_refl. reflexivity.
Qed.

Lemma compute_metrics_pos (R L C : R) :
  0 < R -> 0 < L -> 0 < C ->
  exists nom : metrics,
    _compute_metrics (Fin R) (Fin L) (Fin C) = Ok nom
    /\ calculate_nominal_metrics (Fin R) (Fin L) (Fin C) = Ok nom
    /\ m_f0 nom = Fin (1 / sqrt (L * C) / (2 * PI)).
Proof.
  intros HR HL HC. rewrite compute_metrics_nominal by assumption.
  rewrite calculate_nominal_metrics_pos by assumption.
  eexists. repeat split.
Qed.

(** X5.  For [R, L, C > 0] and real frequency bounds (or none), the sweep
    of [simulate_response_with_tolerances] has exactly [num_points]
    frequencies, all real and within a range [0 < lo < hi]; the first one
    is [lo] and, from two points on, the last one is [hi].  When a bound
    is missing the range is the decade on each side of the resonance
    frequency, [(f0 / 10, 10 f0)]; when both are given with
    [0 < freq_min < freq_max] it is [(freq_min, freq_max)]. *)
Theorem sweep_frequencies (fmin fmax : option R) (R L C : R) (tol_R tol_L tol_C V : float)
    (n : Z) :
  0 < R -> 0 < L -> 0 < C -> (0 <= n)%Z ->
  exists sim fs lo hi,
    simulate_response_with_tolerances (Fin R) (Fin L) (Fin C) tol_R tol_L tol_C V
      (Fin <$> fmin) (Fin <$> fmax) n = Ok sim
    /\ sim_freqs sim = map Fin fs
    /\ length fs = Z.to_nat n
    /\ 0 < lo < hi
    /\ Forall (fun f => lo <= f <= hi) fs
    /\ ((1 <= n)%Z -> nth_error fs 0 = Some lo)
    /\ ((2 <= n)%Z -> nth_error fs (Z.to_nat n - 1) = Some hi)
    /\ (fmin = None \/ fmax = None ->
        lo = 1 / sqrt (L * C) / (2 * PI) / 10 /\ hi = 1 / sqrt (L * C) / (2 * PI) * 10)
    /\ (forall a b, fmin = Some a -> fmax = Some b -> 0 < a < b -> lo = a /\ hi = b).
Proof.
  intros HR HL HC Hn.
  destruct (compute_metrics_pos R L C HR HL HC) as (nom & Hnom & _ & Hf0).
  assert (Hx : 0 < 1 / sqrt (L * C) / (2 * PI)) by pos.
  set (x := 1 / sqrt (L * C) / (2 * PI)) in *.
  destruct (simulate_sweep (Fin R) (Fin L) (Fin C) tol_R tol_L tol_C V
              (Fin <$> fmin) (Fin <$> fmax) n nom Hnom Hn)
    as (ms & sim & _ & Hsim & _ & Hfreqs & _).
  cbv zeta in Hfreqs. rewrite Hf0 in Hfreqs.
  destruct (effective_range_pos fmin fmax x Hx) as (lo & hi & Hrng & Hlo).
  rewrite Hrng in Hfreqs. cbn [fst snd] in Hfreqs.
  destruct (logspace_real lo hi n ltac:(lra) Hn) as (fs & Hfs & Hlen & Hall & Hfirst & Hlast).
  rewrite Hfs in Hfreqs. injection Hfreqs as Hfreqs.
  exists sim, fs, lo, hi.
  split; [exact Hsim |]. split; [symmetry; exact Hfreqs |].
  split; [exact Hlen |]. split; [exact Hlo |]. split; [exact Hall |].
  split; [exact Hfirst |]. split; [exact Hlast |]. split.
  - intros Hnone. rewrite effective_range_auto in Hrng.
    + injection Hrng as <- <-. split; reflexivity.
    + exact Hx.
    + destruct Hnone as [-> | ->]; [left | right]; reflexivity.
  - intros a b -> -> [Ha Hab]. cbn [fmap option_fmap option_map] in Hrng.
    rewrite effective_range_valid in Hrng by assumption.
    injection Hrng as <- <-. split; reflexivity.
Qed.

Lemma sweep_frequencies_witness :
  exists sim fs lo hi,
    simulate_response_with_tolerances (Fin 100) (Fin 1e-3) (Fin 1e-6) (Fin 0.05) (Fin 0.1)
      (Fin 0.1) (Fin 1) (Fin <$> Some 100) (Fin <$> Some 1e5) 500 = Ok sim
    /\ sim_freqs sim = map Fin fs
    /\ length fs = Z.to_nat 500
    /\ 0 < lo < hi
    /\ Forall (fun f => lo <= f <= hi) fs
    /\ ((1 <= 500)%Z -> nth_error fs 0 = Some lo)
    /\ ((2 <= 500)%Z -> nth_error fs (Z.to_nat 500 - 1) = Some hi)
    /\ (Some 100 = None \/ Some 1e5 = None ->
        lo = 1 / sqrt (1e-3 * 1e-6) / (2 * PI) / 10 /\ hi = 1 / sqrt (1e-3 * 1e-6) / (2 * PI) * 10)
    /\ (forall a b, Some 100 = Some a -> Some 1e5 = Some b -> 0 < a < b -> lo = a /\ hi = b).
Proof.
  apply (sweep_frequencies (Some 100) (Some 1e5) 100 1e-3 1e-6
           (Fin 0.05) (Fin 0.1) (Fin 0.1) (Fin 1) 500); lra || lia.
Defined.

(** ** The tolerance envelope *)

Lemma minimum_Fin (x y : R) :
  exists z, Np.minimum (Fin x) (Fin y) = Fin z /\ z <= x /\ z <= y /\ (z = x \/ z = y).
Proof.
  unfold Np.minimum, fle, Rleb. destruct (Rle_dec x y).
  - exists x. split; [reflexivity |]. split; [lra |]. split; [lra |]. left; reflexivity.
  - exists y. split; [reflexivity |]. split; [lra |]. split; [lra |]. right; reflexivity.
Qed.

Lemma maximum_Fin (x y : R) :
  exists z, Np.maximum (Fin x) (Fin y) = Fin z /\ x <= z /\ y <= z /\ (z = x \/ z = y).
Proof.
  unfold Np.maximum, fge, fle, Rleb. destruct (Rle_dec y x).
  - exists x. split; [reflexivity |]. split; [lra |]. split; [lra |]. left; reflexivity.
  - exists y. split; [reflexivity |]. split; [lra |]. split; [lra |]. right; reflexivity.
Qed.

Lemma map_Fin_inj (u v : list R) : map Fin u = map Fin v -> u = v.
Proof.
  revert v. induction u as [| x u IH]; intros [| y v] H; try discriminate; [reflexivity |].
  cbn [map] in H. injection H as -> H. f_equal. apply IH, H.
Qed.

Lemma Forall2_rel_trans {A : Type} (rel : A -> A -> Prop) (u v w : list A) :
  (forall x y z : A, rel x y -> rel y z -> rel x z) ->
  Forall2 rel u v -> Forall2 rel v w -> Forall2 rel u w.
Proof.
  intros Ht Huv. revert w. induction Huv as [| x y u v Hxy Huv IH]; intros w Hvw;
    inversion Hvw; subst; constructor; [eapply Ht; eassumption | apply IH; assumption].
Qed.

Lemma Forall2_rel_refl {A : Type} (rel : A -> A -> Prop) (u : list A) :
  (forall x : A, rel x x) -> Forall2 rel u u.
Proof. intros Hr. induction u; constructor; [apply Hr | assumption]. Qed.

Section Envelope.

(** An element-wise selection ([np.minimum] or [np.maximum]) and the
    order [rel] in which its result comes before both arguments. *)
Variable op : float -> float -> float.
Variable op_arr : list float -> list float -> list float.
Variable rel : R -> R -> Prop.

Hypothesis rel_refl : forall x : R, rel x x.
Hypothesis rel_trans : forall x y z : R, rel x y -> rel y z -> rel x z.
Hypothesis op_Fin :
  forall x y : R, exists z, op (Fin x) (Fin y) = Fin z /\ rel z x /\ rel z y /\ (z = x \/ z = y).
Hypothesis op_arr_cons :
  forall (a b : float) (u v : list float), op_arr (a :: u) (b :: v) = op a b :: op_arr u v.
Hypothesis op_arr_nil : op_arr [] [] = [].

Lemma op_arr_real (P : R -> Prop) (us vs : list R) :
  length us = length vs -> Forall P us -> Forall P vs ->
  exists ws,
    op_arr (map Fin us) (map Fin vs) = map Fin ws
    /\ length ws = length us /\ Forall P ws
    /\ Forall2 rel ws us /\ Forall2 rel ws vs.
Proof.
  revert vs. induction us as [| x us IH]; intros [| y vs] Hlen Hu Hv; try discriminate.
  - exists []. cbn [map]. rewrite op_arr_nil. repeat split; constructor.
  - injection Hlen as Hlen.
    inversion Hu as [| ? ? Hx Hu']; subst. inversion Hv as [| ? ? Hy Hv']; subst.
    destruct (IH vs Hlen Hu' Hv') as (ws & Hws & Hl & HP & H1 & H2).
    destruct (op_Fin x y) as (z & Hz & Hzx & Hzy & Hsel).
    exists (z :: ws). cbn [map length]. rewrite op_arr_cons, Hz, Hws, Hl.
    split; [reflexivity |]. split; [reflexivity |].
    split; [constructor; [destruct Hsel as [-> | ->]; assumption | exact HP] |].
    split; constructor; assumption.
Qed.

Lemma fold_envelope {X : Type} (curve : X -> list float) (P : R -> Prop) (n : nat)
    (cs : list X) :
  (forall c : X, In c cs -> exists rs, curve c = map Fin rs /\ length rs = n /\ Forall P rs) ->
  forall start : list R,
    length start = n -> Forall P start ->
    exists ws,
      fold_left (fun acc c => op_arr acc (curve c)) cs (map Fin start) = map Fin ws
      /\ length ws = n /\ Forall P ws /\ Forall2 rel ws start
      /\ (forall (c : X) (rs : list R), In c cs -> curve c = map Fin rs -> Forall2 rel ws rs).
Proof.
  induction cs as [| c cs IH]; intros Hcs start Hlen HP.
  - exists start. cbn [fold_left]. split; [reflexivity |]. split; [exact Hlen |].
    split; [exact HP |]. split; [apply Forall2_rel_refl, rel_refl |]. intros c rs [].
  - destruct (Hcs c (or_introl eq_refl)) as (rs & Hrs & Hrl & HrP).
    destruct (op_arr_real P start rs ltac:(congruence) HP HrP) as (w1 & Hw1 & Hl1 & HP1 & H1s & H1r).
    destruct (IH (fun c' Hc' => Hcs c' (or_intror Hc')) w1 ltac:(congruence) HP1)
      as (ws & Hws & Hl & HPw & Hw & Hall).
    exists ws. cbn [fold_left]. rewrite Hrs, Hw1, Hws.
    split; [reflexivity |]. split; [exact Hl |]. split; [exact HPw |].
    split; [exact (Forall2_rel_trans rel _ _ _ rel_trans Hw H1s) |].
    intros c' rs' [<- | Hc'] Hrs'.
    + rewrite Hrs in Hrs'. apply map_Fin_inj in Hrs'. subst rs'.
      exact (Forall2_rel_trans rel _ _ _ rel_trans Hw H1r).
    + exact (Hall c' rs' Hc' Hrs').
Qed.

End Envelope.

Lemma fold_minimum_envelope {X : Type} (curve : X -> list float) (P : R -> Prop) (n : nat)
    (cs : list X) :
  (forall c : X, In c cs -> exists rs, curve c = map Fin rs /\ length rs = n /\ Forall P rs) ->
  forall start : list R,
    length start = n -> Forall P start ->
    exists ws,
      fold_left (fun acc c => Np.minimum_arr acc (curve c)) cs (map Fin start) = map Fin ws
      /\ length ws = n /\ Forall P ws /\ Forall2 Rle ws start
      /\ (forall (c : X) (rs : list R), In c cs -> curve c = map Fin rs -> Forall2 Rle ws rs).
Proof.
  apply (fold_envelope Np.minimum Np.minimum_arr Rle).
  - intros x. lra.
  - intros x y z. lra.
  - intros x y. destruct (minimum_Fin x y) as (z & Hz & H1 & H2 & H3). exists z. tauto.
  - reflexivity.
  - reflexivity.
Qed.

Lemma fold_maximum_envelope {X : Type} (curve : X -> list float) (P : R -> Prop) (n : nat)
    (cs : list X) :
  (forall c : X, In c cs -> exists rs, curve c = map Fin rs /\ length rs = n /\ Forall P rs) ->
  forall start : list R,
    length start = n -> Forall P start ->
    exists ws,
      fold_left (fun acc c => Np.maximum_arr acc (curve c)) cs (map Fin start) = map Fin ws
      /\ length ws = n /\ Forall P ws /\ Forall2 Rge ws start
      /\ (forall (c : X) (rs : list R), In c cs -> curve c = map Fin rs -> Forall2 Rge ws rs).
Proof.
  apply (fold_envelope Np.maximum Np.maximum_arr Rge).
  - intros x. lra.
  - intros x y z. lra.
  - intros x y. destruct (maximum_Fin x y) as (z & Hz & H1 & H2 & H3). exists z.
    repeat split; try assumption; lra.
  - reflexivity.
  - reflexivity.
Qed.

Lemma Forall2_Rge_flip (u v : list R) : Forall2 Rge u v -> Forall2 Rle v u.
Proof. induction 1; constructor; [lra | assumption]. Qed.

(** [np.max] and [np.min] of a non-empty array of real numbers. *)
Lemma fold_maximum_real (l : list R) :
  forall a : R,
  exists m, fold_left Np.maximum (map Fin l) (Fin a) = Fin m
            /\ In m (a :: l) /\ Forall (fun x => x <= m) (a :: l).
Proof.
  induction l as [| x l IH]; intros a.
  - exists a. cbn. split; [reflexivity |]. split; [left; reflexivity |].
    constructor; [lra | constructor].
  - destruct (maximum_Fin a x) as (z & Hz & Haz & Hxz & Hsel).
    destruct (IH z) as (m & Hm & Hin & Hall).
    exists m. cbn [map fold_left]. rewrite Hz, Hm. split; [reflexivity |].
    inversion Hall as [| ? ? Hzm Hl]; subst.
    split.
    + destruct Hin as [<- | Hin]; [| right; right; exact Hin].
      destruct Hsel as [-> | ->]; [left | right; left]; reflexivity.
    + constructor; [lra |]. constructor; [lra | exact Hl].
Qed.

Lemma fold_minimum_real (l : list R) :
  forall a : R,
  exists m, fold_left Np.minimum (map Fin l) (Fin a) = Fin m
            /\ In m (a :: l) /\ Forall (fun x => m <= x) (a :: l).
Proof.
  induction l as [| x l IH]; intros a.
  - exists a. cbn. split; [reflexivity |]. split; [left; reflexivity |].
    constructor; [lra | constructor].
  - destruct (minimum_Fin a x) as (z & Hz & Haz & Hxz & Hsel).
    destruct (IH z) as (m & Hm & Hin & Hall).
    exists m. cbn [map fold_left]. rewrite Hz, Hm. split; [reflexivity |].
    inversion Hall as [| ? ? Hzm Hl]; subst.
    split.
    + destruct Hin as [<- | Hin]; [| right; right; exact Hin].
      destruct Hsel as [-> | ->]; [left | right; left]; reflexivity.
    + constructor; [lra |]. constructor; [lra | exact Hl].
Qed.

Lemma np_max_real (l : list R) :
  l <> [] ->
  exists m, Np.max (map Fin l) = Ok (Fin m) /\ In m l /\ Forall (fun x => x <= m) l.
Proof.
  destruct l as [| a l]; [contradiction |]. intros _.
  destruct (fold_maximum_real l a) as (m & Hm & Hin & Hall).
  exists m. cbn [map Np.max]. rewrite Hm. repeat split; assumption.
Qed.

Lemma np_min_real (l : list R) :
  l <> [] ->
  exists m, Np.min (map Fin l) = Ok (Fin m) /\ In m l /\ Forall (fun x => m <= x) l.
Proof.
  destruct l as [| a l]; [contradiction |]. intros _.
  destruct (fold_minimum_real l a) as (m & Hm & Hin & Hall).
  exists m. cbn [map Np.min]. rewrite Hm. repeat split; assumption.
Qed.

(** The output-voltage curve of a corner with a positive resistance, on
    real frequencies and for a non-negative input amplitude. *)
Lemma corner_vout_real (fs : list R) (R L C V : R) :
  0 < R -> 0 <= V ->
  exists vs,
    corner_vout (map Fin fs) (Fin V) (Fin R, Fin L, Fin C) = map Fin vs
    /\ length vs = length fs
    /\ Forall (fun v => 0 <= v <= V) vs.
Proof.
  intros HR HV. unfold corner_vout, _transfer_gain.
  destruct (gain_curve_bounds fs R L C 1e-30 HR) as (gs & Hgs & Hlen & Hall).
  cbv zeta. rewrite Hgs.
  exists (map (fun g => g * V) gs).
  split; [rewrite !map_map; reflexivity |].
  split; [rewrite length_map; exact Hlen |].
  apply List.Forall_forall. intros v Hv. apply in_map_iff in Hv as (g & <- & Hg).
  rewrite List.Forall_forall in Hall. specialize (Hall g Hg). nra.
Qed.

(** The corners of real nominal values and real tolerances are triples
    of real numbers. *)
Lemma tolerance_corners_real (R L C tR tL tC : R) :
  Forall (fun corner => exists r l c, corner = (Fin r, Fin l, Fin c))
    (tolerance_corners (Fin R) (Fin L) (Fin C) (Fin tR) (Fin tL) (Fin tC)).
Proof.
  unfold tolerance_corners. cbn [flat_map map app].
  rewrite !fsub_Fin, !fadd_Fin, !fmul_Fin.
  repeat constructor; eexists _, _, _; reflexivity.
Qed.

Lemma surviving_real (R L C tR tL tC : R) (corner : float * float * float) :
  In corner (surviving (tolerance_corners (Fin R) (Fin L) (Fin C) (Fin tR) (Fin tL) (Fin tC))) ->
  exists r l c, corner = (Fin r, Fin l, Fin c) /\ 0 < r /\ 0 < l /\ 0 < c.
Proof.
  unfold surviving. intros [Hin Hdeg]%filter_In.
  pose proof (tolerance_corners_real R L C tR tL tC) as Hreal.
  rewrite List.Forall_forall in Hreal. destruct (Hreal _ Hin) as (r & l & c & ->).
  exists r, l, c. split; [reflexivity |].
  apply negb_true_iff in Hdeg. unfold degenerate in Hdeg.
  apply orb_false_elim in Hdeg as [Hdeg Hc]. apply orb_false_elim in Hdeg as [Hr Hl].
  unfold fle, Rleb in Hr, Hl, Hc.
  destruct (Rle_dec r 0); [discriminate |]. destruct (Rle_dec l 0); [discriminate |].
  destruct (Rle_dec c 0); [discriminate |]. lra.
Qed.

Lemma bind_inv {A B : Type} (m : result A) (f : A -> result B) (b : B) :
  (m ≫= f) = Ok b -> exists a : A, m = Ok a /\ f a = Ok b.
Proof. destruct m as [a | e]; [intros H; exists a; split; [reflexivity | exact H] | discriminate]. Qed.

(** [Vout_max_global] is the maximum of the upper envelope, or 0 for an
    empty sweep. *)
Lemma simulate_vmax (R_nom L_nom C_nom tol_R tol_L tol_C V : float)
    (fmin fmax : option float) (n : Z) (sim : simulation) :
  simulate_response_with_tolerances R_nom L_nom C_nom tol_R tol_L tol_C V fmin fmax n = Ok sim ->
  match max_curve_Vout sim with
  | [] => Ok (Fin 0)
  | _ :: _ => Np.max (max_curve_Vout sim)
  end = Ok (Vout_max_global sim).
Proof.
  unfold simulate_response_with_tolerances. intros H.
  apply bind_inv in H as (nom & _ & H).
  destruct (effective_range (m_f0 nom) fmin fmax) as [lo hi].
  apply bind_inv in H as (freqs & _ & H).
  apply bind_inv in H as (st & _ & H).
  apply bind_inv in H as (rg0 & _ & H). apply bind_inv in H as (rg1 & _ & H).
  apply bind_inv in H as (rg2 & _ & H). apply bind_inv in H as (rg3 & _ & H).
  apply bind_inv in H as (rg4 & _ & H).
  apply bind_inv in H as (vmax & Hv & H).
  injection H as <-. cbn [max_curve_Vout Vout_max_global]. exact Hv.
Qed.

(** X6.  For [R, L, C > 0], real tolerances, a non-negative input
    amplitude and real frequency bounds (or none), the three curves of
    [simulate_response_with_tolerances] are arrays of [num_points] real
    numbers with, at every frequency,
    [0 <= minimum <= nominal <= maximum <= Vout_max_global <= V_in]; the
    curve of every corner that passes the guard lies between the minimum
    and the maximum curve.  [Vout_max_global] is 0 for an empty sweep. *)
Theorem envelope_brackets_nominal (fmin fmax : option R) (R L C tR tL tC V : R) (n : Z) :
  0 < R -> 0 < L -> 0 < C -> 0 <= V -> (0 <= n)%Z ->
  exists sim noms mins maxs vmax,
    simulate_response_with_tolerances (Fin R) (Fin L) (Fin C) (Fin tR) (Fin tL) (Fin tC)
      (Fin V) (Fin <$> fmin) (Fin <$> fmax) n = Ok sim
    /\ nom_curve_Vout sim = map Fin noms
    /\ min_curve_Vout sim = map Fin mins
    /\ max_curve_Vout sim = map Fin maxs
    /\ Vout_max_global sim = Fin vmax
    /\ length noms = Z.to_nat n /\ length mins = Z.to_nat n /\ length maxs = Z.to_nat n
    /\ Forall (fun v => 0 <= v) mins
    /\ Forall2 Rle mins noms /\ Forall2 Rle noms maxs
    /\ Forall (fun v => v <= vmax) maxs
    /\ 0 <= vmax <= V
    /\ (n = 0%Z -> vmax = 0)
    /\ (forall corner,
          In corner (surviving (tolerance_corners (Fin R) (Fin L) (Fin C)
                                  (Fin tR) (Fin tL) (Fin tC))) ->
          exists vs,
            corner_vout (sim_freqs sim) (Fin V) corner = map Fin vs
            /\ Forall2 Rle mins vs /\ Forall2 Rle vs maxs).
Proof.
  intros HR HL HC HV Hn.
  destruct (compute_metrics_pos R L C HR HL HC) as (nom & Hnom & _ & Hf0).
  assert (Hx : 0 < 1 / sqrt (L * C) / (2 * PI)) by pos.
  set (x := 1 / sqrt (L * C) / (2 * PI)) in *.
  destruct (simulate_sweep (Fin R) (Fin L) (Fin C) (Fin tR) (Fin tL) (Fin tC) (Fin V)
              (Fin <$> fmin) (Fin <$> fmax) n nom Hnom Hn)
    as (ms & sim & _ & Hsim & _ & Hfreqs & Hcurve & Hmin & Hmax & _).
  cbv zeta in Hfreqs, Hmin, Hmax. rewrite Hf0 in Hfreqs.
  destruct (effective_range_pos fmin fmax x Hx) as (lo & hi & Hrng & Hlo).
  rewrite Hrng in Hfreqs. cbn [fst snd] in Hfreqs.
  destruct (logspace_real lo hi n ltac:(lra) Hn) as (fs & Hfs & Hlen & _).
  rewrite Hfs in Hfreqs. injection Hfreqs as Hfreqs.
  pose proof (simulate_vmax _ _ _ _ _ _ _ _ _ _ _ Hsim) as Hvmax.
  rewrite <- Hfreqs in *.
  destruct (corner_vout_real fs R L C V HR HV) as (noms & Hnoms & Hnlen & Hnall).
  rewrite Hnoms in Hcurve. rewrite Hcurve in Hmin, Hmax.
  set (alive := surviving (tolerance_corners (Fin R) (Fin L) (Fin C) (Fin tR) (Fin tL) (Fin tC)))
    in *.
  assert (Halive : forall corner, In corner alive ->
            exists rs, corner_vout (map Fin fs) (Fin V) corner = map Fin rs
                       /\ length rs = length fs /\ Forall (fun v => 0 <= v <= V) rs).
  { intros corner Hin. apply surviving_real in Hin as (r & l & c & -> & Hr & _).
    apply corner_vout_real; assumption. }
  destruct (fold_minimum_envelope (corner_vout (map Fin fs) (Fin V)) _ (length fs) alive Halive
              noms Hnlen Hnall) as (mins & Hmins & Hminlen & Hminall & Hminnom & Hmincs).
  destruct (fold_maximum_envelope (corner_vout (map Fin fs) (Fin V)) _ (length fs) alive Halive
              noms Hnlen Hnall) as (maxs & Hmaxs & Hmaxlen & Hmaxall & Hmaxnom & Hmaxcs).
  rewrite Hmins in Hmin. rewrite Hmaxs in Hmax. rewrite Hmax in Hvmax.
  assert (Hv : exists vmax, Vout_max_global sim = Fin vmax
                            /\ Forall (fun v => v <= vmax) maxs /\ 0 <= vmax <= V
                            /\ (n = 0%Z -> vmax = 0)).
  { destruct maxs as [| m0 maxs'] eqn:Emaxs.
    - cbn [map] in Hvmax. injection Hvmax as <-. exists 0.
      split; [reflexivity |]. split; [constructor |]. split; [lra | reflexivity].
    - rewrite <- Emaxs in *.
      destruct (np_max_real maxs ltac:(rewrite Emaxs; discriminate)) as (m & Hm & Hin & Hall).
      assert (Hne : map Fin maxs = Fin m0 :: map Fin maxs') by (rewrite Emaxs; reflexivity).
      rewrite Hne in Hvmax at 1. rewrite Hm in Hvmax. injection Hvmax as <-.
      exists m. split; [reflexivity |]. split; [exact Hall |].
      rewrite List.Forall_forall in Hmaxall. split; [apply (Hmaxall m Hin) |].
      intros ->. rewrite Emaxs in Hmaxlen. cbn in Hmaxlen. rewrite <- Hmaxlen in Hlen.
      cbn in Hlen. discriminate. }
  destruct Hv as (vmax & Hvm & Hvall & Hvb & Hv0).
  exists sim, noms, mins, maxs, vmax.
  split; [exact Hsim |]. split; [exact Hcurve |]. split; [exact Hmin |]. split; [exact Hmax |].
  split; [exact Hvm |]. split; [congruence |]. split; [congruence |]. split; [congruence |].
  split; [revert Hminall; apply List.Forall_impl; intros v Hv; lra |].
  split; [exact Hminnom |]. split; [apply Forall2_Rge_flip, Hmaxnom |].
  split; [exact Hvall |]. split; [exact Hvb |]. split; [exact Hv0 |].
  intros corner Hin. destruct (Halive corner Hin) as (vs & Hvs & _ & _).
  exists vs. rewrite <- Hfreqs. split; [exact Hvs |].
  split; [exact (Hmincs corner vs Hin Hvs) | apply Forall2_Rge_flip, (Hmaxcs corner vs Hin Hvs)].
Qed.

Lemma envelope_brackets_nominal_witness :
  exists sim noms mins maxs vmax,
    simulate_response_with_tolerances (Fin 100) (Fin 1e-3) (Fin 1e-6) (Fin 0.05) (Fin 0.1)
      (Fin 0.1) (Fin 1) (Fin <$> None) (Fin <$> None) 500 = Ok sim
    /\ nom_curve_Vout sim = map Fin noms
    /\ min_curve_Vout sim = map Fin mins
    /\ max_curve_Vout sim = map Fin maxs
    /\ Vout_max_global sim = Fin vmax
    /\ length noms = Z.to_nat 500 /\ length mins = Z.to_nat 500 /\ length maxs = Z.to_nat 500
    /\ Forall (fun v => 0 <= v) mins
    /\ Forall2 Rle mins noms /\ Forall2 Rle noms maxs
    /\ Forall (fun v => v <= vmax) maxs
    /\ 0 <= vmax <= 1
    /\ (500%Z = 0%Z -> vmax = 0)
    /\ (forall corner,
          In corner (surviving (tolerance_corners (Fin 100) (Fin 1e-3) (Fin 1e-6)
                                  (Fin 0.05) (Fin 0.1) (Fin 0.1))) ->
          exists vs,
            corner_vout (sim_freqs sim) (Fin 1) corner = map Fin vs
            /\ Forall2 Rle mins vs /\ Forall2 Rle vs maxs).
Proof.
  apply (envelope_brackets_nominal None None 100 1e-3 1e-6 0.05 0.1 0.1 1 500); lra || lia.
Defined.

(** ** The corner analysis on valid tolerances *)

(** The two metric functions are one computation, on every input, the
    failing ones included. *)
Lemma compute_metrics_eq (R L C : float) :
  _compute_metrics R L C = calculate_nominal_metrics R L C.
Proof.
  unfold _compute_metrics, calculate_nominal_metrics, calculate_f1_f2.
  destruct (py_div (Fin 1) R) as [a |]; [| reflexivity]. rewrite !bind_Ok.
  destruct (py_div L C) as [b |]; [| reflexivity]. rewrite !bind_Ok.
  destruct (py_div R (Fin 2 * L)) as [c |]; [| reflexivity]. rewrite !bind_Ok.
  destruct (py_div (Fin 1) (L * C)) as [d |]; reflexivity.
Qed.

Lemma calculate_nominal_metrics_of (R L C : R) :
  0 < R -> 0 < L -> 0 < C ->
  calculate_nominal_metrics (Fin R) (Fin L) (Fin C) = Ok (metrics_of R L C).
Proof. intros HR HL HC. rewrite calculate_nominal_metrics_pos by assumption. reflexivity. Qed.

Lemma tolerance_corners_Fin (R L C tR tL tC : R) :
  tolerance_corners (Fin R) (Fin L) (Fin C) (Fin tR) (Fin tL) (Fin tC)
  = map corner_of_reals (real_corners R L C tR tL tC).
Proof.
  unfold tolerance_corners, real_corners. cbn [flat_map map app corner_of_reals].
  rewrite !fsub_Fin, !fadd_Fin, !fmul_Fin. reflexivity.
Qed.

(** With tolerances below 100 % every corner of positive nominal values
    is positive. *)
Lemma real_corners_pos (R L C tR tL tC : R) :
  0 < R -> 0 < L -> 0 < C -> -1 < tR < 1 -> -1 < tL < 1 -> -1 < tC < 1 ->
  Forall (fun '(r, l, c) => 0 < r /\ 0 < l /\ 0 < c) (real_corners R L C tR tL tC).
Proof.
  intros HR HL HC HtR HtL HtC. unfold real_corners. cbn [flat_map map app].
  repeat constructor; nra.
Qed.

Lemma surviving_all_pos (cs : list (R * R * R)) :
  Forall (fun '(r, l, c) => 0 < r /\ 0 < l /\ 0 < c) cs ->
  surviving (map corner_of_reals cs) = map corner_of_reals cs.
Proof.
  induction 1 as [| [[r l] c] cs (Hr & Hl & Hc) _ IH]; [reflexivity |].
  cbn [map corner_of_reals]. rewrite surviving_cons, degenerate_pos, IH by assumption.
  reflexivity.
Qed.

Lemma mapM_metrics_pos (f : float * float * float -> result metrics) (cs : list (R * R * R)) :
  (forall r l c, f (Fin r, Fin l, Fin c) = calculate_nominal_metrics (Fin r) (Fin l) (Fin c)) ->
  Forall (fun '(r, l, c) => 0 < r /\ 0 < l /\ 0 < c) cs ->
  result_mapM f (map corner_of_reals cs) = Ok (map (fun '(r, l, c) => metrics_of r l c) cs).
Proof.
  intros Hf. induction 1 as [| [[r l] c] cs (Hr & Hl & Hc) _ IH]; [reflexivity |].
  cbn [map corner_of_reals]. rewrite mapM_cons, Hf, calculate_nominal_metrics_of by assumption.
  rewrite bind_Ok, IH. reflexivity.
Qed.

(** The range of one metric over a non-empty list of real values. *)
Lemma range_of_real (nominal : float) (l : list R) :
  l <> [] ->
  exists lo hi,
    Np.min (map Fin l) = Ok (Fin lo) /\ Np.max (map Fin l) = Ok (Fin hi)
    /\ range_of nominal (map Fin l) = Ok (Fin lo, Fin hi)
    /\ In lo l /\ In hi l
    /\ Forall (fun x => lo <= x <= hi) l.
Proof.
  intros Hne.
  destruct (np_min_real l Hne) as (lo & Hlo & Hinlo & Halllo).
  destruct (np_max_real l Hne) as (hi & Hhi & Hinhi & Hallhi).
  exists lo, hi. split; [exact Hlo |]. split; [exact Hhi |]. split.
  - unfold range_of. destruct l as [| a l]; [contradiction |].
    change (map Fin (a :: l)) with (Fin a :: map Fin l) at 1. cbv iota.
    rewrite Hlo, Hhi. reflexivity.
  - split; [exact Hinlo |]. split; [exact Hinhi |].
    rewrite List.Forall_forall in *. intros x Hx. split; [apply Halllo | apply Hallhi]; exact Hx.
Qed.

Lemma metric_range (proj : metrics -> float) (g : R * R * R -> R) (cs : list (R * R * R))
    (nominal : float) :
  cs <> [] ->
  (forall r l c, proj (metrics_of r l c) = Fin (g (r, l, c))) ->
  exists lo hi,
    Np.min (map proj (map (fun '(r, l, c) => metrics_of r l c) cs)) = Ok (Fin lo)
    /\ Np.max (map proj (map (fun '(r, l, c) => metrics_of r l c) cs)) = Ok (Fin hi)
    /\ range_of nominal (map proj (map (fun '(r, l, c) => metrics_of r l c) cs))
       = Ok (Fin lo, Fin hi)
    /\ In lo (map g cs) /\ In hi (map g cs)
    /\ Forall (fun x => lo <= x <= hi) (map g cs).
Proof.
  intros Hne Hproj.
  assert (E : map proj (map (fun '(r, l, c) => metrics_of r l c) cs) = map Fin (map g cs)).
  { rewrite !map_map. apply map_ext. intros [[r l] c]. apply Hproj. }
  rewrite E. apply range_of_real. destruct cs; [contradiction | discriminate].
Qed.

Lemma real_corners_nonempty (R L C tR tL tC : R) : real_corners R L C tR tL tC <> [].
Proof. discriminate. Qed.

(** X7.  With positive nominal values and tolerances below 100 %, so that
    no corner is degenerate, the two corner analyses agree:
    [simulate_response_with_tolerances] returns the metric ranges of
    [calculate_min_max_metrics] and the nominal metrics of
    [calculate_nominal_metrics], as its docstring says. *)
Theorem simulate_ranges_agree (R L C tR tL tC : R) (V : float) (fmin fmax : option float)
    (n : Z) :
  0 < R -> 0 < L -> 0 < C -> -1 < tR < 1 -> -1 < tL < 1 -> -1 < tC < 1 -> (0 <= n)%Z ->
  exists nom rg sim,
    calculate_nominal_metrics (Fin R) (Fin L) (Fin C) = Ok nom
    /\ calculate_min_max_metrics (Fin R) (Fin L) (Fin C) (Fin tR) (Fin tL) (Fin tC) = Ok rg
    /\ simulate_response_with_tolerances (Fin R) (Fin L) (Fin C) (Fin tR) (Fin tL) (Fin tC)
         V fmin fmax n = Ok sim
    /\ metrics_nom sim = nom
    /\ sim_ranges sim = rg.
Proof.
  intros HR HL HC HtR HtL HtC Hn.
  destruct (compute_metrics_pos R L C HR HL HC) as (nom & Hnom & Hnominal & _).
  destruct (simulate_sweep (Fin R) (Fin L) (Fin C) (Fin tR) (Fin tL) (Fin tC) V fmin fmax n
              nom Hnom Hn)
    as (ms & sim & Hms & Hsim & Hmn & _ & _ & _ & _ & H0 & H1 & H2 & H3 & H4).
  cbv zeta in Hms.
  pose proof (real_corners_pos R L C tR tL tC HR HL HC HtR HtL HtC) as Hpos.
  pose proof (real_corners_nonempty R L C tR tL tC) as Hne.
  rewrite tolerance_corners_Fin, surviving_all_pos in Hms by exact Hpos.
  rewrite (mapM_metrics_pos _ _ (fun r l c => compute_metrics_eq (Fin r) (Fin l) (Fin c)) Hpos)
    in Hms.
  assert (Ems : ms = map (fun '(r, l, c) => metrics_of r l c) (real_corners R L C tR tL tC))
    by congruence.
  subst ms. clear Hms.
  set (cs := real_corners R L C tR tL tC) in *.
  destruct (metric_range m_f0 (fun '(r, l, c) => f0_of l c) cs (m_f0 nom) Hne
              ltac:(reflexivity)) as (a0 & b0 & Ea0 & Eb0 & Er0 & _).
  destruct (metric_range m_Q (fun '(r, l, c) => Q_of r l c) cs (m_Q nom) Hne
              ltac:(reflexivity)) as (a1 & b1 & Ea1 & Eb1 & Er1 & _).
  destruct (metric_range m_BW (fun '(r, l, c) => f2_of r l c - f1_of r l c) cs (m_BW nom) Hne
              ltac:(reflexivity)) as (a2 & b2 & Ea2 & Eb2 & Er2 & _).
  destruct (metric_range m_f1 (fun '(r, l, c) => f1_of r l c) cs (m_f1 nom) Hne
              ltac:(reflexivity)) as (a3 & b3 & Ea3 & Eb3 & Er3 & _).
  destruct (metric_range m_f2 (fun '(r, l, c) => f2_of r l c) cs (m_f2 nom) Hne
              ltac:(reflexivity)) as (a4 & b4 & Ea4 & Eb4 & Er4 & _).
  exists nom. eexists. exists sim.
  split; [exact Hnominal |]. split.
  - unfold calculate_min_max_metrics. rewrite tolerance_corners_Fin. fold cs.
    rewrite (mapM_metrics_pos _ cs (fun r l c => eq_refl) Hpos), bind_Ok.
    rewrite Ea0, Eb0, Ea1, Eb1, Ea2, Eb2, Ea3, Eb3, Ea4, Eb4, !bind_Ok. reflexivity.
  - split; [exact Hsim |]. split; [exact Hmn |].
    rewrite Er0 in H0. rewrite Er1 in H1. rewrite Er2 in H2. rewrite Er3 in H3. rewrite Er4 in H4.
    destruct (sim_ranges sim) as [r0 r1 r2 r3 r4]. cbn [r_f0 r_Q r_BW r_f1 r_f2] in *.
    congruence.
Qed.

Lemma simulate_ranges_agree_witness :
  exists nom rg sim,
    calculate_nominal_metrics (Fin 100) (Fin 1e-3) (Fin 1e-6) = Ok nom
    /\ calculate_min_max_metrics (Fin 100) (Fin 1e-3) (Fin 1e-6) (Fin 0.05) (Fin 0.1) (Fin 0.1)
       = Ok rg
    /\ simulate_response_with_tolerances (Fin 100) (Fin 1e-3) (Fin 1e-6) (Fin 0.05) (Fin 0.1)
         (Fin 0.1) (Fin 1) None None 500 = Ok sim
    /\ metrics_nom sim = nom
    /\ sim_ranges sim = rg.
Proof.
  apply (simulate_ranges_agree 100 1e-3 1e-6 0.05 0.1 0.1 (Fin 1) None None 500); lra || lia.
Defined.

(** *** Monotonicity of the metrics in the components *)

Lemma Rinv_le_pos (x y : R) : 0 < x -> x <= y -> / y <= / x.
Proof. intros Hx Hxy. apply Rinv_le_contravar; assumption. Qed.

Lemma Rdiv_le_pos (a b c d : R) : 0 <= a <= b -> 0 < d <= c -> a / c <= b / d.
Proof.
  intros [Ha Hab] [Hd Hdc]. unfold Rdiv.
  assert (0 < / c) by (apply Rinv_0_lt_compat; lra).
  assert (/ c <= / d) by (apply Rinv_le_pos; lra).
  apply Rmult_le_compat; lra.
Qed.

Lemma f0_of_mono (l1 l2 c1 c2 : R) :
  0 < l1 <= l2 -> 0 < c1 <= c2 -> f0_of l2 c2 <= f0_of l1 c1.
Proof.
  intros [Hl1 Hl] [Hc1 Hc]. unfold f0_of.
  assert (H1 : 0 < sqrt (l1 * c1)) by pos.
  assert (H12 : sqrt (l1 * c1) <= sqrt (l2 * c2)) by (apply sqrt_le_1; nra).
  pose proof PI_RGT_0 as Hpi.
  apply Rdiv_le_pos; [| lra]. split; [apply Rlt_le; pos |].
  apply Rdiv_le_pos; lra.
Qed.

Lemma Q_of_mono (r1 r2 l1 l2 c1 c2 : R) :
  0 < r1 <= r2 -> 0 < l1 <= l2 -> 0 < c1 <= c2 -> Q_of r2 l1 c2 <= Q_of r1 l2 c1.
Proof.
  intros [Hr1 Hr] [Hl1 Hl] [Hc1 Hc]. unfold Q_of.
  assert (Hq : l1 / c2 <= l2 / c1) by (apply Rdiv_le_pos; lra).
  assert (H0 : 0 <= l1 / c2) by (apply Rlt_le; pos).
  apply Rmult_le_compat.
  - apply Rlt_le. pos.
  - apply sqrt_pos.
  - apply Rdiv_le_pos; lra.
  - apply sqrt_le_1; lra.
Qed.

Lemma BW_of_closed (r l c : R) :
  0 < l -> f2_of r l c - f1_of r l c = r / (2 * PI * l).
Proof. intros Hl. pose proof PI_RGT_0. unfold f1_of, f2_of. field. lra. Qed.

Lemma f2_of_mono (r1 r2 l1 l2 c1 c2 : R) :
  0 < r1 <= r2 -> 0 < l1 <= l2 -> 0 < c1 <= c2 -> f2_of r1 l2 c2 <= f2_of r2 l1 c1.
Proof.
  intros [Hr1 Hr] [Hl1 Hl] [Hc1 Hc]. unfold f2_of.
  pose proof PI_RGT_0 as Hpi.
  assert (Ha : 0 <= r1 / (2 * l2) <= r2 / (2 * l1)).
  { split; [apply Rlt_le; pos | apply Rdiv_le_pos; lra]. }
  assert (Hw : 0 <= 1 / (l2 * c2) <= 1 / (l1 * c1)).
  { split; [apply Rlt_le; pos | apply Rdiv_le_pos; [lra | split; [pos | nra]]]. }
  set (a1 := r1 / (2 * l2)) in *. set (a2 := r2 / (2 * l1)) in *.
  set (w1 := 1 / (l2 * c2)) in *. set (w2 := 1 / (l1 * c1)) in *.
  assert (Hs : sqrt (a1 * a1 + w1) <= sqrt (a2 * a2 + w2)) by (apply sqrt_le_1; nra).
  pose proof (sqrt_pos (a1 * a1 + w1)) as Hs0.
  apply Rdiv_le_pos; lra.
Qed.

Lemma f1_of_alt (r l c : R) :
  0 < r -> 0 < l -> 0 < c ->
  f1_of r l c = 1 / (2 * PI * (c * r / 2 + sqrt (c * r / 2 * (c * r / 2) + l * c))).
Proof.
  intros Hr Hl Hc. unfold f1_of. pose proof PI_RGT_0 as Hpi.
  assert (Ha : 0 < r / (2 * l)) by pos.
  assert (Hw : 0 < 1 / (l * c)) by pos.
  set (a := r / (2 * l)) in *.
  assert (Hs : 0 < sqrt (a * a + 1 / (l * c))) by (apply sqrt_lt_R0; nra).
  assert (Hs2 : sqrt (a * a + 1 / (l * c)) * sqrt (a * a + 1 / (l * c)) = a * a + 1 / (l * c))
    by (apply sqrt_sqrt; nra).
  set (s := sqrt (a * a + 1 / (l * c))) in *.
  assert (Hroot : sqrt (c * r / 2 * (c * r / 2) + l * c) = l * c * s).
  { apply sqrt_eq; [apply Rlt_le; pos |].
    transitivity (l * c * (l * c) * (s * s)); [ring |]. rewrite Hs2. unfold a. field. lra. }
  rewrite Hroot.
  assert (Hd : c * r / 2 + l * c * s = l * c * (a + s)) by (unfold a; field; lra).
  rewrite Hd.
  assert (Hlc : 0 < l * c) by pos.
  apply (Rmult_eq_reg_r (2 * PI * (l * c * (a + s)))); [| pos].
  transitivity (l * c * (s * s - a * a)); [field; lra |].
  rewrite Hs2. field. repeat split; lra.
Qed.

Lemma f1_of_mono (r1 r2 l1 l2 c1 c2 : R) :
  0 < r1 <= r2 -> 0 < l1 <= l2 -> 0 < c1 <= c2 -> f1_of r2 l2 c2 <= f1_of r1 l1 c1.
Proof.
  intros [Hr1 Hr] [Hl1 Hl] [Hc1 Hc].
  rewrite !f1_of_alt by lra. pose proof PI_RGT_0 as Hpi.
  assert (Hb : 0 < c1 * r1 / 2 <= c2 * r2 / 2) by (split; [pos | nra]).
  set (b1 := c1 * r1 / 2) in *. set (b2 := c2 * r2 / 2) in *.
  assert (Hs : sqrt (b1 * b1 + l1 * c1) <= sqrt (b2 * b2 + l2 * c2)) by (apply sqrt_le_1; nra).
  pose proof (sqrt_pos (b1 * b1 + l1 * c1)) as Hs0.
  apply Rdiv_le_pos; [lra |]. split; [pos | nra].
Qed.

Lemma real_corners_bounds (R L C tR tL tC r l c : R) :
  0 < R -> 0 < L -> 0 < C -> 0 <= tR < 1 -> 0 <= tL < 1 -> 0 <= tC < 1 ->
  In (r, l, c) (real_corners R L C tR tL tC) ->
  (0 < R * (1 - tR) /\ R * (1 - tR) <= r <= R * (1 + tR))
  /\ (0 < L * (1 - tL) /\ L * (1 - tL) <= l <= L * (1 + tL))
  /\ (0 < C * (1 - tC) /\ C * (1 - tC) <= c <= C * (1 + tC)).
Proof.
  intros HR HL HC HtR HtL HtC. unfold real_corners. cbn [flat_map map app In].
  intros H.
  repeat (destruct H as [H | H]; [injection H as <- <- <-; repeat split; nra |]).
  destruct H.
Qed.

Lemma In_real_corners (R L C tR tL tC fr fl fc : R) :
  fr = 1 - tR \/ fr = 1 + tR -> fl = 1 - tL \/ fl = 1 + tL -> fc = 1 - tC \/ fc = 1 + tC ->
  In (R * fr, L * fl, C * fc) (real_corners R L C tR tL tC).
Proof.
  intros Hr Hl Hc. unfold real_corners.
  apply in_flat_map. exists fr.
  split; [destruct Hr as [-> | ->]; [left | right; left]; reflexivity |].
  apply in_flat_map. exists fl.
  split; [destruct Hl as [-> | ->]; [left | right; left]; reflexivity |].
  apply in_map_iff. exists fc.
  split; [reflexivity | destruct Hc as [-> | ->]; [left | right; left]; reflexivity].
Qed.

(** The least and the greatest value of a metric over the corners are
    its values at two corners that bound it. *)
Lemma extreme_of (g : R * R * R -> R) (cs : list (R * R * R)) (lo hi : R) (klo khi : R * R * R) :
  In lo (map g cs) -> In hi (map g cs) -> Forall (fun x => lo <= x <= hi) (map g cs) ->
  In klo cs -> In khi cs -> (forall k, In k cs -> g klo <= g k <= g khi) ->
  lo = g klo /\ hi = g khi.
Proof.
  intros Hlo Hhi Hall Hklo Hkhi Hb. rewrite List.Forall_forall in Hall.
  apply in_map_iff in Hlo as (k1 & <- & Hk1). apply in_map_iff in Hhi as (k2 & <- & Hk2).
  pose proof (Hall (g klo) (in_map g cs klo Hklo)) as H1.
  pose proof (Hall (g khi) (in_map g cs khi Hkhi)) as H2.
  pose proof (Hb k1 Hk1) as H3. pose proof (Hb k2 Hk2) as H4.
  split; lra.
Qed.

(** X8.  With positive nominal values and tolerances in [0, 1), the
    ranges of [calculate_min_max_metrics] are attained at the worst-case
    corners: [f0] and [f1] are least with every component at its upper
    limit and greatest with every component at its lower limit; [Q] is
    least at (R high, L low, C high); the bandwidth is
    [R / (2 pi L)], least at (R low, L high); [f2] is least at
    (R low, L high, C high).  Each nominal metric lies within its
    range. *)
Theorem worst_case_corners (R L C tR tL tC : R) :
  0 < R -> 0 < L -> 0 < C -> 0 <= tR < 1 -> 0 <= tL < 1 -> 0 <= tC < 1 ->
  let Rlo := R * (1 - tR) in
  let Rhi := R * (1 + tR) in
  let Llo := L * (1 - tL) in
  let Lhi := L * (1 + tL) in
  let Clo := C * (1 - tC) in
  let Chi := C * (1 + tC) in
  exists nom rg,
    calculate_nominal_metrics (Fin R) (Fin L) (Fin C) = Ok nom
    /\ calculate_min_max_metrics (Fin R) (Fin L) (Fin C) (Fin tR) (Fin tL) (Fin tC) = Ok rg
    /\ r_f0 rg = (Fin (f0_of Lhi Chi), Fin (f0_of Llo Clo))
    /\ r_Q rg = (Fin (Q_of Rhi Llo Chi), Fin (Q_of Rlo Lhi Clo))
    /\ r_BW rg = (Fin (Rlo / (2 * PI * Lhi)), Fin (Rhi / (2 * PI * Llo)))
    /\ r_f1 rg = (Fin (f1_of Rhi Lhi Chi), Fin (f1_of Rlo Llo Clo))
    /\ r_f2 rg = (Fin (f2_of Rlo Lhi Chi), Fin (f2_of Rhi Llo Clo))
    /\ within (r_f0 rg) (m_f0 nom) /\ within (r_Q rg) (m_Q nom)
    /\ within (r_BW rg) (m_BW nom)
    /\ within (r_f1 rg) (m_f1 nom) /\ within (r_f2 rg) (m_f2 nom).
Proof.
  intros HR HL HC HtR HtL HtC Rlo Rhi Llo Lhi Clo Chi.
  pose proof (real_corners_pos R L C tR tL tC HR HL HC ltac:(lra) ltac:(lra) ltac:(lra)) as Hpos.
  pose proof (real_corners_nonempty R L C tR tL tC) as Hne.
  pose proof (fun r l c => real_corners_bounds R L C tR tL tC r l c HR HL HC HtR HtL HtC) as Hbnd.
  pose proof (In_real_corners R L C tR tL tC) as Hin.
  fold Rlo Rhi Llo Lhi Clo Chi in Hbnd.
  assert (Hlll : In (Rlo, Llo, Clo) (real_corners R L C tR tL tC)) by (apply Hin; tauto).
  assert (Hhhh : In (Rhi, Lhi, Chi) (real_corners R L C tR tL tC)) by (apply Hin; tauto).
  assert (Hhlh : In (Rhi, Llo, Chi) (real_corners R L C tR tL tC)) by (apply Hin; tauto).
  assert (Hlhl : In (Rlo, Lhi, Clo) (real_corners R L C tR tL tC)) by (apply Hin; tauto).
  assert (Hlhh : In (Rlo, Lhi, Chi) (real_corners R L C tR tL tC)) by (apply Hin; tauto).
  assert (Hhll : In (Rhi, Llo, Clo) (real_corners R L C tR tL tC)) by (apply Hin; tauto).
  assert (HRb : 0 < Rlo /\ Rlo <= R <= Rhi) by (unfold Rlo, Rhi; split; nra).
  assert (HLb : 0 < Llo /\ Llo <= L <= Lhi) by (unfold Llo, Lhi; split; nra).
  assert (HCb : 0 < Clo /\ Clo <= C <= Chi) by (unfold Clo, Chi; split; nra).
  set (cs := real_corners R L C tR tL tC) in *.
  destruct (metric_range m_f0 (fun '(r, l, c) => f0_of l c) cs (Fin 0) Hne
              ltac:(reflexivity)) as (a0 & b0 & Ea0 & Eb0 & _ & Ia0 & Ib0 & F0).
  destruct (metric_range m_Q (fun '(r, l, c) => Q_of r l c) cs (Fin 0) Hne
              ltac:(reflexivity)) as (a1 & b1 & Ea1 & Eb1 & _ & Ia1 & Ib1 & F1).
  destruct (metric_range m_BW (fun '(r, l, c) => f2_of r l c - f1_of r l c) cs (Fin 0) Hne
              ltac:(reflexivity)) as (a2 & b2 & Ea2 & Eb2 & _ & Ia2 & Ib2 & F2).
  destruct (metric_range m_f1 (fun '(r, l, c) => f1_of r l c) cs (Fin 0) Hne
              ltac:(reflexivity)) as (a3 & b3 & Ea3 & Eb3 & _ & Ia3 & Ib3 & F3).
  destruct (metric_range m_f2 (fun '(r, l, c) => f2_of r l c) cs (Fin 0) Hne
              ltac:(reflexivity)) as (a4 & b4 & Ea4 & Eb4 & _ & Ia4 & Ib4 & F4).
  destruct (extreme_of _ cs a0 b0 (Rhi, Lhi, Chi) (Rlo, Llo, Clo) Ia0 Ib0 F0 Hhhh Hlll)
    as [-> ->].
  { intros [[r l] c] Hk. destruct (Hbnd r l c Hk) as (Hr & Hl & Hc).
    split; apply f0_of_mono; lra. }
  destruct (extreme_of _ cs a1 b1 (Rhi, Llo, Chi) (Rlo, Lhi, Clo) Ia1 Ib1 F1 Hhlh Hlhl)
    as [-> ->].
  { intros [[r l] c] Hk. destruct (Hbnd r l c Hk) as (Hr & Hl & Hc).
    split; apply Q_of_mono; lra. }
  destruct (extreme_of _ cs a2 b2 (Rlo, Lhi, Clo) (Rhi, Llo, Clo) Ia2 Ib2 F2 Hlhl Hhll)
    as [-> ->].
  { intros [[r l] c] Hk. destruct (Hbnd r l c Hk) as (Hr & Hl & Hc).
    rewrite !BW_of_closed by lra. pose proof PI_RGT_0.
    split; apply Rdiv_le_pos; split; try lra; try pos; nra. }
  destruct (extreme_of _ cs a3 b3 (Rhi, Lhi, Chi) (Rlo, Llo, Clo) Ia3 Ib3 F3 Hhhh Hlll)
    as [-> ->].
  { intros [[r l] c] Hk. destruct (Hbnd r l c Hk) as (Hr & Hl & Hc).
    split; apply f1_of_mono; lra. }
  destruct (extreme_of _ cs a4 b4 (Rlo, Lhi, Chi) (Rhi, Llo, Clo) Ia4 Ib4 F4 Hlhh Hhll)
    as [-> ->].
  { intros [[r l] c] Hk. destruct (Hbnd r l c Hk) as (Hr & Hl & Hc).
    split; apply f2_of_mono; lra. }
  exists (metrics_of R L C). eexists.
  split; [apply calculate_nominal_metrics_of; assumption |]. split.
  { unfold calculate_min_max_metrics. rewrite tolerance_corners_Fin. fold cs.
    rewrite (mapM_metrics_pos _ cs (fun r l c => eq_refl) Hpos), bind_Ok.
    rewrite Ea0, Eb0, Ea1, Eb1, Ea2, Eb2, Ea3, Eb3, Ea4, Eb4, !bind_Ok. reflexivity. }
  cbn [r_f0 r_Q r_BW r_f1 r_f2 metrics_of m_f0 m_Q m_BW m_f1 m_f2].
  rewrite !BW_of_closed by lra.
  split; [reflexivity |]. split; [reflexivity |]. split; [reflexivity |].
  split; [reflexivity |]. split; [reflexivity |].
  unfold within. cbn [fst snd]. pose proof PI_RGT_0.
  repeat split; apply fle_Fin_true.
  - apply f0_of_mono; lra.
  - apply f0_of_mono; lra.
  - apply Q_of_mono; lra.
  - apply Q_of_mono; lra.
  - apply Rdiv_le_pos; split; try lra; try pos; nra.
  - apply Rdiv_le_pos; split; try lra; try pos; nra.
  - apply f1_of_mono; lra.
  - apply f1_of_mono; lra.
  - apply f2_of_mono; lra.
  - apply f2_of_mono; lra.
Qed.

Lemma worst_case_corners_witness :
  let Rlo := 100 * (1 - 0.05) in
  let Rhi := 100 * (1 + 0.05) in
  let Llo := 1e-3 * (1 - 0.1) in
  let Lhi := 1e-3 * (1 + 0.1) in
  let Clo := 1e-6 * (1 - 0.1) in
  let Chi := 1e-6 * (1 + 0.1) in
  exists nom rg,
    calculate_nominal_metrics (Fin 100) (Fin 1e-3) (Fin 1e-6) = Ok nom
    /\ calculate_min_max_metrics (Fin 100) (Fin 1e-3) (Fin 1e-6) (Fin 0.05) (Fin 0.1) (Fin 0.1)
       = Ok rg
    /\ r_f0 rg = (Fin (f0_of Lhi Chi), Fin (f0_of Llo Clo))
    /\ r_Q rg = (Fin (Q_of Rhi Llo Chi), Fin (Q_of Rlo Lhi Clo))
    /\ r_BW rg = (Fin (Rlo / (2 * PI * Lhi)), Fin (Rhi / (2 * PI * Llo)))
    /\ r_f1 rg = (Fin (f1_of Rhi Lhi Chi), Fin (f1_of Rlo Llo Clo))
    /\ r_f2 rg = (Fin (f2_of Rlo Lhi Chi), Fin (f2_of Rhi Llo Clo))
    /\ within (r_f0 rg) (m_f0 nom) /\ within (r_Q rg) (m_Q nom)
    /\ within (r_BW rg) (m_BW nom)
    /\ within (r_f1 rg) (m_f1 nom) /\ within (r_f2 rg) (m_f2 nom).
Proof.
  apply (worst_case_corners 100 1e-3 1e-6 0.05 0.1 0.1); lra.
Defined.

(** ** The inverse design: what the returned records hold *)

Section DesignRecords.

Local Open Scope float_scope.

Lemma is_positive_Fin (l : R) : is_positive (Fin l) = true -> (0 < l)%R.
Proof.
  unfold is_positive, fgt, flt, Rltb. destruct (Rlt_dec 0 l); [trivial | discriminate].
Qed.

(** A record built by the scan for a positive target: its five fields. *)
Lemma candidate_of_spec (t : R) (R_fixed max_error : option R) (L C : float) (d : candidate) :
  (0 < t)%R -> is_positive L = true ->
  candidate_of (Fin t) (Fin <$> R_fixed) (Fin <$> max_error) L C = Some d ->
  exists l c,
    L = Fin l /\ C = Fin c /\ (0 < l)%R /\ (0 < c)%R
    /\ d = {| L_H := Fin l; C_F := Fin c;
              f0_calc_Hz := Fin (1 / (2 * PI * sqrt (l * c)));
              error_pct := Fin (Rabs (1 / (2 * PI * sqrt (l * c)) - t) / t * 100);
              cand_Q := match R_fixed with
                        | Some r => if Rlt_dec 0 r then Some (Fin (1 / r * sqrt (l / c))) else None
                        | None => None
                        end |}
    /\ (forall b, max_error = Some b ->
                  (Rabs (1 / (2 * PI * sqrt (l * c)) - t) / t * 100 <= b)%R).
Proof.
  intros Ht HposL. unfold candidate_of.
  destruct (negb (isfinite _) || _) eqn:Hguard; [discriminate |].
  apply orb_false_elim in Hguard as [Hfin Hle].
  apply negb_false_iff, isfinite_Fin in Hfin as [x Hx].
  rewrite Hx in *.
  assert (Hxpos : (0 < x)%R).
  { cbn in Hle. unfold Rleb in Hle. destruct (Rle_dec x 0); [discriminate | lra]. }
  destruct (resonance_finite L C x Hx Hxpos) as (l & c & -> & -> & Hlc).
  apply is_positive_Fin in HposL.
  assert (Hc : (0 < c)%R) by nra.
  assert (Hs : (0 < sqrt (l * c))%R) by (apply sqrt_lt_R0; exact Hlc).
  pose proof PI_RGT_0 as Hpi.
  rewrite fmul_Fin, fsqrt_Fin, two_pi_Fin, fmul_Fin, fdiv_Fin in Hx by nra.
  injection Hx as <-.
  rewrite fsub_Fin. cbn [fabs]. rewrite fdiv_Fin, fmul_Fin by lra.
  set (e := (Rabs (1 / (2 * PI * sqrt (l * c)) - t) / t * 100)%R).
  assert (HQ : match Fin <$> R_fixed with
               | Some r => if r >? Fin 0 then Some (Fin 1 / r * fsqrt (Fin l / Fin c)) else None
               | None => None
               end
               = match R_fixed with
                 | Some r => if Rlt_dec 0 r then Some (Fin (1 / r * sqrt (l / c))%R) else None
                 | None => None
                 end).
  { destruct R_fixed as [r |]; [| reflexivity]. cbn [fmap option_fmap option_map].
    unfold fgt, flt, Rltb. destruct (Rlt_dec 0 r) as [Hr | Hr]; [| reflexivity].
    assert (0 < l / c)%R by pos.
    rewrite (fdiv_Fin 1 r), (fdiv_Fin l c), fsqrt_Fin, fmul_Fin by lra. reflexivity. }
  rewrite HQ.
  destruct max_error as [b |]; cbn [fmap option_fmap option_map].
  - unfold fgt, flt, Rltb. destruct (Rlt_dec b e) as [Hb | Hb]; [discriminate |].
    intros Hd. injection Hd as <-. exists l, c. repeat split; try assumption.
    intros b' Hb'. injection Hb' as <-. unfold e in Hb. lra.
  - intros Hd. injection Hd as <-. exists l, c. repeat split; try assumption.
    intros b' Hb'. discriminate.
Qed.

Lemma scan_spec (t : R) (R_fixed max_error : option R) (Ls Cs : list float) (d : candidate) :
  (0 < t)%R ->
  In d (scan (Fin t) (Fin <$> R_fixed) (Fin <$> max_error)
          (List.filter is_positive Ls) (List.filter is_positive Cs)) ->
  exists l c,
    In (Fin l) Ls /\ In (Fin c) Cs /\ (0 < l)%R /\ (0 < c)%R
    /\ d = {| L_H := Fin l; C_F := Fin c;
              f0_calc_Hz := Fin (1 / (2 * PI * sqrt (l * c)));
              error_pct := Fin (Rabs (1 / (2 * PI * sqrt (l * c)) - t) / t * 100);
              cand_Q := match R_fixed with
                        | Some r => if Rlt_dec 0 r then Some (Fin (1 / r * sqrt (l / c))) else None
                        | None => None
                        end |}
    /\ (forall b, max_error = Some b ->
                  (Rabs (1 / (2 * PI * sqrt (l * c)) - t) / t * 100 <= b)%R).
Proof.
  intros Ht Hd. unfold scan in Hd.
  apply in_flat_map in Hd as (L & HL & Hd). apply in_flat_map in Hd as (C & HC & Hd).
  apply filter_In in HL as [HL HLpos]. apply filter_In in HC as [HC _].
  destruct (candidate_of _ _ _ L C) as [d' |] eqn:E; [| destruct Hd].
  destruct Hd as [<- | []].
  destruct (candidate_of_spec t R_fixed max_error L C d' Ht HLpos E)
    as (l & c & -> & -> & Hl & Hc & Hrec & Hb).
  exists l, c. repeat split; assumption.
Qed.

End DesignRecords.

(** X9.  Every record returned by [design_rlc_for_target_f0] (positive
    target, grids that keep a positive entry) pairs a positive inductance
    of the L grid with a positive capacitance of the C grid; its
    [f0_calc_Hz] is [1 / (2 pi sqrt (L C))], its [error_pct] is
    [|f0_calc - target| / target * 100] and does not exceed
    [max_error_pct] when one is given; its [Q] is [(1 / R) sqrt (L / C)]
    when [R_fixed] is positive and [None] when [R_fixed] is absent or not
    positive. *)
Theorem design_records_meet_spec (t : R) (R_fixed max_error : option R)
    (L_grid C_grid : option nat) (max_results : Z) (h : store) (Ls Cs : list float) :
  0 < t ->
  grid_items h L_grid default_L_candidates = Some Ls ->
  grid_items h C_grid default_C_candidates = Some Cs ->
  List.filter is_positive Ls <> [] -> List.filter is_positive Cs <> [] ->
  exists res h',
    design_rlc_for_target_f0 (Fin t) (Fin <$> R_fixed) L_grid C_grid max_results
      (Fin <$> max_error) h = (Ok res, h')
    /\ forall d, In d res ->
       exists l c,
         In (Fin l) Ls /\ In (Fin c) Cs /\ 0 < l /\ 0 < c
         /\ L_H d = Fin l /\ C_F d = Fin c
         /\ f0_calc_Hz d = Fin (1 / (2 * PI * sqrt (l * c)))
         /\ error_pct d = Fin (Rabs (1 / (2 * PI * sqrt (l * c)) - t) / t * 100)
         /\ (forall b, max_error = Some b ->
                       Rabs (1 / (2 * PI * sqrt (l * c)) - t) / t * 100 <= b)
         /\ (forall r, R_fixed = Some r -> 0 < r ->
                       cand_Q d = Some (Fin (1 / r * sqrt (l / c))))
         /\ (R_fixed = None \/ (exists r, R_fixed = Some r /\ r <= 0) -> cand_Q d = None).
Proof.
  intros Ht HL HC HLne HCne.
  destruct (design_returns (Fin t) (Fin <$> R_fixed) L_grid C_grid max_results
              (Fin <$> max_error) h Ls Cs) as [h' Hrun]; try assumption.
  { apply fle_Fin_false, Ht. }
  eexists. exists h'. split; [exact Hrun |].
  intros d Hd. apply rank_In in Hd.
  destruct (scan_spec t R_fixed max_error Ls Cs d Ht Hd) as (l & c & Hl & Hc & Hlp & Hcp & -> & Hb).
  exists l, c. cbn [L_H C_F f0_calc_Hz error_pct cand_Q].
  repeat split; try assumption.
  - intros r -> Hr. destruct (Rlt_dec 0 r); [reflexivity | contradiction].
  - intros [-> | (r & -> & Hr)]; [reflexivity |].
    destruct (Rlt_dec 0 r); [lra | reflexivity].
Qed.

Lemma design_records_meet_spec_witness :
  exists res h',
    design_rlc_for_target_f0 (Fin 5000) (Fin <$> Some 330) (Some 0%nat) (Some 1%nat) 20
      (Fin <$> Some 50) example_store = (Ok res, h')
    /\ forall d, In d res ->
       exists l c,
         In (Fin l) [Fin 1e-3; Fin (-1)] /\ In (Fin c) [Fin 1e-6] /\ 0 < l /\ 0 < c
         /\ L_H d = Fin l /\ C_F d = Fin c
         /\ f0_calc_Hz d = Fin (1 / (2 * PI * sqrt (l * c)))
         /\ error_pct d = Fin (Rabs (1 / (2 * PI * sqrt (l * c)) - 5000) / 5000 * 100)
         /\ (forall b, Some 50 = Some b ->
                       Rabs (1 / (2 * PI * sqrt (l * c)) - 5000) / 5000 * 100 <= b)
         /\ (forall r, Some 330 = Some r -> 0 < r ->
                       cand_Q d = Some (Fin (1 / r * sqrt (l / c))))
         /\ (Some 330 = None \/ (exists r, Some 330 = Some r /\ r <= 0) -> cand_Q d = None).
Proof.
  apply (design_records_meet_spec 5000 (Some 330) (Some 50) (Some 0%nat) (Some 1%nat) 20
           example_store [Fin 1e-3; Fin (-1)] [Fin 1e-6]).
  - lra.
  - reflexivity.
  - reflexivity.
  - cbn [List.filter]. unfold is_positive at 1. rewrite fgt_Fin_true by lra. discriminate.
  - cbn [List.filter]. unfold is_positive at 1. rewrite fgt_Fin_true by lra. discriminate.
Defined.

(** ** The inverse design: ranking *)

Section RankingOrder.

Local Open Scope float_scope.

Lemma insert_sorted_perm (x : candidate) (l : list candidate) :
  Permutation (insert_sorted x l) (x :: l).
Proof.
  induction l as [| y l IH]; cbn [insert_sorted]; [reflexivity |].
  destruct (tuple_lt (sort_key x) (sort_key y)); [reflexivity |].
  rewrite IH. apply perm_swap.
Qed.

Lemma list_sort_perm (l : list candidate) : Permutation (list_sort l) l.
Proof.
  unfold list_sort.
  assert (H : forall acc : list candidate,
            Permutation (fold_left (fun acc x => insert_sorted x acc) l acc) (acc ++ l)).
  { induction l as [| x l IH]; intros acc; cbn [fold_left].
    - rewrite app_nil_r. reflexivity.
    - rewrite IH, insert_sorted_perm. apply Permutation_middle. }
  apply (H []).
Qed.

(** The first record of a sorted list has the least relative error. *)
Lemma sorted_head_min (a : candidate) (l : list candidate) :
  Forall real_keys (a :: l) -> Sorted rank_le (a :: l) ->
  Forall (fun d => (error_pct a <=? error_pct d) = true) (a :: l).
Proof.
  revert a. induction l as [| b l IH]; intros a Hk Hs.
  - inversion Hk as [| ? ? (e & q & He & _) _]; subst.
    constructor; [| constructor]. rewrite He. apply fle_Fin_true. lra.
  - inversion Hk as [| ? ? (ea & qa & Hea & _) Hk']; subst.
    inversion Hs as [| ? ? Hs' Hhd]; subst.
    specialize (IH b Hk' Hs').
    inversion Hk' as [| ? ? (eb & qb & Heb & _) _]; subst.
    inversion Hhd as [| ? ? Hab]; subst.
    assert (Hle : (ea <= eb)%R).
    { unfold rank_le in Hab. rewrite Hea, Heb in Hab. cbn [flt feqb] in Hab.
      unfold Rltb, Reqb in Hab.
      destruct Hab as [Hab | [Hab _]].
      - destruct (Rlt_dec ea eb); [lra | discriminate].
      - destruct (Req_dec_T ea eb); [lra | discriminate]. }
    constructor; [rewrite Hea; apply fle_Fin_true; lra |].
    revert IH. apply List.Forall_impl. intros d Hd.
    rewrite Hea. rewrite Heb in Hd.
    destruct (error_pct d) as [ed | | |]; cbn [fle] in *; try discriminate; try reflexivity.
    unfold Rleb in *. destruct (Rle_dec eb ed); [| discriminate].
    destruct (Rle_dec ea ed); [reflexivity | lra].
Qed.

Lemma firstn_head {A : Type} (a : A) (l : list A) (k : nat) :
  (1 <= k)%nat -> exists rest, firstn k (a :: l) = a :: rest.
Proof. destruct k; [lia |]. intros _. eexists. reflexivity. Qed.

End RankingOrder.

(** X10.  On a positive target and grids that keep a positive entry, with
    [max_results >= 1]: when at least one pair qualifies, the first
    record returned has the least relative error of all qualifying pairs;
    and when [max_results] is not smaller than the number of qualifying
    pairs, the list returned is a rearrangement of all of them: no
    qualifying pair is lost and none is repeated. *)
Theorem design_best_first (t : R) (R_fixed : option float) (L_grid C_grid : option nat)
    (max_results : Z) (max_error : option float) (h : store) (Ls Cs : list float) :
  0 < t -> (1 <= max_results)%Z ->
  grid_items h L_grid default_L_candidates = Some Ls ->
  grid_items h C_grid default_C_candidates = Some Cs ->
  List.filter is_positive Ls <> [] -> List.filter is_positive Cs <> [] ->
  let qualifying :=
    scan (Fin t) R_fixed max_error (List.filter is_positive Ls) (List.filter is_positive Cs) in
  exists res h',
    design_rlc_for_target_f0 (Fin t) R_fixed L_grid C_grid max_results max_error h
    = (Ok res, h')
    /\ (qualifying <> [] ->
        exists best rest,
          res = best :: rest /\ In best qualifying
          /\ forall d, In d qualifying -> (error_pct best <=? error_pct d)%fl = true)
    /\ ((Z.of_nat (length qualifying) <= max_results)%Z -> Permutation res qualifying).
Proof.
  intros Ht Hk HL HC HLne HCne qualifying.
  destruct (design_returns (Fin t) R_fixed L_grid C_grid max_results max_error h Ls Cs)
    as [h' Hrun]; try assumption.
  { apply fle_Fin_false, Ht. }
  fold qualifying in Hrun.
  eexists. exists h'. split; [exact Hrun |].
  pose proof (scan_real_keys t R_fixed max_error (List.filter is_positive Ls)
                (List.filter is_positive Cs) Ht) as Hkeys.
  fold qualifying in Hkeys.
  pose proof (list_sort_perm qualifying) as Hperm.
  pose proof (list_sort_Sorted qualifying Hkeys) as Hsorted.
  assert (Hkeys' : Forall real_keys (list_sort qualifying)).
  { apply List.Forall_forall. intros d Hd. rewrite List.Forall_forall in Hkeys.
    apply Hkeys. apply (Permutation_in _ Hperm Hd). }
  split.
  - intros Hne. unfold rank. destruct qualifying as [| q0 qs] eqn:Eq; [contradiction |].
    rewrite <- Eq in *. rewrite slice_to_firstn by lia.
    destruct (list_sort qualifying) as [| best sorted] eqn:Es.
    { apply Permutation_nil in Hperm. rewrite Eq in Hperm. discriminate. }
    destruct (firstn_head best sorted (Z.to_nat max_results) ltac:(lia)) as [rest ->].
    exists best, rest. split; [reflexivity |].
    split; [apply (Permutation_in _ Hperm); left; reflexivity |].
    intros d Hd. apply (Permutation_in _ (Permutation_sym Hperm)) in Hd.
    pose proof (sorted_head_min best sorted Hkeys' Hsorted) as Hmin.
    rewrite List.Forall_forall in Hmin. apply Hmin, Hd.
  - intros Hlen. unfold rank. destruct qualifying as [| q0 qs] eqn:Eq; [reflexivity |].
    rewrite <- Eq in *. rewrite slice_to_firstn by lia.
    rewrite firstn_all2; [exact Hperm |].
    rewrite (Permutation_length Hperm). lia.
Qed.

Lemma design_best_first_witness :
  let qualifying :=
    scan (Fin 5000) (Some (Fin 330)) (Some (Fin 50))
      (List.filter is_positive [Fin 1e-3; Fin (-1)]) (List.filter is_positive [Fin 1e-6]) in
  exists res h',
    design_rlc_for_target_f0 (Fin 5000) (Some (Fin 330)) (Some 0%nat) (Some 1%nat) 20
      (Some (Fin 50)) example_store = (Ok res, h')
    /\ (qualifying <> [] ->
        exists best rest,
          res = best :: rest /\ In best qualifying
          /\ forall d, In d qualifying -> (error_pct best <=? error_pct d)%fl = true)
    /\ ((Z.of_nat (length qualifying) <= 20)%Z -> Permutation res qualifying).
Proof.
  apply (design_best_first 5000 (Some (Fin 330)) (Some 0%nat) (Some 1%nat) 20
           (Some (Fin 50)) example_store [Fin 1e-3; Fin (-1)] [Fin 1e-6]).
  - lra.
  - lia.
  - reflexivity.
  - reflexivity.
  - cbn [List.filter]. unfold is_positive at 1. rewrite fgt_Fin_true by lra. discriminate.
  - cbn [List.filter]. unfold is_positive at 1. rewrite fgt_Fin_true by lra. discriminate.
Defined.

(** ** The inverse design: rejected inputs and the default grids *)

Section DesignErrors.

Local Open Scope float_scope.

(** When the target is positive and the grids are readable, the search
    allocates its working arrays and then either raises on a grid
    without a positive entry or returns the ranked scan. *)
Lemma design_run (target : float) (R_fixed : option float)
    (L_grid C_grid : option nat) (max_results : Z) (max_error : option float)
    (h : store) (Ls Cs : list float) :
  (target <=? Fin 0) = false ->
  grid_items h L_grid default_L_candidates = Some Ls ->
  grid_items h C_grid default_C_candidates = Some Cs ->
  exists h' : store,
    design_rlc_for_target_f0 target R_fixed L_grid C_grid max_results max_error h =
    (if (length (List.filter is_positive Ls) =? 0)%nat
        || (length (List.filter is_positive Cs) =? 0)%nat
     then Raise (ValueError "Listas de candidatos L/C vazias após filtragem.")
     else Ok (rank (scan target R_fixed max_error (List.filter is_positive Ls)
                      (List.filter is_positive Cs)) max_results), h').
Proof.
  intros Ht HL HC. unfold design_rlc_for_target_f0. rewrite Ht.
  destruct (grid_run h L_grid _ Ls HL) as (l0 & h1 & E1 & I1 & S1).
  rewrite (bind_run _ _ _ _ _ E1).
  assert (HC1 : grid_items h1 C_grid default_C_candidates = Some Cs).
  { destruct C_grid as [c |]; [| exact HC]. apply (items_weaken h h1 c Cs HC S1). }
  destruct (grid_run h1 C_grid _ Cs HC1) as (c0 & h2 & E2 & I2 & S2).
  rewrite (bind_run _ _ _ _ _ E2).
  pose proof (items_weaken _ _ _ _ I1 S2) as I1'.
  destruct (np_asarray_run h2 l0 Ls I1') as (l1 & h3 & E3 & I3 & S3).
  rewrite (bind_run _ _ _ _ _ E3).
  pose proof (items_weaken _ _ _ _ I2 S3) as I2'.
  destruct (np_asarray_run h3 c0 Cs I2') as (c1 & h4 & E4 & I4 & S4).
  rewrite (bind_run _ _ _ _ _ E4).
  pose proof (items_weaken _ _ _ _ I3 S4) as I3'.
  destruct (positive_entries_run h4 l1 Ls I3') as (l2 & h5 & E5 & I5 & S5).
  rewrite (bind_run _ _ _ _ _ E5).
  pose proof (items_weaken _ _ _ _ I4 S5) as I4'.
  destruct (positive_entries_run h5 c1 Cs I4') as (c2 & h6 & E6 & I6 & S6).
  rewrite (bind_run _ _ _ _ _ E6).
  pose proof (lookup_weaken _ _ _ _ I5 S6) as I5'.
  rewrite (bind_run _ _ _ _ _ (load_run h6 l2 _ I5')).
  rewrite (bind_run _ _ _ _ _ (load_run h6 c2 _ I6)).
  cbn [items_of]. exists h6.
  destruct (_ || _); reflexivity.
Qed.

Lemma filter_empty_length {A : Type} (f : A -> bool) (l : list A) :
  (forall x, In x l -> f x = false) -> (length (List.filter f l) =? 0)%nat = true.
Proof.
  intros H. induction l as [| x l IH]; [reflexivity |].
  cbn [List.filter]. rewrite (H x (or_introl eq_refl)). apply IH.
  intros y Hy. apply H. right. exact Hy.
Qed.

Lemma filter_nonempty {A : Type} (f : A -> bool) (l : list A) (x : A) :
  In x l -> f x = true -> List.filter f l <> [].
Proof.
  intros Hin Hf Hnil. assert (H : In x (List.filter f l)) by (apply filter_In; split; assumption).
  rewrite Hnil in H. destruct H.
Qed.

Lemma e12_grid_positive (d : Z) (decades : list Z) :
  List.filter is_positive (e12_grid (d :: decades)) <> [].
Proof.
  apply (filter_nonempty _ _ (Fin 1.0 * Fin (powerRZ 10 d))).
  - unfold e12_grid. apply in_flat_map. exists d. split; [left; reflexivity |].
    apply in_map_iff. exists 1.0%R. split; [reflexivity | left; reflexivity].
  - unfold is_positive. rewrite fmul_Fin. apply fgt_Fin_true.
    apply Rmult_lt_0_compat; [lra | apply powerRZ_lt; lra].
Qed.

Lemma default_L_positive : List.filter is_positive default_L_candidates <> [].
Proof. apply e12_grid_positive. Qed.

Lemma default_C_positive : List.filter is_positive default_C_candidates <> [].
Proof. apply e12_grid_positive. Qed.

End DesignErrors.

(** X11.  [design_rlc_for_target_f0] rejects a target that is not
    positive with a [ValueError] before it reads or allocates anything:
    the store is exactly as it was.  On a positive target, a grid in
    which no entry is positive makes it raise the [ValueError] of the
    empty candidate lists, with every object of the caller unchanged.
    With the default grids it never raises: both keep positive entries. *)
Theorem design_rejected_inputs (t : R) (R_fixed : option float) (L_grid C_grid : option nat)
    (max_results : Z) (max_error : option float) (h : store) :
  (t <= 0 ->
   design_rlc_for_target_f0 (Fin t) R_fixed L_grid C_grid max_results max_error h
   = (Raise (ValueError "target_f0_hz deve ser > 0."), h))
  /\ (forall Ls Cs,
        0 < t ->
        grid_items h L_grid default_L_candidates = Some Ls ->
        grid_items h C_grid default_C_candidates = Some Cs ->
        (forall x, In x Ls -> is_positive x = false)
        \/ (forall x, In x Cs -> is_positive x = false) ->
        exists h',
          design_rlc_for_target_f0 (Fin t) R_fixed L_grid C_grid max_results max_error h
          = (Raise (ValueError "Listas de candidatos L/C vazias após filtragem."), h')
          /\ h ⊆ h')
  /\ (0 < t ->
      exists res h',
        design_rlc_for_target_f0 (Fin t) R_fixed None None max_results max_error h
        = (Ok res, h')).
Proof.
  split; [| split].
  - intros Ht. unfold design_rlc_for_target_f0. rewrite fle_Fin_true by exact Ht. reflexivity.
  - intros Ls Cs Ht HL HC Hempty.
    destruct (design_run (Fin t) R_fixed L_grid C_grid max_results max_error h Ls Cs)
      as [h' Hrun]; try assumption.
    { apply fle_Fin_false, Ht. }
    exists h'.
    assert (Hcond : (length (List.filter is_positive Ls) =? 0)%nat
                    || (length (List.filter is_positive Cs) =? 0)%nat = true).
    { destruct Hempty as [H | H].
      - rewrite (filter_empty_length _ Ls H). reflexivity.
      - rewrite (filter_empty_length _ Cs H). apply orb_true_r. }
    rewrite Hcond in Hrun. split; [exact Hrun |].
    pose proof (design_preserves (Fin t) R_fixed L_grid C_grid max_results max_error h) as Hsub.
    rewrite Hrun in Hsub. exact Hsub.
  - intros Ht.
    destruct (design_returns (Fin t) R_fixed None None max_results max_error h
                default_L_candidates default_C_candidates) as [h' Hrun].
    + apply fle_Fin_false, Ht.
    + reflexivity.
    + reflexivity.
    + apply default_L_positive.
    + apply default_C_positive.
    + eexists. exists h'. exact Hrun.
Qed.

Lemma design_rejected_inputs_witness :
  exists h',
    design_rlc_for_target_f0 (Fin 5000) None (Some 0%nat) (Some 1%nat) 20 None
      (<[0%nat := PyList [Fin 0; Fin (-1)]]> (<[1%nat := NdArray [Fin 1e-6]]> ∅))
    = (Raise (ValueError "Listas de candidatos L/C vazias após filtragem."), h')
    /\ (<[0%nat := PyList [Fin 0; Fin (-1)]]> (<[1%nat := NdArray [Fin 1e-6]]> ∅) : store) ⊆ h'.
Proof.
  refine (proj1 (proj2 (design_rejected_inputs 5000 None (Some 0%nat) (Some 1%nat) 20 None
                          (<[0%nat := PyList [Fin 0; Fin (-1)]]>
                             (<[1%nat := NdArray [Fin 1e-6]]> ∅))))
            [Fin 0; Fin (-1)] [Fin 1e-6] _ _ _ _).
  - lra.
  - reflexivity.
  - reflexivity.
  - left. intros x [<- | [<- | []]]; unfold is_positive; apply fgt_Fin_false; lra.
Defined.

(** ** The band-pass model of the curve fit *)

Lemma bandpass_point (f A f0 Q : R) :
  f0 <> 0 -> Q <> 0 ->
  exists g,
    (Fin A * (Fin f / Fin f0 / Fin Q)
     / (if fsqrt (sq (Fin 1 - sq (Fin f / Fin f0)) + sq (Fin f / Fin f0 / Fin Q)) =? Fin 0
        then eps
        else fsqrt (sq (Fin 1 - sq (Fin f / Fin f0)) + sq (Fin f / Fin f0 / Fin Q))))%fl
    = Fin g
    /\ Rabs g <= Rabs A
    /\ (0 <= A -> 0 <= f / f0 / Q -> 0 <= g)
    /\ (f = f0 -> 0 < Q -> g = A).
Proof.
  intros Hf0 HQ.
  rewrite (fdiv_Fin f f0) by exact Hf0. rewrite (fdiv_Fin (f / f0) Q) by exact HQ.
  rewrite !sq_Fin, fsub_Fin, sq_Fin, fadd_Fin, fmul_Fin.
  set (x := f / f0). set (u := x / Q).
  set (d := (1 - x * x) * (1 - x * x) + u * u).
  pose proof (Rle_0_sqr (1 - x * x)) as Hsq. unfold Rsqr in Hsq.
  pose proof (Rle_0_sqr u) as Hsu. unfold Rsqr in Hsu.
  assert (Hd : 0 < d).
  { unfold d. destruct (Req_dec_T u 0) as [Hu | Hu].
    - assert (Hx : x = 0).
      { unfold u in Hu. apply (Rmult_eq_reg_r (/ Q)); [| apply Rinv_neq_0_compat, HQ].
        unfold Rdiv in Hu. lra. }
      rewrite Hu, Hx. lra.
    - assert (0 < u * u)
        by (destruct (Rtotal_order u 0) as [H | [H | H]]; [nra | contradiction | nra]).
      lra. }
  rewrite fsqrt_Fin by lra.
  assert (Hs : 0 < sqrt d) by (apply sqrt_lt_R0, Hd).
  assert (Hs2 : sqrt d * sqrt d = d) by (apply sqrt_sqrt; lra).
  unfold feqb. rewrite Reqb_false by lra. rewrite fdiv_Fin by lra.
  eexists. split; [reflexivity |].
  assert (Hu : Rabs u <= sqrt d).
  { rewrite <- (sqrt_square (Rabs u)) by apply Rabs_pos. apply sqrt_le_1.
    - apply Rmult_le_pos; apply Rabs_pos.
    - lra.
    - rewrite <- Rabs_mult. rewrite (Rabs_pos_eq (u * u)) by lra. unfold d. lra. }
  assert (Hinv : 0 < / sqrt d) by (apply Rinv_0_lt_compat, Hs).
  split; [| split].
  - unfold Rdiv. rewrite !Rabs_mult. rewrite (Rabs_pos_eq (/ sqrt d)) by lra.
    assert (Hq : Rabs u * / sqrt d <= 1).
    { apply (Rmult_le_reg_r (sqrt d)); [exact Hs |].
      rewrite Rmult_assoc, Rinv_l by lra. lra. }
    pose proof (Rabs_pos A). pose proof (Rabs_pos u).
    rewrite Rmult_assoc. nra.
  - intros HA Hu0. unfold Rdiv. apply Rmult_le_pos; [| lra]. apply Rmult_le_pos; assumption.
  - intros -> HQpos.
    assert (Hx1 : x = 1) by (unfold x; field; exact Hf0).
    assert (Hroot : sqrt d = / Q).
    { apply sqrt_eq; [left; apply Rinv_0_lt_compat, HQpos |].
      unfold d, u. rewrite Hx1. field. lra. }
    rewrite Hroot. unfold u. rewrite Hx1. field. lra.
Qed.

Lemma bandpass_curve_bounds (fs : list R) (A f0 Q : R) :
  f0 <> 0 -> Q <> 0 ->
  exists gs,
    _bandpass_model (map Fin fs) (Fin A) (Fin f0) (Fin Q) = map Fin gs
    /\ Forall2 (fun f g => Rabs g <= Rabs A
                           /\ (0 <= A -> 0 <= f / f0 / Q -> 0 <= g)
                           /\ (f = f0 -> 0 < Q -> g = A)) fs gs.
Proof.
  intros Hf0 HQ. induction fs as [| f fs (gs & Hgs & Hall)].
  - exists []. split; [reflexivity | constructor].
  - destruct (bandpass_point f A f0 Q Hf0 HQ) as (g & Hg & Hb).
    exists (g :: gs). split; [| constructor; assumption].
    unfold _bandpass_model in *. cbn [map]. cbv zeta. rewrite Hg, Hgs. reflexivity.
Qed.

(** X12.  In real arithmetic, for [f0 <> 0] and [Q <> 0] the band-pass
    model [_bandpass_model] returns one real gain per frequency and its
    magnitude never exceeds [|A|]; the gain is non-negative when [A] and
    [f / f0 / Q] are; and at [f = f0] with [Q > 0] it is exactly [A]:
    [A] is the peak gain and [f0] the frequency of the peak. *)
Theorem bandpass_model_peak (fs : list R) (A f0 Q : R) :
  f0 <> 0 -> Q <> 0 ->
  exists gs,
    _bandpass_model (map Fin fs) (Fin A) (Fin f0) (Fin Q) = map Fin gs
    /\ Forall2 (fun f g => Rabs g <= Rabs A
                           /\ (0 <= A -> 0 <= f / f0 / Q -> 0 <= g)
                           /\ (f = f0 -> 0 < Q -> g = A)) fs gs.
Proof. exact (bandpass_curve_bounds fs A f0 Q). Qed.

Lemma bandpass_model_peak_witness :
  exists gs,
    _bandpass_model (map Fin [1000; 2000]) (Fin 0.8) (Fin 2000) (Fin 5) = map Fin gs
    /\ Forall2 (fun f g => Rabs g <= Rabs 0.8
                           /\ (0 <= 0.8 -> 0 <= f / 2000 / 5 -> 0 <= g)
                           /\ (f = 2000 -> 0 < 5 -> g = 0.8)) [1000; 2000] gs.
Proof.
  apply (bandpass_model_peak [1000; 2000] 0.8 2000 5); lra.
Defined.

(** ** The initial guess of the curve fit *)

Section InitialGuess.

Local Open Scope float_scope.

Lemma argmax_from_real (rs : list R) :
  forall (i bi : nat) (b : R),
    (bi < i)%nat ->
    let k := argmax_from (map Fin rs) i bi (Fin b) in
    (k = bi /\ Forall (fun x => x <= b)%R rs)
    \/ (exists m, (i <= k)%nat /\ nth_error rs (k - i) = Some m /\ (b < m)%R
                  /\ Forall (fun x => x <= m)%R rs
                  /\ Forall (fun x => x < m)%R (firstn (k - i) rs)).
Proof.
  induction rs as [| x rs IH]; intros i bi b Hbi; cbn [map argmax_from]; cbv zeta.
  - left. split; [reflexivity | constructor].
  - unfold fgt, flt, Rltb. destruct (Rlt_dec b x) as [Hx | Hx].
    + destruct (IH (S i) i x ltac:(lia)) as [[Hk Hall] | (m & Hk & Hnth & Hm & Hall & Hbefore)];
        cbv zeta in *.
      * right. exists x. rewrite Hk, Nat.sub_diag. cbn [nth_error firstn].
        repeat split; try lia; try assumption; constructor; [lra | assumption].
      * right. exists m. set (k := argmax_from (map Fin rs) (S i) i (Fin x)) in *.
        replace (k - i)%nat with (S (k - S i)) by lia. cbn [nth_error firstn].
        repeat split; try lia; try assumption; try lra; constructor; (lra || assumption).
    + destruct (IH (S i) bi b ltac:(lia)) as [[Hk Hall] | (m & Hk & Hnth & Hm & Hall & Hbefore)];
        cbv zeta in *.
      * left. split; [exact Hk | constructor; [lra | assumption]].
      * right. exists m. set (k := argmax_from (map Fin rs) (S i) bi (Fin b)) in *.
        replace (k - i)%nat with (S (k - S i)) by lia. cbn [nth_error firstn].
        repeat split; try lia; try assumption; try lra; constructor; (lra || assumption).
Qed.

Lemma map_nan_real (rs : list R) :
  map (fun x => if is_nan x then NInf else x) (map Fin rs) = map Fin rs.
Proof. rewrite map_map. reflexivity. Qed.

(** [np.nanargmax] on real numbers: the index of the first greatest
    value. *)
Lemma nanargmax_real (gs : list R) :
  gs <> [] ->
  exists idx A0,
    nanargmax (map Fin gs) = Ok idx
    /\ nth_error gs idx = Some A0
    /\ Forall (fun x => x <= A0)%R gs
    /\ Forall (fun x => x < A0)%R (firstn idx gs).
Proof.
  destruct gs as [| x rs]; [contradiction |]. intros _.
  unfold nanargmax. rewrite map_nan_real. cbn [map forallb is_nan andb].
  destruct (argmax_from_real rs 1 0 x ltac:(lia))
    as [[Hk Hall] | (m & Hk & Hnth & Hm & Hall & Hbefore)]; cbv zeta in *.
  - exists 0%nat, x. rewrite Hk. cbn [nth_error firstn].
    repeat split; constructor; [lra | assumption].
  - set (k := argmax_from (map Fin rs) 1 0 (Fin x)) in *.
    exists k, m. split; [reflexivity |].
    destruct k as [| k']; [lia |].
    replace (S k' - 1)%nat with k' in * by lia. cbn [nth_error firstn].
    repeat split; try assumption; constructor; (lra || assumption).
Qed.

Lemma item_real (l : list R) (i : nat) (v : R) :
  nth_error l i = Some v -> item (map Fin l) i = Ok (Fin v).
Proof. intros H. unfold item. rewrite nth_error_map, H. reflexivity. Qed.

Lemma select_real (l : list R) (mask : list bool) :
  Np.select (map Fin l) mask = map Fin (Np.select l mask).
Proof.
  revert mask. induction l as [| x l IH]; intros [| b mask]; cbn [map Np.select]; try reflexivity.
  destruct b; cbn [map]; rewrite IH; reflexivity.
Qed.

Lemma last_item_real (l : list R) :
  l <> [] -> exists v, last_item (map Fin l) = Ok (Fin v) /\ In v l.
Proof.
  intros Hne. destruct l as [| x l]; [contradiction |].
  unfold last_item. cbn [map]. rewrite <- (map_cons Fin x l), length_map.
  destruct (nth_error (x :: l) (length (x :: l) - 1)) as [v |] eqn:E.
  - exists v. split; [apply item_real, E | apply (nth_error_In _ _ E)].
  - apply nth_error_None in E. cbn [length] in E. lia.
Qed.

Lemma clip_real (x : R) :
  exists q, clip (Fin x) (Fin 0.1) (Fin 200.0) = Fin q /\ (0.1 <= q <= 200)%R.
Proof.
  unfold clip.
  destruct (maximum_Fin x 0.1) as (z & -> & Hx & Hz & Hsel).
  destruct (minimum_Fin z 200.0) as (q & -> & Hq1 & Hq2 & Hsel').
  exists q. split; [reflexivity |]. destruct Hsel' as [-> | ->]; lra.
Qed.

Lemma py_max_real (x y : R) : exists z, py_max (Fin x) (Fin y) = Fin z /\ (x <= z)%R /\ (y <= z)%R.
Proof.
  unfold py_max, fgt, flt, Rltb. destruct (Rlt_dec x y).
  - exists y. split; [reflexivity | lra].
  - exists x. split; [reflexivity | lra].
Qed.

End InitialGuess.

Lemma initial_guess_real (fs gs : list R) :
  length fs = length gs -> gs <> [] ->
  exists idx A0 f00 Q0,
    _initial_guess (map Fin fs) (map Fin gs) = Ok (Fin A0, Fin f00, Fin Q0)
    /\ nth_error gs idx = Some A0
    /\ nth_error fs idx = Some f00
    /\ Forall (fun g => g <= A0) gs
    /\ Forall (fun g => g < A0) (firstn idx gs)
    /\ 0.1 <= Q0 <= 200.
Proof.
  intros Hlen Hne.
  destruct (nanargmax_real gs Hne) as (idx & A0 & Hidx & HA0 & Hall & Hfirst).
  assert (Hf : exists f00, nth_error fs idx = Some f00).
  { destruct (nth_error fs idx) as [v |] eqn:E; [exists v; reflexivity |].
    apply nth_error_None in E. assert (idx < length gs)%nat by (apply nth_error_Some; congruence).
    lia. }
  destruct Hf as [f00 Hf00].
  exists idx, A0, f00.
  unfold _initial_guess. rewrite Hidx, bind_Ok, (item_real gs idx A0 HA0), bind_Ok.
  rewrite (item_real fs idx f00 Hf00), bind_Ok.
  set (mask_bw := map (fun g0 : float => (g0 >=? Fin A0 / fsqrt (Fin 2.0))%fl) (map Fin gs)).
  assert (Hmask : length (map Fin fs) = length mask_bw)
    by (unfold mask_bw; rewrite !length_map; exact Hlen).
  assert (HQ : exists q0,
            (if (2 <=? Np.count_nonzero mask_bw)%nat
             then f_bw ← Np.index_mask (map Fin fs) mask_bw;
                  f1 ← item f_bw 0;
                  f2 ← last_item f_bw;
                  ratio ← py_div (Fin f00) (py_max (f2 - f1)%fl (Fin 1e-9));
                  mret (py_max ratio (Fin 0.1))
             else mret (Fin 1.0)) = Ok (Fin q0)).
  { destruct (2 <=? Np.count_nonzero mask_bw)%nat eqn:Hcount; [| exists 1.0; reflexivity].
    apply Nat.leb_le in Hcount.
    rewrite (index_mask_ok _ mask_bw Hmask), bind_Ok, select_real.
    pose proof (select_length (map Fin fs) mask_bw Hmask) as Hsel.
    rewrite select_real, length_map in Hsel.
    destruct (Np.select fs mask_bw) as [| f1 rest] eqn:Ebw; [cbn in Hsel; lia |].
    rewrite (item_real (f1 :: rest) 0 f1 eq_refl), bind_Ok.
    destruct (last_item_real (f1 :: rest) ltac:(discriminate)) as (f2 & -> & _).
    rewrite bind_Ok, fsub_Fin.
    destruct (py_max_real (f2 - f1) 1e-9) as (bw & -> & _ & Hbw).
    rewrite py_div_Fin, bind_Ok by lra.
    destruct (py_max_real (f00 / bw) 0.1) as (q & -> & _). exists q. reflexivity. }
  destruct HQ as [q0 HQ]. rewrite HQ, bind_Ok.
  destruct (clip_real q0) as (Q0 & -> & HQ0).
  exists Q0. repeat split; try assumption; lra.
Qed.

(** X13.  On real data of one non-zero length, [_initial_guess] returns
    three real numbers: [A0] is the greatest gain, taken at its first
    occurrence, [f0_0] is the frequency at that index, and [Q0] lies in
    [0.1, 200]. *)
Theorem initial_guess_spec (fs gs : list R) :
  length fs = length gs -> gs <> [] ->
  exists idx A0 f00 Q0,
    _initial_guess (map Fin fs) (map Fin gs) = Ok (Fin A0, Fin f00, Fin Q0)
    /\ nth_error gs idx = Some A0
    /\ nth_error fs idx = Some f00
    /\ Forall (fun g => g <= A0) gs
    /\ Forall (fun g => g < A0) (firstn idx gs)
    /\ 0.1 <= Q0 <= 200.
Proof. exact (initial_guess_real fs gs). Qed.

Lemma initial_guess_spec_witness :
  exists idx A0 f00 Q0,
    _initial_guess (map Fin [1000; 2000; 4000]) (map Fin [0.5; 1; 0.5])
    = Ok (Fin A0, Fin f00, Fin Q0)
    /\ nth_error [0.5; 1; 0.5] idx = Some A0
    /\ nth_error [1000; 2000; 4000] idx = Some f00
    /\ Forall (fun g => g <= A0) [0.5; 1; 0.5]
    /\ Forall (fun g => g < A0) (firstn idx [0.5; 1; 0.5])
    /\ 0.1 <= Q0 <= 200.
Proof.
  apply (initial_guess_spec [1000; 2000; 4000] [0.5; 1; 0.5]); [reflexivity | discriminate].
Defined.

(** ** The curve fit on cleaned data *)

Section FitResult.

Local Open Scope float_scope.

Variable curve_fit :
  option ((list float -> float -> float -> float -> list float) ->
          list float -> list float -> float * float * float -> Z ->
          option (float * float * float)).

(** The fit after the cleaning step, when five points or more are kept. *)
Lemma fit_unfold (freqs gains : list float) (n : Z) (guess : float * float * float)
    (fmin fmax : float) :
  length freqs = length gains ->
  let mask := map valid_point (combine freqs gains) in
  (5 <= Np.count_nonzero mask)%nat ->
  _initial_guess (Np.select freqs mask) (Np.select gains mask) = Ok guess ->
  Np.min (Np.select freqs mask) = Ok fmin ->
  Np.max (Np.select freqs mask) = Ok fmax ->
  fit_bandpass_rlc curve_fit freqs gains n =
  Np.logspace (log10 fmin) (log10 fmax) n ≫= (fun f_smooth =>
    let '(A_opt, f0_opt, Q_opt) :=
      match curve_fit with
      | Some fit =>
          match fit _bandpass_model (Np.select freqs mask) (Np.select gains mask) guess 10000%Z with
          | Some popt => popt
          | None => guess
          end
      | None => guess
      end in
    Ok (Some {| fit_A := A_opt; fit_f0 := f0_opt; fit_Q := Q_opt;
                freq_smooth := f_smooth;
                gain_smooth := _bandpass_model f_smooth A_opt f0_opt Q_opt |})).
Proof.
  intros Hlen mask Hcount Hguess Hmin Hmax.
  assert (Hmlen : length mask = length freqs).
  { unfold mask. rewrite length_map, length_combine. lia. }
  unfold fit_bandpass_rlc, broadcast.
  rewrite Hlen, Nat.eqb_refl, bind_Ok. fold mask.
  destruct (Nat.ltb_spec (Np.count_nonzero mask) 5) as [Hc | _]; [lia |].
  rewrite !index_mask_ok, !bind_Ok by lia.
  rewrite Hguess, bind_Ok. destruct guess as [[A0 f0_0] Q0].
  destruct (match curve_fit with Some _ => _ | None => _ end) as [[A_opt f0_opt] Q_opt].
  rewrite Hmin, Hmax, !bind_Ok. reflexivity.
Qed.

Lemma posfin_list_real (l : list float) :
  Forall posfin l -> exists rs, l = map Fin rs /\ Forall (fun x => 0 < x)%R rs.
Proof.
  induction 1 as [| a l (r & -> & Hr) _ (rs & -> & Hrs)].
  - exists []. split; [reflexivity | constructor].
  - exists (r :: rs). split; [reflexivity | constructor; assumption].
Qed.

End FitResult.

Lemma Forall2_Forall_r {A B : Type} (P : A -> Prop) (Q : B -> Prop) (rel : A -> B -> Prop)
    (u : list A) (v : list B) :
  (forall a b, P a -> rel a b -> Q b) -> Forall P u -> Forall2 rel u v -> Forall Q v.
Proof.
  intros H Hu Huv. induction Huv as [| a b u v Hab Huv IH]; [constructor |].
  inversion Hu as [| ? ? Ha Hu']; subst. constructor; [exact (H a b Ha Hab) | apply IH, Hu'].
Qed.

(** X14.  When at least five points are valid and the optimizer is of no
    help (SciPy is absent or [curve_fit] raises), [fit_bandpass_rlc]
    falls back to the initial guess computed on the valid points: [A] is
    their greatest gain, [f0] the frequency where it is reached, and [Q]
    lies in [0.1, 200].  The smooth curve has [n_points] frequencies
    between the least and the greatest valid frequency, and gains
    between 0 and [A]. *)
Theorem fit_falls_back_to_guess
    (curve_fit : option ((list float -> float -> float -> float -> list float) ->
                         list float -> list float -> float * float * float -> Z ->
                         option (float * float * float)))
    (freqs gains : list float) (n : Z) :
  length freqs = length gains ->
  let mask := map valid_point (combine freqs gains) in
  (5 <= Np.count_nonzero mask)%nat -> (0 <= n)%Z -> unavailable curve_fit ->
  exists r fr gr idx A0 f00 Q0 lo hi fsm gsm,
    Np.select freqs mask = map Fin fr /\ Np.select gains mask = map Fin gr
    /\ fit_bandpass_rlc curve_fit freqs gains n = Ok (Some r)
    /\ fit_A r = Fin A0 /\ fit_f0 r = Fin f00 /\ fit_Q r = Fin Q0
    /\ nth_error gr idx = Some A0 /\ nth_error fr idx = Some f00
    /\ Forall (fun g => 0 < g <= A0) gr
    /\ 0.1 <= Q0 <= 200
    /\ In lo fr /\ In hi fr /\ Forall (fun f => 0 < lo <= f /\ f <= hi) fr
    /\ freq_smooth r = map Fin fsm /\ length fsm = Z.to_nat n
    /\ Forall (fun f => lo <= f <= hi) fsm
    /\ gain_smooth r = map Fin gsm /\ length gsm = Z.to_nat n
    /\ Forall (fun g => 0 <= g <= A0) gsm.
Proof.
  intros Hlen mask Hcount Hn Hcf.
  assert (Hmlen : length mask = length freqs).
  { unfold mask. rewrite length_map, length_combine. lia. }
  destruct (select_valid freqs gains Hlen) as [Hf Hg]. fold mask in Hf, Hg.
  pose proof (select_length freqs mask ltac:(lia)) as Hflen.
  pose proof (select_length gains mask ltac:(lia)) as Hglen.
  destruct (posfin_list_real _ Hf) as (fr & Efr & Hfr).
  destruct (posfin_list_real _ Hg) as (gr & Egr & Hgr).
  rewrite Efr, length_map in Hflen. rewrite Egr, length_map in Hglen.
  assert (Hfne : fr <> []) by (intros ->; cbn in Hflen; lia).
  assert (Hgne : gr <> []) by (intros ->; cbn in Hglen; lia).
  destruct (initial_guess_real fr gr ltac:(lia) Hgne)
    as (idx & A0 & f00 & Q0 & Hguess & HA0 & Hf00 & Hall & _ & HQ0).
  destruct (np_min_real fr Hfne) as (lo & Hlo & Hinlo & Halllo).
  destruct (np_max_real fr Hfne) as (hi & Hhi & Hinhi & Hallhi).
  rewrite List.Forall_forall in Hfr, Hgr, Halllo, Hallhi, Hall.
  assert (Hlopos : 0 < lo) by (apply Hfr, Hinlo).
  assert (Hlohi : lo <= hi) by (apply Halllo, Hinhi).
  assert (HA0pos : 0 < A0) by (apply Hgr; apply (nth_error_In _ _ HA0)).
  assert (Hf00pos : 0 < f00) by (apply Hfr; apply (nth_error_In _ _ Hf00)).
  destruct (logspace_real lo hi n ltac:(lra) Hn) as (fsm & Hfsm & Hfsmlen & Hfsmall & _).
  destruct (bandpass_curve_bounds fsm A0 f00 Q0 ltac:(lra) ltac:(lra)) as (gsm & Hgsm & Hgsmall).
  eexists. exists fr, gr, idx, A0, f00, Q0, lo, hi, fsm, gsm.
  split; [exact Efr |]. split; [exact Egr |].
  split.
  { rewrite (fit_unfold curve_fit freqs gains n (Fin A0, Fin f00, Fin Q0) (Fin lo) (Fin hi) Hlen);
      fold mask; rewrite ?Efr, ?Egr; try assumption.
    rewrite Hfsm, bind_Ok.
    assert (Hopt : match curve_fit with
                   | Some fit =>
                       match fit _bandpass_model (map Fin fr) (map Fin gr)
                               (Fin A0, Fin f00, Fin Q0) 10000%Z with
                       | Some popt => popt
                       | None => (Fin A0, Fin f00, Fin Q0)
                       end
                   | None => (Fin A0, Fin f00, Fin Q0)
                   end = (Fin A0, Fin f00, Fin Q0)).
    { destruct curve_fit as [fit |]; [| reflexivity]. cbn [unavailable] in Hcf.
      rewrite Hcf. reflexivity. }
    rewrite Hopt. reflexivity. }
  cbn [fit_A fit_f0 fit_Q freq_smooth gain_smooth].
  split; [reflexivity |]. split; [reflexivity |]. split; [reflexivity |].
  split; [exact HA0 |]. split; [exact Hf00 |].
  split; [apply List.Forall_forall; intros g Hgin; split; [apply Hgr | apply Hall]; exact Hgin |].
  split; [exact HQ0 |]. split; [exact Hinlo |]. split; [exact Hinhi |].
  split.
  { apply List.Forall_forall. intros f Hfin.
    split; [split; [exact Hlopos | apply Halllo, Hfin] | apply Hallhi, Hfin]. }
  split; [reflexivity |]. split; [exact Hfsmlen |]. split; [exact Hfsmall |].
  split; [exact Hgsm |].
  split; [rewrite <- (Forall2_length _ _ _ Hgsmall); exact Hfsmlen |].
  eapply Forall2_Forall_r; [| exact Hfsmall | exact Hgsmall].
  intros f g Hfb Hrel. cbv beta in *. destruct Hrel as (Habs & Hnonneg & _).
  assert (Hq : 0 <= f / f00 / Q0).
  { apply Rlt_le. apply Rdiv_lt_0_compat; [apply Rdiv_lt_0_compat |]; lra. }
  specialize (Hnonneg ltac:(lra) Hq).
  rewrite (Rabs_pos_eq g), (Rabs_pos_eq A0) in Habs by lra. lra.
Qed.

Lemma valid_point_Fin (x y : R) : 0 < x -> 0 < y -> valid_point (Fin x, Fin y) = true.
Proof. intros Hx Hy. apply valid_point_spec. split; eexists; split; try reflexivity; assumption. Qed.

Lemma fit_falls_back_to_guess_witness :
  let freqs := [Fin 500; Fin 1000; Fin 2000; NaN; Fin 4000; Fin 8000] in
  let gains := [Fin 0.2; Fin 0.5; Fin 1; Fin 1; Fin 0.5; Fin 0.2] in
  let mask := map valid_point (combine freqs gains) in
  exists r fr gr idx A0 f00 Q0 lo hi fsm gsm,
    Np.select freqs mask = map Fin fr /\ Np.select gains mask = map Fin gr
    /\ fit_bandpass_rlc None freqs gains 600 = Ok (Some r)
    /\ fit_A r = Fin A0 /\ fit_f0 r = Fin f00 /\ fit_Q r = Fin Q0
    /\ nth_error gr idx = Some A0 /\ nth_error fr idx = Some f00
    /\ Forall (fun g => 0 < g <= A0) gr
    /\ 0.1 <= Q0 <= 200
    /\ In lo fr /\ In hi fr /\ Forall (fun f => 0 < lo <= f /\ f <= hi) fr
    /\ freq_smooth r = map Fin fsm /\ length fsm = Z.to_nat 600
    /\ Forall (fun f => lo <= f <= hi) fsm
    /\ gain_smooth r = map Fin gsm /\ length gsm = Z.to_nat 600
    /\ Forall (fun g => 0 <= g <= A0) gsm.
Proof.
  apply (fit_falls_back_to_guess None
           [Fin 500; Fin 1000; Fin 2000; NaN; Fin 4000; Fin 8000]
           [Fin 0.2; Fin 0.5; Fin 1; Fin 1; Fin 0.5; Fin 0.2] 600).
  - reflexivity.
  - cbn [combine map]. rewrite !valid_point_Fin by lra.
    change (valid_point (NaN, Fin 1)) with false. cbn. lia.
  - lia.
  - exact I.
Defined.

Section FitCleaning.

Lemma combine_select {A B : Type} (u : list A) (v : list B) (mask : list bool) :
  length u = length v ->
  combine (Np.select u mask) (Np.select v mask) = Np.select (combine u v) mask.
Proof.
  revert v mask. induction u as [| a u IH]; intros [| b v] [| m mask] Hlen;
    try discriminate; try reflexivity.
  injection Hlen as Hlen. cbn [Np.select combine].
  destruct m; cbn [combine]; rewrite IH by exact Hlen; reflexivity.
Qed.

Lemma select_own_mask {A : Type} (f : A -> bool) (l : list A) :
  map f (Np.select l (map f l)) = repeat true (Np.count_nonzero (map f l)).
Proof.
  induction l as [| a l IH]; [reflexivity |].
  cbn [map Np.select]. unfold Np.count_nonzero in *. cbn [List.filter].
  destruct (f a) eqn:E; [| exact IH].
  cbn [map length repeat]. rewrite E, IH. reflexivity.
Qed.

Lemma select_all_true {A : Type} (l : list A) : Np.select l (repeat true (length l)) = l.
Proof. induction l as [| a l IH]; [reflexivity |]. cbn. rewrite IH. reflexivity. Qed.

Lemma count_repeat_true (k : nat) : Np.count_nonzero (repeat true k) = k.
Proof.
  unfold Np.count_nonzero. induction k as [| k IH]; [reflexivity |]. cbn. rewrite IH. reflexivity.
Qed.

End FitCleaning.

(** X15.  The fit depends on the valid points only: fitting the raw
    arrays and fitting the arrays from which the invalid entries (not
    finite, or not positive) have been removed give the same result,
    for any optimizer and any [n_points]. *)
Theorem fit_depends_on_valid_points
    (curve_fit : option ((list float -> float -> float -> float -> list float) ->
                         list float -> list float -> float * float * float -> Z ->
                         option (float * float * float)))
    (freqs gains : list float) (n : Z) :
  length freqs = length gains ->
  let mask := map valid_point (combine freqs gains) in
  fit_bandpass_rlc curve_fit freqs gains n
  = fit_bandpass_rlc curve_fit (Np.select freqs mask) (Np.select gains mask) n.
Proof.
  intros Hlen mask.
  assert (Hmlen : length mask = length freqs).
  { unfold mask. rewrite length_map, length_combine. lia. }
  pose proof (select_length freqs mask ltac:(lia)) as Hflen.
  pose proof (select_length gains mask ltac:(lia)) as Hglen.
  set (f := Np.select freqs mask) in *. set (g := Np.select gains mask) in *.
  assert (Hmask' : map valid_point (combine f g) = repeat true (Np.count_nonzero mask)).
  { unfold f, g. rewrite combine_select by exact Hlen. apply select_own_mask. }
  unfold fit_bandpass_rlc, broadcast.
  rewrite Hlen, Nat.eqb_refl, bind_Ok. fold mask.
  rewrite Hflen, Hglen, Nat.eqb_refl, bind_Ok, Hmask', count_repeat_true.
  destruct (Np.count_nonzero mask <? 5)%nat; [reflexivity |].
  rewrite (index_mask_ok freqs mask), (index_mask_ok gains mask) by lia. fold f g.
  rewrite <- Hflen at 1. rewrite <- Hglen.
  rewrite (index_mask_ok f), (index_mask_ok g) by (rewrite repeat_length; reflexivity).
  rewrite !select_all_true. reflexivity.
Qed.

Lemma fit_depends_on_valid_points_witness :
  fit_bandpass_rlc None [Fin 1; NaN; Fin 3] [Fin 2; Fin 1; Fin (-1)] 600
  = fit_bandpass_rlc None
      (Np.select [Fin 1; NaN; Fin 3]
         (map valid_point (combine [Fin 1; NaN; Fin 3] [Fin 2; Fin 1; Fin (-1)])))
      (Np.select [Fin 2; Fin 1; Fin (-1)]
         (map valid_point (combine [Fin 1; NaN; Fin 3] [Fin 2; Fin 1; Fin (-1)]))) 600.
Proof.
  apply (fit_depends_on_valid_points None [Fin 1; NaN; Fin 3] [Fin 2; Fin 1; Fin (-1)] 600).
  reflexivity.
Defined.

(** ** Reconstruction by re-simulation *)

Section Resimulation.

Variable float_of_string : string -> option float.

Local Open Scope float_scope.

(** A sweep with a missing bound is the sweep with no bound. *)
Lemma simulate_auto (R_nom L_nom C_nom tol_R tol_L tol_C V : float)
    (fmin fmax : option float) (n : Z) :
  fmin = None \/ fmax = None ->
  simulate_response_with_tolerances R_nom L_nom C_nom tol_R tol_L tol_C V fmin fmax n
  = simulate_response_with_tolerances R_nom L_nom C_nom tol_R tol_L tol_C V None None n.
Proof.
  intros [-> | ->]; [reflexivity |]. destruct fmin; reflexivity.
Qed.

Lemma dict_or_empty_dict (d : pydict) : dict_or_empty (VDict d) = Ok d.
Proof.
  unfold dict_or_empty. cbn [truthy]. destruct (size d =? 0)%nat eqn:E; [| reflexivity].
  apply Nat.eqb_eq, map_size_empty_iff in E. subst d. reflexivity.
Qed.

Lemma dict_get_delete_ne (d : pydict) (k k' : string) :
  k <> k' -> dict_get (delete k d) k' = dict_get d k'.
Proof. intros H. unfold dict_get. rewrite lookup_delete_ne by exact H. reflexivity. Qed.

Lemma dict_get_or_delete_ne (d : pydict) (k k' : string) (v : pyval) :
  k <> k' -> dict_get_or (delete k d) k' v = dict_get_or d k' v.
Proof. intros H. unfold dict_get_or. rewrite lookup_delete_ne by exact H. reflexivity. Qed.

Lemma dict_get_delete (d : pydict) (k : string) : dict_get (delete k d) k = VNone.
Proof. unfold dict_get. rewrite lookup_delete_eq. reflexivity. Qed.

(** The bounds handed to the simulation, after the three checks of the
    caller. *)
Lemma stored_bounds_invalid (oa ob : option R) :
  ~ (exists a b, oa = Some a /\ ob = Some b /\ (0 < a < b)%R) ->
  let f_min_Hz := match Fin <$> oa with
                  | Some v => if v <=? Fin 0 then None else Some v
                  | None => None
                  end in
  let f_max_Hz := match Fin <$> ob with
                  | Some v => if v <=? Fin 0 then None else Some v
                  | None => None
                  end in
  let p := match f_min_Hz, f_max_Hz with
           | Some lo, Some hi => if lo >=? hi then (None, None) else (Some lo, Some hi)
           | _, _ => (f_min_Hz, f_max_Hz)
           end in
  fst p = None \/ snd p = None.
Proof.
  intros Hinv. cbv zeta.
  destruct oa as [a |]; [| left; reflexivity].
  destruct ob as [b |]; cbn [fmap option_fmap option_map].
  - destruct (Rle_dec a 0) as [Ha | Ha];
      [rewrite (fle_Fin_true a 0) by exact Ha; left; reflexivity |].
    rewrite (fle_Fin_false a 0) by lra.
    destruct (Rle_dec b 0) as [Hb | Hb];
      [rewrite (fle_Fin_true b 0) by exact Hb; right; reflexivity |].
    rewrite (fle_Fin_false b 0) by lra. unfold fge.
    destruct (Rle_dec b a) as [Hba | Hba];
      [rewrite (fle_Fin_true b a) by exact Hba; left; reflexivity |].
    exfalso. apply Hinv. exists a, b. repeat split; lra.
  - destruct (Fin a <=? Fin 0); right; reflexivity.
Qed.

Lemma dict_get_empty (k : string) : dict_get ∅ k = VNone.
Proof. unfold dict_get. rewrite lookup_empty. reflexivity. Qed.

Lemma saved_samples_delete (params : pydict) (k : string) (cp : pyval) :
  k <> "metrics"%string ->
  saved_samples float_of_string (delete k params) cp = saved_samples float_of_string params cp.
Proof. intros H. unfold saved_samples. rewrite dict_get_delete_ne by exact H. reflexivity. Qed.

Lemma resimulate_invalid_range (params fr : pydict) (oa ob : option R) (n : option Z) :
  params !! "freq_range" = Some (VDict fr) ->
  _safe_float float_of_string (dict_get fr "f_min_Hz") None = Fin <$> oa ->
  _safe_float float_of_string (dict_get fr "f_max_Hz") None = Fin <$> ob ->
  ~ (exists a b, oa = Some a /\ ob = Some b /\ (0 < a < b)%R) ->
  resimulate float_of_string params n
  = resimulate float_of_string (delete "freq_range" params) n.
Proof.
  intros Hfr Hmin Hmax Hinv. unfold resimulate.
  rewrite (dict_get_delete_ne params "freq_range" "R"),
    (dict_get_delete_ne params "freq_range" "L"),
    (dict_get_delete_ne params "freq_range" "C"),
    (dict_get_delete_ne params "freq_range" "R_tol"),
    (dict_get_delete_ne params "freq_range" "L_tol"),
    (dict_get_delete_ne params "freq_range" "C_tol"),
    (dict_get_delete_ne params "freq_range" "V_in"),
    (dict_get_delete_ne params "freq_range" "metrics"),
    (dict_get_or_delete_ne params "freq_range" "R_unit"),
    (dict_get_or_delete_ne params "freq_range" "L_unit"),
    (dict_get_or_delete_ne params "freq_range" "C_unit") by discriminate.
  rewrite dict_get_delete, (dict_get_Some params "freq_range" _ Hfr), dict_or_empty_dict.
  change (dict_or_empty VNone) with (Ok (∅ : pydict)).
  repeat match goal with
         | |- @mbind _ _ _ _ _ ?m = @mbind _ _ _ _ _ ?m =>
             destruct m as [? | ?]; [rewrite !bind_Ok | reflexivity]
         end.
  rewrite Hmin, Hmax.
  pose proof (stored_bounds_invalid oa ob Hinv) as Hp. cbv zeta in Hp.
  match type of Hp with
  | (fst ?p = None \/ _) => destruct p as [fmin fmax]
  end.
  cbn [fst snd] in Hp. rewrite (simulate_auto _ _ _ _ _ _ _ fmin fmax _ Hp).
  rewrite !dict_get_empty. reflexivity.
Qed.

(** X16.  The re-simulation trusts a stored frequency range only when it
    is valid.  When the record's [freq_range] holds bounds that are
    missing, not positive, or not in increasing order, the reconstructed
    curve is the one of the same record without [freq_range]: the sweep
    falls back to the automatic range around the resonance frequency. *)
Theorem reconstruct_ignores_invalid_range (params fr : pydict) (oa ob : option R)
    (n : option Z) :
  params !! "freq_range" = Some (VDict fr) ->
  _safe_float float_of_string (dict_get fr "f_min_Hz") None = Fin <$> oa ->
  _safe_float float_of_string (dict_get fr "f_max_Hz") None = Fin <$> ob ->
  ~ (exists a b, oa = Some a /\ ob = Some b /\ (0 < a < b)%R) ->
  reconstruct_theoretical_curve float_of_string params n
  = reconstruct_theoretical_curve float_of_string (delete "freq_range" params) n.
Proof.
  intros Hfr Hmin Hmax Hinv. unfold reconstruct_theoretical_curve.
  rewrite saved_samples_delete, dict_get_delete_ne by discriminate.
  destruct (saved_samples _ _ _); [reflexivity |].
  exact (resimulate_invalid_range params fr oa ob n Hfr Hmin Hmax Hinv).
Qed.

End Resimulation.

Lemma reconstruct_ignores_invalid_range_witness :
  reconstruct_theoretical_curve legacy_samples.parse legacy_samples.legacy_params None
  = reconstruct_theoretical_curve legacy_samples.parse
      (delete "freq_range" legacy_samples.legacy_params) None.
Proof.
  apply (reconstruct_ignores_invalid_range legacy_samples.parse legacy_samples.legacy_params
           legacy_samples.inverted_range (Some 1000) (Some 500) None).
  - reflexivity.
  - reflexivity.
  - reflexivity.
  - intros (a & b & Ha & Hb & Hab). injection Ha as <-. injection Hb as <-. lra.
Defined.

(** ** Unit multipliers *)

Section UnitTables.

Local Open Scope R_scope.

Lemma table_lookup (l : list (string * R)) (u : string) (m : R) :
  (list_to_map l : gmap string R) !! u = Some m -> In (u, m) l.
Proof. intros H. apply elem_of_list_to_map_2 in H. apply list_elem_of_In, H. Qed.

Ltac table_cases H :=
  apply table_lookup in H; cbn [In] in H;
  repeat match type of H with
         | _ \/ _ =>
             let H1 := fresh "Hhere" in
             let H2 := fresh "Hnext" in
             destruct H as [H1 | H2]; [injection H1 as <- <- | rename H2 into H]
         | False => destruct H
         end.

Lemma multiplier_of_pos (u : string) : 0 < units.multiplier_of u.
Proof.
  unfold units.multiplier_of.
  destruct (units.RESISTOR_UNITS !! u) as [m |] eqn:E1; [table_cases E1; lra |].
  destruct (units.INDUCTOR_UNITS !! u) as [m |] eqn:E2; [table_cases E2; lra |].
  destruct (units.CAPACITOR_UNITS !! u) as [m |] eqn:E3; [table_cases E3; lra |].
  destruct (units.FREQUENCY_UNITS !! u) as [m |] eqn:E4; [table_cases E4; lra |].
  lra.
Qed.

(** No unit name is in two tables. *)
Lemma tables_disjoint (u : string) (m : R) :
  (units.RESISTOR_UNITS !! u = Some m ->
   units.INDUCTOR_UNITS !! u = None /\ units.CAPACITOR_UNITS !! u = None
   /\ units.FREQUENCY_UNITS !! u = None)
  /\ (units.INDUCTOR_UNITS !! u = Some m ->
      units.RESISTOR_UNITS !! u = None /\ units.CAPACITOR_UNITS !! u = None
      /\ units.FREQUENCY_UNITS !! u = None)
  /\ (units.CAPACITOR_UNITS !! u = Some m ->
      units.RESISTOR_UNITS !! u = None /\ units.INDUCTOR_UNITS !! u = None
      /\ units.FREQUENCY_UNITS !! u = None)
  /\ (units.FREQUENCY_UNITS !! u = Some m ->
      units.RESISTOR_UNITS !! u = None /\ units.INDUCTOR_UNITS !! u = None
      /\ units.CAPACITOR_UNITS !! u = None).
Proof.
  split; [| split; [| split]]; intros Hu; table_cases Hu; repeat split; reflexivity.
Qed.

End UnitTables.

(** X17.  [get_multiplier] on a unit name returns a positive real number:
    the entry of whichever table holds the name — no name is in two
    tables, so that the order in which the tables are searched does not
    matter — and 1 for a name that no table holds. *)
Theorem get_multiplier_tables (u : string) :
  exists m : R,
    units.get_multiplier (VStr u) = Ok (Fin m)
    /\ (0 < m)%R
    /\ (forall table m',
          In table [units.RESISTOR_UNITS; units.INDUCTOR_UNITS;
                    units.CAPACITOR_UNITS; units.FREQUENCY_UNITS] ->
          table !! u = Some m' -> m = m')
    /\ (units.RESISTOR_UNITS !! u = None -> units.INDUCTOR_UNITS !! u = None ->
        units.CAPACITOR_UNITS !! u = None -> units.FREQUENCY_UNITS !! u = None ->
        m = 1%R).
Proof.
  exists (units.multiplier_of u). split; [reflexivity |].
  split; [apply multiplier_of_pos |]. split.
  - intros table m' Hin Hu. cbn [In] in Hin.
    destruct (tables_disjoint u m') as (HR & HL & HC & HF).
    unfold units.multiplier_of.
    destruct Hin as [<- | [<- | [<- | [<- | []]]]].
    + rewrite Hu. reflexivity.
    + destruct (HL Hu) as (-> & _). rewrite Hu. reflexivity.
    + destruct (HC Hu) as (-> & -> & _). rewrite Hu. reflexivity.
    + destruct (HF Hu) as (-> & -> & ->). rewrite Hu. reflexivity.
  - intros H1 H2 H3 H4. unfold units.multiplier_of. rewrite H1, H2, H3, H4. lra.
Qed.

(** ** The re-simulated curve *)

(** The gain at a frequency where the reactance denominator does not
    vanish is strictly positive. *)
Lemma gain_point_pos (R L C f e : R) :
  0 < R -> 2 * PI * f * C + e <> 0 ->
  exists g,
    (Fin R / fsqrt (sq (Fin R)
                    + sq (two_pi * Fin f * Fin L - Fin 1 / (two_pi * Fin f * Fin C + Fin e))))%fl
    = Fin g
    /\ 0 < g <= 1.
Proof.
  intros HR Hz. rewrite two_pi_Fin, !fmul_Fin, fadd_Fin.
  rewrite (fdiv_Fin 1) by exact Hz. rewrite fsub_Fin, !sq_Fin, fadd_Fin.
  set (d := 2 * PI * f * L - 1 / (2 * PI * f * C + e)).
  pose proof (sqrt_sum_sq_ge R d HR) as Hz0.
  rewrite fsqrt_Fin by nra. rewrite fdiv_Fin by lra.
  eexists. split; [reflexivity |].
  set (z := sqrt (R * R + d * d)) in *.
  assert (Hinv : 0 < / z) by (apply Rinv_0_lt_compat; lra).
  assert (Hone : z * / z = 1) by (apply Rinv_r; lra).
  unfold Rdiv. split; nra.
Qed.

(** The nominal output voltage on positive frequencies, for positive
    components and a positive input amplitude. *)
Lemma corner_vout_pos (fs : list R) (R L C V : R) :
  0 < R -> 0 < C -> 0 < V -> Forall (fun f => 0 < f) fs ->
  exists vs,
    corner_vout (map Fin fs) (Fin V) (Fin R, Fin L, Fin C) = map Fin vs
    /\ length vs = length fs
    /\ Forall (fun v => 0 < v) vs.
Proof.
  intros HR HC HV Hfs. unfold corner_vout, _transfer_gain. cbv zeta.
  induction Hfs as [| f fs Hf _ (vs & Hvs & Hlen & Hall)].
  - exists []. repeat split. constructor.
  - assert (Hz : 2 * PI * f * C + 1e-30 <> 0).
    { pose proof PI_RGT_0. assert (0 < 2 * PI * f * C) by pos. lra. }
    destruct (gain_point_pos R L C f 1e-30 HR Hz) as (g & Hg & Hb).
    exists (g * V :: vs). cbn [map length] in *. rewrite Hg, Hvs, Hlen, fmul_Fin.
    split; [reflexivity |]. split; [reflexivity |]. constructor; [nra | exact Hall].
Qed.

(** With positive components and a positive input amplitude the
    simulation returns a sweep of positive frequencies and a nominal
    curve of positive voltages. *)
Lemma simulate_nominal_pos (fmin fmax : option R) (R L C tR tL tC V : R) (n : Z) :
  0 < R -> 0 < L -> 0 < C -> 0 < V -> (0 <= n)%Z ->
  exists sim fs noms,
    simulate_response_with_tolerances (Fin R) (Fin L) (Fin C) (Fin tR) (Fin tL) (Fin tC)
      (Fin V) (Fin <$> fmin) (Fin <$> fmax) n = Ok sim
    /\ sim_freqs sim = map Fin fs
    /\ nom_curve_Vout sim = map Fin noms
    /\ length fs = Z.to_nat n /\ length noms = Z.to_nat n
    /\ Forall (fun f => 0 < f) fs
    /\ Forall (fun v => 0 < v) noms
    /\ metrics_nom sim = metrics_of R L C.
Proof.
  intros HR HL HC HV Hn.
  destruct (compute_metrics_pos R L C HR HL HC) as (nom & Hnom & Hcalc & Hf0).
  rewrite calculate_nominal_metrics_of in Hcalc by assumption.
  injection Hcalc as Hcalc.
  assert (Hx : 0 < 1 / sqrt (L * C) / (2 * PI)) by pos.
  set (x := 1 / sqrt (L * C) / (2 * PI)) in *.
  destruct (simulate_sweep (Fin R) (Fin L) (Fin C) (Fin tR) (Fin tL) (Fin tC) (Fin V)
              (Fin <$> fmin) (Fin <$> fmax) n nom Hnom Hn)
    as (ms & sim & _ & Hsim & Hmnom & Hfreqs & Hcurve & _).
  cbv zeta in Hfreqs. rewrite Hf0 in Hfreqs.
  destruct (effective_range_pos fmin fmax x Hx) as (lo & hi & Hrng & Hlo).
  rewrite Hrng in Hfreqs. cbn [fst snd] in Hfreqs.
  destruct (logspace_real lo hi n ltac:(lra) Hn) as (fs & Hfs & Hlen & Hall & _).
  rewrite Hfs in Hfreqs. injection Hfreqs as Hfreqs.
  assert (Hpos : Forall (fun f => 0 < f) fs).
  { revert Hall. apply List.Forall_impl. intros f Hf. lra. }
  rewrite <- Hfreqs in Hcurve.
  destruct (corner_vout_pos fs R L C V HR HC HV Hpos) as (noms & Hnoms & Hnlen & Hnall).
  exists sim, fs, noms.
  split; [exact Hsim |]. split; [symmetry; exact Hfreqs |].
  split; [rewrite Hcurve; exact Hnoms |]. split; [exact Hlen |].
  split; [rewrite Hnlen; exact Hlen |]. split; [exact Hpos |].
  split; [exact Hnall |]. rewrite Hmnom. symmetry. exact Hcalc.
Qed.

(** The normalisation of a non-empty curve of positive voltages: the
    division by the input amplitude and then by the greatest gain. *)
Lemma normalise_real (noms : list R) (V : R) :
  0 < V -> noms <> [] -> Forall (fun v => 0 < v) noms ->
  exists gs mx,
    (match map (fun v : float => (v / Fin V)%fl) (map Fin noms) with
     | [] => Ok (Fin 0.0)
     | _ => Np.max (map (fun v : float => (v / Fin V)%fl) (map Fin noms))
     end) = Ok (Fin mx)
    /\ (if (Fin mx >? Fin 0)%fl
        then map (fun g : float => (g / Fin mx)%fl)
               (map (fun v : float => (v / Fin V)%fl) (map Fin noms))
        else map (fun v : float => (v / Fin V)%fl) (map Fin noms)) = map Fin gs
    /\ length gs = length noms
    /\ Forall (fun g => 0 < g <= 1) gs
    /\ In 1 gs.
Proof.
  intros HV Hne Hall.
  assert (Hgain : map (fun v : float => (v / Fin V)%fl) (map Fin noms)
                  = map Fin (map (fun v => v / V) noms)).
  { rewrite !map_map. apply map_ext. intros v. apply fdiv_Fin. lra. }
  rewrite Hgain.
  assert (Hne' : map (fun v => v / V) noms <> []) by (destruct noms; [contradiction | discriminate]).
  destruct (np_max_real _ Hne') as (mx & Hmx & Hin & Hle).
  assert (Hpos : Forall (fun g => 0 < g) (map (fun v => v / V) noms)).
  { apply List.Forall_forall. intros g Hg. apply in_map_iff in Hg as (v & <- & Hv).
    rewrite List.Forall_forall in Hall. specialize (Hall v Hv). pos. }
  assert (Hmxpos : 0 < mx) by (rewrite List.Forall_forall in Hpos; apply Hpos, Hin).
  exists (map (fun g => g / mx) (map (fun v => v / V) noms)), mx.
  split.
  { destruct (map Fin (map (fun v => v / V) noms)) eqn:E; [| exact Hmx].
    destruct noms; [contradiction | discriminate E]. }
  rewrite (fgt_Fin_true mx 0) by exact Hmxpos.
  split.
  { rewrite !map_map. apply map_ext. intros v. apply fdiv_Fin. lra. }
  split; [rewrite !length_map; reflexivity |].
  split.
  - apply List.Forall_forall. intros g Hg. apply in_map_iff in Hg as (g' & <- & Hg').
    rewrite List.Forall_forall in Hpos, Hle.
    specialize (Hpos g' Hg'). specialize (Hle g' Hg').
    split; [pos |].
    apply (Rmult_le_reg_r mx); [exact Hmxpos |].
    replace (g' / mx * mx) with g' by (field; lra). lra.
  - apply in_map_iff. exists mx. split; [field; lra | exact Hin].
Qed.

Section ResimulatedCurve.

Variable float_of_string : string -> option float.

Local Open Scope float_scope.

(** The bounds handed to the simulation are real numbers or [None]. *)
Lemma stored_bounds_real (oa ob : option R) :
  exists oa' ob' : option R,
    (let f_min_Hz := match Fin <$> oa with
                     | Some v => if v <=? Fin 0 then None else Some v
                     | None => None
                     end in
     let f_max_Hz := match Fin <$> ob with
                     | Some v => if v <=? Fin 0 then None else Some v
                     | None => None
                     end in
     match f_min_Hz, f_max_Hz with
     | Some lo, Some hi => if lo >=? hi then (None, None) else (Some lo, Some hi)
     | _, _ => (f_min_Hz, f_max_Hz)
     end) = (Fin <$> oa', Fin <$> ob').
Proof.
  cbv zeta.
  destruct oa as [a |]; destruct ob as [b |]; cbn [fmap option_fmap option_map].
  - destruct (Fin a <=? Fin 0); destruct (Fin b <=? Fin 0).
    + exists None, None. reflexivity.
    + exists None, (Some b). reflexivity.
    + exists (Some a), None. reflexivity.
    + destruct (Fin a >=? Fin b).
      * exists None, None. reflexivity.
      * exists (Some a), (Some b). reflexivity.
  - destruct (Fin a <=? Fin 0).
    + exists None, None. reflexivity.
    + exists (Some a), None. reflexivity.
  - destruct (Fin b <=? Fin 0).
    + exists None, None. reflexivity.
    + exists None, (Some b). reflexivity.
  - exists None, None. reflexivity.
Qed.

(** X18.  A record of the old format (no saved samples) whose nominal
    fields read as positive real numbers, with unit names, real
    tolerances, a real input amplitude and real stored bounds (or none),
    is re-simulated into a normalised curve: [num_points] rows (500 by
    default) of positive real frequencies and of gains that are real
    numbers in (0, 1], the greatest gain being exactly 1.  Each metric
    returned with it is the number saved under its key in the record's
    metrics block when there is one (a float as it is, an integer or a
    boolean as a float, a text as the number it reads as), and otherwise
    the closed form of the nominal values converted to SI. *)
Theorem resimulated_curve_normalised (params fr ms : pydict) (uR uL uC : string)
    (r l c tR tL tC v : R) (oa ob : option R) (n : option Z) :
  params !! "curve_points" = None ->
  _safe_float float_of_string (dict_get params "R") (Some (Fin 0.0)) = Some (Fin r) ->
  _safe_float float_of_string (dict_get params "L") (Some (Fin 0.0)) = Some (Fin l) ->
  _safe_float float_of_string (dict_get params "C") (Some (Fin 0.0)) = Some (Fin c) ->
  dict_get_or params "R_unit" (VStr "Ω") = VStr uR ->
  dict_get_or params "L_unit" (VStr "H") = VStr uL ->
  dict_get_or params "C_unit" (VStr "F") = VStr uC ->
  _safe_float float_of_string (dict_get params "R_tol") (Some (Fin 0.0)) = Some (Fin tR) ->
  _safe_float float_of_string (dict_get params "L_tol") (Some (Fin 0.0)) = Some (Fin tL) ->
  _safe_float float_of_string (dict_get params "C_tol") (Some (Fin 0.0)) = Some (Fin tC) ->
  _safe_float float_of_string (dict_get params "V_in") (Some (Fin 1.0)) = Some (Fin v) ->
  dict_or_empty (dict_get params "freq_range") = Ok fr ->
  _safe_float float_of_string (dict_get fr "f_min_Hz") None = Fin <$> oa ->
  _safe_float float_of_string (dict_get fr "f_max_Hz") None = Fin <$> ob ->
  dict_or_empty (dict_get params "metrics") = Ok ms ->
  (0 < r)%R -> (0 < l)%R -> (0 < c)%R -> (1 <= default 500%Z n)%Z ->
  let R_nom := (r * units.multiplier_of uR)%R in
  let L_nom := (l * units.multiplier_of uL)%R in
  let C_nom := (c * units.multiplier_of uC)%R in
  let metric (key : string) (nominal : R) : option float :=
    match ms !! key with
    | Some (VFloat x) => Some x
    | Some (VInt z) => Some (Fin (IZR z))
    | Some (VBool b) => Some (Fin (if b then 1 else 0))
    | Some (VStr s) =>
        match float_of_string (replace_comma s) with
        | Some x => Some x
        | None => Some (Fin nominal)
        end
    | Some VNone | Some (VList _) | Some (VDict _) | None => Some (Fin nominal)
    end in
  exists fs gs,
    reconstruct_theoretical_curve float_of_string params n
    = Ok ({| Frequency := map Fin fs; Gain := map Fin gs |},
          {| s_f0 := metric "f0" (f0_of L_nom C_nom);
             s_Q := metric "Q" (Q_of R_nom L_nom C_nom);
             s_BW := metric "BW" (f2_of R_nom L_nom C_nom - f1_of R_nom L_nom C_nom)%R;
             s_f1 := metric "f1" (f1_of R_nom L_nom C_nom);
             s_f2 := metric "f2" (f2_of R_nom L_nom C_nom) |})
    /\ length fs = Z.to_nat (default 500%Z n)
    /\ length gs = Z.to_nat (default 500%Z n)
    /\ Forall (fun f => (0 < f)%R) fs
    /\ Forall (fun g => (0 < g <= 1)%R) gs
    /\ In 1%R gs.
Proof.
  intros Hcp HR HL HC HuR HuL HuC HtR HtL HtC HV Hfr Hmin Hmax Hms Hr Hl Hc Hn
    R_nom L_nom C_nom metric.
  assert (Hmetric : forall key x,
            override float_of_string ms key (Fin x) = metric key x).
  { intros key x. unfold metric, override, dict_get, _safe_float.
    destruct (ms !! key) as [[| b | z | y | s | k | d] |]; reflexivity. }
  unfold reconstruct_theoretical_curve.
  assert (Hnone : dict_get params "curve_points" = VNone)
    by (unfold dict_get; rewrite Hcp; reflexivity).
  rewrite Hnone. cbn [saved_samples]. unfold resimulate.
  rewrite HR, HL, HC, HuR, HuL, HuC, HtR, HtL, HtC, HV, Hfr, Hms.
  cbn [the_float units.get_multiplier]. rewrite !bind_Ok.
  rewrite Hmin, Hmax.
  destruct (stored_bounds_real oa ob) as (oa' & ob' & Hb). cbv zeta in Hb. rewrite Hb.
  assert (HVp : exists V : R, (0 < V)%R /\ (if Fin v <=? Fin 0 then Fin 1.0 else Fin v) = Fin V).
  { destruct (Rle_dec v 0) as [H | H].
    - rewrite (fle_Fin_true v 0) by exact H. exists 1.0%R. split; [lra | reflexivity].
    - rewrite (fle_Fin_false v 0) by lra. exists v. split; [lra | reflexivity]. }
  destruct HVp as (V & HVpos & ->).
  rewrite !fmul_Fin. rewrite !fdiv_Fin by lra.
  pose proof (multiplier_of_pos uR) as HmR.
  pose proof (multiplier_of_pos uL) as HmL.
  pose proof (multiplier_of_pos uC) as HmC.
  fold R_nom L_nom C_nom.
  destruct (simulate_nominal_pos oa' ob' R_nom L_nom C_nom
              (tR / 100) (tL / 100) (tC / 100) V (default 500%Z n)
              ltac:(unfold R_nom; pos) ltac:(unfold L_nom; pos) ltac:(unfold C_nom; pos)
              HVpos ltac:(lia))
    as (sim & fs & noms & Hsim & Hfreqs & Hnoms & Hlen & Hnlen & Hfpos & Hnpos & Hmnom).
  rewrite Hsim, bind_Ok, Hnoms.
  assert (Hne : noms <> []) by (intros ->; cbn [length] in Hnlen; lia).
  destruct (normalise_real noms V HVpos Hne Hnpos) as (gs & mx & Hmx & Hnorm & Hglen & Hgall & Hone).
  rewrite Hmx, !bind_Ok, Hnorm, Hfreqs, Hmnom.
  cbn [metrics_of m_f0 m_Q m_BW m_f1 m_f2]. rewrite !Hmetric.
  exists fs, gs. split; [reflexivity |].
  split; [exact Hlen |]. split; [rewrite Hglen; exact Hnlen |].
  split; [exact Hfpos |]. split; [exact Hgall | exact Hone].
Qed.

End ResimulatedCurve.

Lemma resimulated_curve_normalised_witness :
  let R_nom := 100 * units.multiplier_of "Ω" in
  let L_nom := 1 * units.multiplier_of "mH" in
  let C_nom := 1 * units.multiplier_of "µF" in
  exists fs gs,
    reconstruct_theoretical_curve legacy_samples.parse legacy_samples.params_with_metrics None
    = Ok ({| Frequency := map Fin fs; Gain := map Fin gs |},
          {| s_f0 := Some (Fin 5000);
             s_Q := Some (Fin 10);
             s_BW := Some (Fin (f2_of R_nom L_nom C_nom - f1_of R_nom L_nom C_nom));
             s_f1 := Some (Fin (f1_of R_nom L_nom C_nom));
             s_f2 := Some (Fin (f2_of R_nom L_nom C_nom)) |})
    /\ length fs = Z.to_nat 500
    /\ length gs = Z.to_nat 500
    /\ Forall (fun f => 0 < f) fs
    /\ Forall (fun g => 0 < g <= 1) gs
    /\ In 1 gs.
Proof.
  refine (resimulated_curve_normalised legacy_samples.parse legacy_samples.params_with_metrics
            legacy_samples.inverted_range legacy_samples.saved_block "Ω" "mH" "µF"
            100 1 1 5 10 10 1 (Some 1000) (Some 500) None _ _ _ _ _ _ _ _ _ _ _ _ _ _ _ _ _ _ _);
    first [reflexivity | lra | cbn; lia].
Defined.

(** ** The frequency axis of the plots *)

Section FrequencyAxis.

Context {axes : Type} `{Axes axes}.

Variable format_fixed : nat -> float -> string.

Local Open Scope R_scope.

(** The decade below and the decade above a positive number [x], found
    from a logarithm [y] that is within [delta] of the exact one. *)
Lemma decade_below (x y delta : R) :
  0 < x -> Rabs (y - ln x / ln 10) <= delta ->
  Rpower 10 (IZR (Zfloor y)) <= Rpower 10 delta * x
  /\ x < 10 * Rpower 10 delta * Rpower 10 (IZR (Zfloor y)).
Proof.
  intros Hx Hy. pose proof (Zfloor_bound y) as [Hlo Hhi].
  assert (Hy' : - delta <= y - ln x / ln 10 <= delta)
    by (unfold Rabs in Hy; destruct (Rcase_abs (y - ln x / ln 10)); lra).
  set (k := IZR (Zfloor y)) in *.
  pose proof (Rpower_10_log x Hx) as Hpow.
  assert (H1 : Rpower 10 k <= Rpower 10 (delta + ln x / ln 10)) by (apply Rle_Rpower; lra).
  assert (H2 : Rpower 10 (ln x / ln 10) < Rpower 10 (1 + delta + k)) by (apply Rpower_lt; lra).
  rewrite Rpower_plus, Hpow in H1.
  rewrite !Rpower_plus, Rpower_1, Hpow in H2 by lra.
  split; [exact H1 | exact H2].
Qed.

Lemma decade_above (x y delta : R) :
  0 < x -> Rabs (y - ln x / ln 10) <= delta ->
  x <= Rpower 10 delta * Rpower 10 (IZR (Zceil y))
  /\ Rpower 10 (IZR (Zceil y)) < 10 * Rpower 10 delta * x.
Proof.
  intros Hx Hy. pose proof (Zceil_bound y) as [Hlo Hhi].
  assert (Hy' : - delta <= y - ln x / ln 10 <= delta)
    by (unfold Rabs in Hy; destruct (Rcase_abs (y - ln x / ln 10)); lra).
  set (m := IZR (Zceil y)) in *.
  pose proof (Rpower_10_log x Hx) as Hpow.
  assert (H1 : Rpower 10 (ln x / ln 10) <= Rpower 10 (delta + m)) by (apply Rle_Rpower; lra).
  assert (H2 : Rpower 10 m < Rpower 10 (1 + delta + ln x / ln 10)) by (apply Rpower_lt; lra).
  rewrite Rpower_plus, Hpow in H1.
  rewrite !Rpower_plus, Rpower_1, Hpow in H2 by lra.
  split; [exact H1 | exact H2].
Qed.

(** The unit of the axis is an entry of the frequency table. *)
Lemma axis_unit_in_table (fmax : float) :
  exists (factor : R) (unit : string),
    (if (fmax >=? Fin 1e9)%fl then ("GHz"%string, Fin 1e9)
     else if (fmax >=? Fin 5e6)%fl then ("MHz"%string, Fin 1e6)
     else if (fmax >=? Fin 5e3)%fl then ("kHz"%string, Fin 1e3)
     else ("Hz"%string, Fin 1.0)) = (unit, Fin factor)
    /\ units.FREQUENCY_UNITS !! unit = Some factor
    /\ 0 < factor.
Proof.
  destruct (fmax >=? Fin 1e9)%fl;
    [exists 1e9, "GHz"%string; split; [reflexivity | split; [reflexivity | lra]] |].
  destruct (fmax >=? Fin 5e6)%fl;
    [exists 1e6, "MHz"%string; split; [reflexivity | split; [reflexivity | lra]] |].
  destruct (fmax >=? Fin 5e3)%fl;
    [exists 1e3, "kHz"%string; split; [reflexivity | split; [reflexivity | lra]] |].
  exists 1.0, "Hz"%string. split; [reflexivity | split; [reflexivity | lra]].
Qed.

Lemma lift_bind {A B : Type} (a : A) (f : A -> Ax axes B) : (lift (Ok a) ≫= f) = f a.
Proof. reflexivity. Qed.

(** X19.  On a non-empty array of positive real frequencies,
    [setup_frequency_axis] makes six calls on the axis, in this order:
    the log scale, the limits, the two locators, the formatter and the
    label, and returns the factor and the unit of the label.  The unit
    is an entry of [FREQUENCY_UNITS] with that factor, and the limits are
    that factor times integer powers of ten.  The limits bracket the
    data up to the rounding of [np.log10]: when [np.log10] is within
    [delta] of the exact logarithm, every frequency [f] has
    [lo <= 10^delta * f] and [f <= 10^delta * hi], and the limits are
    less than a decade (times [10^delta]) away from the least and the
    greatest frequency.  A frequency just below a power of ten can
    therefore lie outside the limits by that rounding. *)
Theorem frequency_axis_brackets_data (np_log10 : float -> float) (delta : R) (fs : list R) :
  (forall x, 0 < x ->
     exists y, np_log10 (Fin x) = Fin y /\ Rabs (y - ln x / ln 10) <= delta) ->
  fs <> [] -> Forall (fun f => 0 < f) fs ->
  exists (factor lo hi : R) (unit : string) (k m : Z),
    plot_utils.setup_frequency_axis format_fixed np_log10 (map Fin fs)
    = (_ ← set_xscale "log";
       _ ← set_xlim (Fin lo) (Fin hi);
       _ ← set_major_locator (LogLocator 10 None);
       _ ← set_minor_locator (LogLocator 10 (Some [2; 5]%Z));
       _ ← set_major_formatter (plot_utils.formatter format_fixed (Fin factor));
       _ ← set_xlabel ("Frequência (" ++ unit ++ ")")%string;
       mret (Fin factor, unit))
    /\ units.FREQUENCY_UNITS !! unit = Some factor
    /\ lo = Rpower 10 (IZR k) * factor /\ hi = Rpower 10 (IZR m) * factor
    /\ Forall (fun f => lo <= Rpower 10 delta * f /\ f <= Rpower 10 delta * hi) fs
    /\ Exists (fun f => f < 10 * Rpower 10 delta * lo) fs
    /\ Exists (fun f => hi < 10 * Rpower 10 delta * f) fs.
Proof.
  intros Hlog Hne Hpos.
  destruct (np_min_real fs Hne) as (fmin & Hmin & Hminin & Hminall).
  destruct (np_max_real fs Hne) as (fmax & Hmax & Hmaxin & Hmaxall).
  assert (Hfmin : 0 < fmin) by (rewrite List.Forall_forall in Hpos; apply Hpos, Hminin).
  assert (Hfmax : 0 < fmax) by (rewrite List.Forall_forall in Hpos; apply Hpos, Hmaxin).
  destruct (axis_unit_in_table (Fin fmax)) as (factor & unit & Hunit & Htable & Hfactor).
  destruct (Hlog (fmin / factor) ltac:(pos)) as (ylo & Hylo & Hylo').
  destruct (Hlog (fmax / factor) ltac:(pos)) as (yhi & Hyhi & Hyhi').
  pose proof (decade_below (fmin / factor) ylo delta ltac:(pos) Hylo') as [Hlo1 Hlo2].
  pose proof (decade_above (fmax / factor) yhi delta ltac:(pos) Hyhi') as [Hhi1 Hhi2].
  set (k := Zfloor ylo) in *.
  set (m := Zceil yhi) in *.
  assert (Hp : 0 < Rpower 10 delta) by (unfold Rpower; apply exp_pos).
  set (p := Rpower 10 delta) in *.
  set (a := Rpower 10 (IZR k)) in *.
  set (b := Rpower 10 (IZR m)) in *.
  assert (Hscale : forall y, y / factor * factor = y) by (intros y; field; lra).
  assert (Hlo1' : a * factor <= p * fmin).
  { apply (Rmult_le_compat_r factor) in Hlo1; [| lra].
    replace (p * (fmin / factor) * factor) with (p * fmin) in Hlo1 by (field; lra). exact Hlo1. }
  assert (Hlo2' : fmin < 10 * p * (a * factor)).
  { apply (Rmult_lt_compat_r factor) in Hlo2; [| lra]. rewrite Hscale in Hlo2. lra. }
  assert (Hhi1' : fmax <= p * (b * factor)).
  { apply (Rmult_le_compat_r factor) in Hhi1; [| lra]. rewrite Hscale in Hhi1. lra. }
  assert (Hhi2' : b * factor < 10 * p * fmax).
  { apply (Rmult_lt_compat_r factor) in Hhi2; [| lra].
    replace (10 * p * (fmax / factor) * factor) with (10 * p * fmax) in Hhi2 by (field; lra).
    exact Hhi2. }
  exists factor, (a * factor), (b * factor), unit, k, m.
  split.
  { unfold plot_utils.setup_frequency_axis. rewrite Hmin, lift_bind, Hmax, lift_bind, Hunit.
    rewrite !py_div_Fin, !lift_bind by lra. rewrite Hylo, Hyhi. reflexivity. }
  split; [exact Htable |]. split; [reflexivity |]. split; [reflexivity |].
  split; [| split].
  - rewrite List.Forall_forall in Hminall, Hmaxall. apply List.Forall_forall. intros f Hf.
    specialize (Hminall f Hf). specialize (Hmaxall f Hf). split; [nra | lra].
  - apply List.Exists_exists. exists fmin. split; [exact Hminin | exact Hlo2'].
  - apply List.Exists_exists. exists fmax. split; [exact Hmaxin | exact Hhi2'].
Qed.

End FrequencyAxis.

(** The sample logarithm is within [1e-15] of the exact one. *)
Lemma ln_10_gt_1 : 1 < ln 10.
Proof.
  rewrite <- (ln_exp 1). apply ln_increasing; [apply exp_pos |].
  pose proof exp_le_3. lra.
Qed.

Lemma rounded_log10_close (x : R) :
  0 < x ->
  exists y, axis_samples.rounded_log10 (Fin x) = Fin y /\ Rabs (y - ln x / ln 10) <= 1e-15.
Proof.
  intros Hx. unfold axis_samples.rounded_log10, feqb.
  destruct (Req_dec_T x 999.9999999999999) as [-> | Hne].
  - rewrite Reqb_true by reflexivity. exists 3. split; [reflexivity |].
    pose proof ln_10_gt_1 as H10.
    assert (Hsplit : ln 999.9999999999999 = 3 * ln 10 + ln (1 - 1e-16)).
    { replace 999.9999999999999 with (10 * (10 * (10 * (1 - 1e-16)))) by lra.
      rewrite !ln_mult by lra. ring. }
    assert (Hneg : ln (1 - 1e-16) < 0) by (rewrite <- ln_1; apply ln_increasing; lra).
    assert (Hlow : - 2e-16 < ln (1 - 1e-16)).
    { assert (Hinv : ln (/ (1 - 1e-16)) < 2e-16).
      { apply Rle_lt_trans with (ln (exp 1.5e-16)); [| rewrite ln_exp; lra].
        destruct (Rle_lt_or_eq_dec (1 + 1.5e-16) (exp 1.5e-16) (exp_ineq1_le 1.5e-16)) as [Hlt | Heq].
        - left. apply ln_increasing; [apply Rinv_0_lt_compat; lra |].
          apply Rle_lt_trans with (1 + 1.5e-16); [| exact Hlt].
          apply (Rmult_le_reg_r (1 - 1e-16)); [lra |].
          rewrite Rinv_l by lra. lra.
        - left. apply ln_increasing; [apply Rinv_0_lt_compat; lra |].
          rewrite <- Heq.
          apply (Rmult_lt_reg_r (1 - 1e-16)); [lra |].
          rewrite Rinv_l by lra. lra. }
      rewrite ln_Rinv in Hinv by lra. lra. }
    rewrite Hsplit.
    replace (3 - (3 * ln 10 + ln (1 - 1e-16)) / ln 10) with (- ln (1 - 1e-16) / ln 10)
      by (field; lra).
    assert (Hq : 0 <= - ln (1 - 1e-16) / ln 10 <= 2e-16).
    { split.
      - apply Rmult_le_pos; [lra | left; apply Rinv_0_lt_compat; lra].
      - apply (Rmult_le_reg_r (ln 10)); [lra |].
        replace (- ln (1 - 1e-16) / ln 10 * ln 10) with (- ln (1 - 1e-16)) by (field; lra).
        nra. }
    rewrite Rabs_pos_eq by lra. lra.
  - rewrite Reqb_false by exact Hne. rewrite log10_pos by exact Hx.
    eexists. split; [reflexivity |].
    replace (ln x / ln 10 - ln x / ln 10) with 0 by ring. rewrite Rabs_R0. lra.
Qed.

(** With this logarithm the limits of the axis of the single frequency
    [999.9999999999999] are both [1000]: the frequency is outside. *)
Lemma rounded_log10_limits :
  @plot_utils.setup_frequency_axis axis_samples.digits_only axis_samples.rounded_log10
    _ axis_samples.recording [Fin 999.9999999999999]
  = (_ ← @set_xscale _ axis_samples.recording "log";
     _ ← @set_xlim _ axis_samples.recording (Fin 1000) (Fin 1000);
     _ ← @set_major_locator _ axis_samples.recording (LogLocator 10 None);
     _ ← @set_minor_locator _ axis_samples.recording (LogLocator 10 (Some [2; 5]%Z));
     _ ← @set_major_formatter _ axis_samples.recording
           (plot_utils.formatter axis_samples.digits_only (Fin 1.0));
     _ ← @set_xlabel _ axis_samples.recording "Frequência (Hz)";
     mret (Fin 1.0, "Hz"%string)).
Proof.
  assert (Hpow : Rpower 10 3 = 1000).
  { replace 3 with (INR 3) by (simpl; lra). rewrite Rpower_pow by lra. simpl. lra. }
  unfold plot_utils.setup_frequency_axis. cbn [Np.min Np.max fold_left].
  rewrite !lift_bind.
  unfold fge. rewrite !fle_Fin_false by lra.
  rewrite !py_div_Fin, !lift_bind by lra.
  replace (999.9999999999999 / 1.0) with 999.9999999999999 by lra.
  unfold axis_samples.rounded_log10, feqb. rewrite Reqb_true by reflexivity.
  cbn [ffloor fceil pow10]. rewrite ZfloorZ.
  replace (Zceil 3) with 3%Z by (symmetry; apply Zceil_eq; lra).
  rewrite fmul_Fin, Hpow.
  replace (1000 * 1.0) with 1000 by lra. reflexivity.
Qed.

Lemma frequency_axis_brackets_data_witness :
  exists (factor lo hi : R) (unit : string) (k m : Z),
    @plot_utils.setup_frequency_axis axis_samples.digits_only axis_samples.rounded_log10
      _ axis_samples.recording (map Fin [999.9999999999999; 8000; 40000])
    = (_ ← @set_xscale _ axis_samples.recording "log";
       _ ← @set_xlim _ axis_samples.recording (Fin lo) (Fin hi);
       _ ← @set_major_locator _ axis_samples.recording (LogLocator 10 None);
       _ ← @set_minor_locator _ axis_samples.recording (LogLocator 10 (Some [2; 5]%Z));
       _ ← @set_major_formatter _ axis_samples.recording
             (plot_utils.formatter axis_samples.digits_only (Fin factor));
       _ ← @set_xlabel _ axis_samples.recording ("Frequência (" ++ unit ++ ")")%string;
       mret (Fin factor, unit))
    /\ units.FREQUENCY_UNITS !! unit = Some factor
    /\ lo = Rpower 10 (IZR k) * factor /\ hi = Rpower 10 (IZR m) * factor
    /\ Forall (fun f => lo <= Rpower 10 1e-15 * f /\ f <= Rpower 10 1e-15 * hi)
         [999.9999999999999; 8000; 40000]
    /\ Exists (fun f => f < 10 * Rpower 10 1e-15 * lo) [999.9999999999999; 8000; 40000]
    /\ Exists (fun f => hi < 10 * Rpower 10 1e-15 * f) [999.9999999999999; 8000; 40000].
Proof.
  apply (@frequency_axis_brackets_data _ axis_samples.recording axis_samples.digits_only
           axis_samples.rounded_log10 1e-15 [999.9999999999999; 8000; 40000]).
  - exact rounded_log10_close.
  - discriminate.
  - repeat constructor; lra.
Defined.

(** ** The curve fit with an optimizer *)

(** X20.  With five valid points or more and [n_points >= 0],
    [fit_bandpass_rlc] never raises and never returns [None], whatever
    the optimizer answers.  The optimizer is called on the valid points
    only, from a start with [A0] the greatest valid gain (positive),
    [f0] a valid frequency and [Q0] in [0.1, 200]; its answer is
    returned unchanged (the start itself when it raises), with a smooth
    curve of [n_points] points that is the model at these parameters. *)
Theorem fit_returns_optimizer_answer
    (fit : (list float -> float -> float -> float -> list float) ->
           list float -> list float -> float * float * float -> Z ->
           option (float * float * float))
    (freqs gains : list float) (n : Z) :
  length freqs = length gains ->
  let mask := map valid_point (combine freqs gains) in
  (5 <= Np.count_nonzero mask)%nat -> (0 <= n)%Z ->
  exists r fr gr A0 f00 Q0,
    Np.select freqs mask = map Fin fr /\ Np.select gains mask = map Fin gr
    /\ Forall (fun f => 0 < f) fr /\ Forall (fun g => 0 < g <= A0) gr
    /\ In A0 gr /\ In f00 fr /\ 0.1 <= Q0 <= 200
    /\ fit_bandpass_rlc (Some fit) freqs gains n = Ok (Some r)
    /\ (fit_A r, fit_f0 r, fit_Q r)
       = default (Fin A0, Fin f00, Fin Q0)
           (fit _bandpass_model (map Fin fr) (map Fin gr) (Fin A0, Fin f00, Fin Q0) 10000%Z)
    /\ length (freq_smooth r) = Z.to_nat n
    /\ gain_smooth r = _bandpass_model (freq_smooth r) (fit_A r) (fit_f0 r) (fit_Q r)
    /\ length (gain_smooth r) = Z.to_nat n.
Proof.
  intros Hlen mask Hcount Hn.
  assert (Hmlen : length mask = length freqs).
  { unfold mask. rewrite length_map, length_combine. lia. }
  destruct (select_valid freqs gains Hlen) as [Hf Hg]. fold mask in Hf, Hg.
  pose proof (select_length freqs mask ltac:(lia)) as Hflen.
  pose proof (select_length gains mask ltac:(lia)) as Hglen.
  destruct (posfin_list_real _ Hf) as (fr & Efr & Hfr).
  destruct (posfin_list_real _ Hg) as (gr & Egr & Hgr).
  rewrite Efr, length_map in Hflen. rewrite Egr, length_map in Hglen.
  assert (Hfne : fr <> []) by (intros ->; cbn in Hflen; lia).
  assert (Hgne : gr <> []) by (intros ->; cbn in Hglen; lia).
  destruct (initial_guess_real fr gr ltac:(lia) Hgne)
    as (idx & A0 & f00 & Q0 & Hguess & HA0 & Hf00 & Hall & _ & HQ0).
  destruct (np_min_real fr Hfne) as (lo & Hlo & Hinlo & Halllo).
  destruct (np_max_real fr Hfne) as (hi & Hhi & Hinhi & Hallhi).
  assert (Hlopos : 0 < lo) by (rewrite List.Forall_forall in Hfr; apply Hfr, Hinlo).
  assert (Hlohi : lo <= hi) by (rewrite List.Forall_forall in Halllo; apply Halllo, Hinhi).
  destruct (logspace_real lo hi n ltac:(lra) Hn) as (fsm & Hfsm & Hfsmlen & _).
  pose proof (fit_unfold (Some fit) freqs gains n (Fin A0, Fin f00, Fin Q0) (Fin lo) (Fin hi) Hlen)
    as Hfit.
  cbv zeta in Hfit. fold mask in Hfit. rewrite Efr, Egr in Hfit.
  specialize (Hfit Hcount Hguess Hlo Hhi). rewrite Hfsm, bind_Ok in Hfit.
  destruct (fit _bandpass_model (map Fin fr) (map Fin gr) (Fin A0, Fin f00, Fin Q0) 10000%Z)
    as [[[A f0] Q] |] eqn:Hopt.
  - eexists. exists fr, gr, A0, f00, Q0.
    split; [exact Efr |]. split; [exact Egr |]. split; [exact Hfr |].
    split.
    { rewrite List.Forall_forall in Hgr, Hall. apply List.Forall_forall.
      intros g Hgin. split; [apply Hgr | apply Hall]; exact Hgin. }
    split; [exact (nth_error_In _ _ HA0) |]. split; [exact (nth_error_In _ _ Hf00) |].
    split; [exact HQ0 |]. split; [exact Hfit |].
    rewrite Hopt. cbn [fit_A fit_f0 fit_Q freq_smooth gain_smooth default].
    split; [reflexivity |]. split; [rewrite length_map; exact Hfsmlen |].
    split; [reflexivity |]. unfold _bandpass_model. rewrite !length_map. exact Hfsmlen.
  - eexists. exists fr, gr, A0, f00, Q0.
    split; [exact Efr |]. split; [exact Egr |]. split; [exact Hfr |].
    split.
    { rewrite List.Forall_forall in Hgr, Hall. apply List.Forall_forall.
      intros g Hgin. split; [apply Hgr | apply Hall]; exact Hgin. }
    split; [exact (nth_error_In _ _ HA0) |]. split; [exact (nth_error_In _ _ Hf00) |].
    split; [exact HQ0 |]. split; [exact Hfit |].
    rewrite Hopt. cbn [fit_A fit_f0 fit_Q freq_smooth gain_smooth default].
    split; [reflexivity |]. split; [rewrite length_map; exact Hfsmlen |].
    split; [reflexivity |]. unfold _bandpass_model. rewrite !length_map. exact Hfsmlen.
Qed.

Lemma fit_returns_optimizer_answer_witness :
  let fit := fun (_ : list float -> float -> float -> float -> list float)
                 (_ _ : list float) (_ : float * float * float) (_ : Z) =>
               Some (NaN, Fin 0, NInf) in
  let freqs := [Fin 500; Fin 1000; Fin 2000; NaN; Fin 4000; Fin 8000] in
  let gains := [Fin 0.2; Fin 0.5; Fin 1; Fin 1; Fin 0.5; Fin 0.2] in
  let mask := map valid_point (combine freqs gains) in
  exists r fr gr A0 f00 Q0,
    Np.select freqs mask = map Fin fr /\ Np.select gains mask = map Fin gr
    /\ Forall (fun f => 0 < f) fr /\ Forall (fun g => 0 < g <= A0) gr
    /\ In A0 gr /\ In f00 fr /\ 0.1 <= Q0 <= 200
    /\ fit_bandpass_rlc (Some fit) freqs gains 600 = Ok (Some r)
    /\ (fit_A r, fit_f0 r, fit_Q r)
       = default (Fin A0, Fin f00, Fin Q0)
           (fit _bandpass_model (map Fin fr) (map Fin gr) (Fin A0, Fin f00, Fin Q0) 10000%Z)
    /\ length (freq_smooth r) = Z.to_nat 600
    /\ gain_smooth r = _bandpass_model (freq_smooth r) (fit_A r) (fit_f0 r) (fit_Q r)
    /\ length (gain_smooth r) = Z.to_nat 600.
Proof.
  apply (fit_returns_optimizer_answer
           (fun _ _ _ _ _ => Some (NaN, Fin 0, NInf))
           [Fin 500; Fin 1000; Fin 2000; NaN; Fin 4000; Fin 8000]
           [Fin 0.2; Fin 0.5; Fin 1; Fin 1; Fin 0.5; Fin 0.2] 600).
  - reflexivity.
  - cbn [combine map]. rewrite !valid_point_Fin by lra.
    change (valid_point (NaN, Fin 1)) with false. cbn. lia.
  - lia.
Defined.
